(** * iso::format — the compile-time checked printf of embedded_printf_traces

    A shallow embedding of [src/format.hpp]: the specifier scanner
    ([SpecifierTable], [SpecifierQuantity]), the per-kind checks and render
    routines ([SpecCheck<...>::valid], [::length], [::formatArg]), the length
    planner ([CheckSpecsTypes]), the three [Format::printf] overloads,
    [println] and the string concatenation of [wrappers::Wrap]; and of
    [src/log.hpp]: the printing functions of [Log] with their levels, labels
    and colours.

    Conventions.
    - A [char] is its integer value in [Z]; a [char] array is a [list Z].
      The array of a compile-time string always ends with the terminator
      [0], which is how [string<"...">] builds it.
    - Array indices, [sizeof] values and loop counters are [nat]: a literal
      has fewer than [2 ^ unsigned_bits] bytes, so the [unsigned] indices of
      the scan do not wrap. The scanned [width] is an [unsigned] computed from
      the digits and wraps modulo [2 ^ unsigned_bits].
    - The stack buffer of [printf] is a [list Z] of the planned capacity; the
      render routines run in a small state monad over it in which a store or a
      load outside the array is undefined behaviour ([Fault]).
    - Loops that are not structurally recursive carry a fuel argument; the
      lemmas below show that the fuel handed to them is enough. *)

From Stdlib Require Import ZArith Ascii String Lia ZifyNat.
From stdpp Require Import base tactics option list.

Local Open Scope Z_scope.
Local Open Scope nat_scope.

(** [lia] reasons about division and remainder by constants. *)
Ltac Zify.zify_post_hook ::= Z.to_euclidean_division_equations.

(** ** Characters *)

Definition chr (a : ascii) : Z := Z.of_N (N_of_ascii a).
Arguments chr a%_char.

(** The array behind [string<"text">]: the characters and the terminator. *)
Definition c_str (body : list Z) : list Z := body ++ [0%Z].

Definition literal (text : string) : list Z :=
  c_str (chr <$> list_ascii_of_string text).

(** The text ["\r\n"]. *)
Definition CRLF : string := String "013" (String "010" EmptyString).

(** [S::string[i]] in a constant expression. The scan of a terminated array
    stops at the terminator at the latest ([scan_specifier_in_bounds]), so the
    value chosen past the end is never used. *)
Definition char_at (str : list Z) (i : nat) : Z := default 0%Z (str !! i).

Ltac chr_values :=
  repeat match goal with
         | |- context [chr ?a] =>
             let v := eval vm_compute in (chr a) in change (chr a) with v
         | H : context [chr ?a] |- _ =>
             let v := eval vm_compute in (chr a) in change (chr a) with v in H
         end.

(** ** The target

    The sizes the code leaves to the platform. [void *] and [size_t] have the
    same size (flat address space), and [unsigned] has the size of [int]. *)

Record Target := {
  sizeof_int : nat;
  sizeof_size_t : nat;
  char_is_signed : bool
}.

(** A 32-bit microcontroller with unsigned plain [char] (ARM EABI). *)
Definition cortex_m : Target :=
  {| sizeof_int := 4; sizeof_size_t := 4; char_is_signed := false |}.

Definition unsigned_bits (tg : Target) : Z := 8 * Z.of_nat (sizeof_int tg).

(** Conversion of an integer to [unsigned]. *)
Definition to_unsigned (tg : Target) (x : Z) : Z := (x mod 2 ^ unsigned_bits tg)%Z.

(** Conversion of a natural number to [size_t]. *)
Definition to_size_t (tg : Target) (x : nat) : nat :=
  Z.to_nat (Z.of_nat x mod 2 ^ (8 * Z.of_nat (sizeof_size_t tg))).

(** [static_cast<unsigned char>]. *)
Definition to_uchar (x : Z) : Z := (x mod 256)%Z.

(** Conversion of an [int] to plain [char]. *)
Definition to_char (tg : Target) (x : Z) : Z :=
  if char_is_signed tg then ((x + 128) mod 256 - 128)%Z else (x mod 256)%Z.

(** ** Specifiers *)

Inductive Specifier : Type :=
| Unknown
| SignedDecimalInteger
| UnsignedDecimalInteger
| UnsignedHexadecimalInteger
| Character
| StringOfCharacters
| PointerAddress
| Time
| Boolean.

Global Instance Specifier_eq_dec : EqDecision Specifier.
Proof. solve_decision. Defined.

(** The underlying [char] of the enumeration. *)
Definition Specifier_code (s : Specifier) : Z :=
  match s with
  | Unknown => 0
  | SignedDecimalInteger => chr "d"
  | UnsignedDecimalInteger => chr "u"
  | UnsignedHexadecimalInteger => chr "X"
  | Character => chr "c"
  | StringOfCharacters => chr "s"
  | PointerAddress => chr "p"
  | Time => chr "t"
  | Boolean => chr "b"
  end.

Definition specifiers : list Specifier :=
  [SignedDecimalInteger; UnsignedDecimalInteger; UnsignedHexadecimalInteger;
   Character; StringOfCharacters; PointerAddress; Time; Boolean].

Record SpecifierData := {
  specifier : Specifier;
  width : Z;
  position : nat;
  size : nat
}.

(** [consteval SpecifierData() : specifier(), width(), position(), size() {}] *)
Definition SpecifierData_init : SpecifierData :=
  {| specifier := Unknown; width := 0; position := 0; size := 0 |}.

Global Instance SpecifierData_inhabited : Inhabited SpecifierData :=
  populate SpecifierData_init.

(** ** The scanner: [SpecifierTable] and [SpecifierQuantity] *)

Definition IsDigit (sym : Z) : bool :=
  ((chr "0" <=? sym) && (sym <=? chr "9"))%Z.

(** [for (const auto &s : specifiers) if (s == specInString) specifier = s;] *)
Definition match_specifier (specInString : Z) : Specifier :=
  fold_left (fun specifier s =>
               if (Specifier_code s =? specInString)%Z then s else specifier)
            specifiers Unknown.

Section Scanner.
Context (tg : Target).

(** [while (IsDigit(S::string[++i])) { ... }], entered with the index [i]
    not yet incremented; returns the index of the first character that is
    not a digit, and the width. The loop ends within [sizeof(S::string)]
    rounds ([width_loop_stop]). *)
Fixpoint width_loop (fuel : nat) (str : list Z) (i : nat) (width : Z) : nat * Z :=
  let i := S i in
  match fuel with
  | O => (i, width)
  | S fuel =>
      if IsDigit (char_at str i) then
        if ((chr "0" =? char_at str i) && (0 =? width))%Z then
          width_loop fuel str i width
        else
          width_loop fuel str i
            (to_unsigned tg (10 * width + (char_at str i - chr "0")))
      else (i, width)
  end.

(** The body of the scan for a [%] found at index [i]: the entry, and the
    index of its kind character. *)
Definition scan_specifier (str : list Z) (i : nat) : SpecifierData * nat :=
  let position := i in
  let size := i in
  let '(i, width) := width_loop (length str) str i 0 in
  let specInString := char_at str i in
  ({| specifier := match_specifier specInString;
      width := width;
      position := position;
      size := i - size + 1 |}, i).

(** [for (unsigned i = 0; i < sizeof(S::string); i++) { ... }]. The index
    [pos] of [data[pos]] stays inside the table, which has one element per
    [%]: every entry consumes a [%] of its own ([scan_entries_length]). *)
Fixpoint scan_loop (fuel : nat) (str : list Z) (i pos : nat)
    (data : list SpecifierData) : list SpecifierData :=
  match fuel with
  | O => data
  | S fuel =>
      if i <? length str then
        if (chr "%" =? char_at str i)%Z then
          let '(entry, i) := scan_specifier str i in
          scan_loop fuel str (S i) (S pos) (<[pos := entry]> data)
        else scan_loop fuel str (S i) pos data
      else data
  end.

Definition SpecifierTable (N : nat) (str : list Z) : list SpecifierData :=
  scan_loop (length str) str 0 0 (replicate N SpecifierData_init).
End Scanner.

Definition SpecifierQuantity (str : list Z) : nat :=
  fold_left (fun quantity s => if (chr "%" =? s)%Z then S quantity else quantity)
            str 0.

(** The entries the scan records from index [i] on, in order. *)
Fixpoint scan_entries (tg : Target) (fuel : nat) (str : list Z) (i : nat)
    : list SpecifierData :=
  match fuel with
  | O => []
  | S fuel =>
      if i <? length str then
        if (chr "%" =? char_at str i)%Z then
          let '(entry, i) := scan_specifier tg str i in
          entry :: scan_entries tg fuel str (S i)
        else scan_entries tg fuel str (S i)
      else []
  end.

(** Entries that lie in the literal one after the other from [cursor] on, an
    entry of a known kind ending before the terminator. *)
Inductive well_placed (str : list Z) : nat → list SpecifierData → Prop :=
| placed_nil cursor : cursor ≤ length str → well_placed str cursor []
| placed_cons cursor entry entries :
    cursor ≤ position entry →
    position entry + size entry ≤ length str →
    (specifier entry ≠ Unknown → position entry + size entry < length str) →
    well_placed str (position entry + size entry) entries →
    well_placed str cursor (entry :: entries).

(** ** Argument types

    The types an argument of [printf] can have, as far as the traits used by
    [SpecCheck] tell them apart: the integral types other than plain [char]
    (with [bool] as a one-byte unsigned type), plain [char], object pointers
    and the [wrappers::String<str>] types. *)

Inductive Ty : Type :=
| Integral (signed : bool) (bytes : nat)
| PlainChar
| Pointer
| StringT (body : list Z).

(** An argument: its static type and its run-time value. A [StringT] argument
    is an empty object, its value is not used. *)
Record Arg := { arg_type : Ty; arg_value : Z }.

Section Types.
Context (tg : Target).

Definition sizeof (ty : Ty) : nat :=
  match ty with
  | Integral _ bytes => bytes
  | PlainChar => 1
  | Pointer => sizeof_size_t tg
  | StringT _ => 1
  end.

Definition is_integral_v (ty : Ty) : bool :=
  match ty with Integral _ _ | PlainChar => true | _ => false end.

Definition is_signed_v (ty : Ty) : bool :=
  match ty with
  | Integral signed _ => signed
  | PlainChar => char_is_signed tg
  | _ => false
  end.

Definition is_unsigned_v (ty : Ty) : bool :=
  match ty with
  | Integral signed _ => negb signed
  | PlainChar => negb (char_is_signed tg)
  | _ => false
  end.

Definition is_pointer_v (ty : Ty) : bool :=
  match ty with Pointer => true | _ => false end.

Definition is_string_v (ty : Ty) : bool :=
  match ty with StringT _ => true | _ => false end.

(** [std::is_same_v<char, std::remove_cv_t<Type>>] *)
Definition is_char_v (ty : Ty) : bool :=
  match ty with PlainChar => true | _ => false end.

(** [std::is_convertible_v<Type, bool>] *)
Definition is_convertible_to_bool_v (ty : Ty) : bool :=
  match ty with StringT _ => false | _ => true end.

(** [Type::string] *)
Definition Type_string (ty : Ty) : list Z :=
  match ty with StringT body => c_str body | _ => [] end.

(** The values of a type. *)
Definition in_range (ty : Ty) (v : Z) : Prop :=
  match ty with
  | StringT _ => True
  | _ =>
      if is_signed_v ty
      then (- 2 ^ (8 * Z.of_nat (sizeof ty) - 1) <= v < 2 ^ (8 * Z.of_nat (sizeof ty) - 1))%Z
      else (0 <= v < 2 ^ (8 * Z.of_nat (sizeof ty)))%Z
  end.

(** ** [SpecCheck]: validity and maximum length per kind *)

Definition SpecCheck_valid (sp : Specifier) (ty : Ty) : bool :=
  match sp with
  | Unknown => false
  | SignedDecimalInteger => is_signed_v ty && is_integral_v ty
  | UnsignedDecimalInteger => is_unsigned_v ty && is_integral_v ty
  | UnsignedHexadecimalInteger => is_unsigned_v ty && is_integral_v ty
  | Character => is_char_v ty
  | StringOfCharacters => is_string_v ty
  | PointerAddress => is_pointer_v ty
  | Time => is_unsigned_v ty && is_integral_v ty && (sizeof_size_t tg <=? sizeof ty)
  | Boolean => is_convertible_to_bool_v ty
  end.

Definition SpecCheck_length (sp : Specifier) (ty : Ty) : nat :=
  match sp with
  | Unknown => 0
  | SignedDecimalInteger => (3 * sizeof ty) - (sizeof ty / 2) + 1
  | UnsignedDecimalInteger => (3 * sizeof ty) - (sizeof ty / 2)
  | UnsignedHexadecimalInteger => 2 * sizeof ty + 2
  | Character => 1
  | StringOfCharacters => length (Type_string ty) - 1
  | PointerAddress => 2 * sizeof_size_t tg + 2
  | Time => (3 * sizeof ty) - (sizeof ty / 2) + 4
  | Boolean => length (literal "FALSE")
  end.

(** Instantiating [SpecCheck<sp, Type>] evaluates [static_assert(valid, ...)]
    in every specialisation; the primary template, which serves [Unknown],
    has none. *)
Definition SpecCheck_static_assert (sp : Specifier) (ty : Ty) : bool :=
  match sp with
  | Unknown => true
  | _ => SpecCheck_valid sp ty
  end.

(** [formatArg] is defined in every specialisation and only declared in the
    primary template. *)
Definition formatArg_defined (sp : Specifier) : bool :=
  match sp with Unknown => false | _ => true end.

(** [CheckSpecsTypes<table>(First, Rest...)]; [None] when a
    [static_assert] fires or the constant table index is out of range. *)
Fixpoint CheckSpecsTypes (table : list SpecifierData) (First : Ty) (Rest : list Ty)
    : option nat :=
  let tableIndex := length table - (length Rest + 1) in
  match table !! tableIndex with
  | None => None
  | Some entry =>
      if SpecCheck_static_assert (specifier entry) First then
        match Rest with
        | [] => Some (SpecCheck_length (specifier entry) First)
        | First' :: Rest' =>
            match CheckSpecsTypes table First' Rest' with
            | Some sum => Some (sum + SpecCheck_length (specifier entry) First)
            | None => None
            end
        end
      else None
  end.
End Types.

(** [checkWidth]: only the decimals may carry a width. *)
Definition checkWidth (table : list SpecifierData) : bool :=
  forallb (fun d =>
             negb ((bool_decide (specifier d ≠ SignedDecimalInteger)
                    && bool_decide (specifier d ≠ UnsignedDecimalInteger))
                   && negb (width d =? 0)%Z))
          table.

(** ** The buffer monad *)

Inductive Outcome (A : Type) : Type :=
| Value (a : A)
| Fault        (* undefined behaviour: access outside an array, signed overflow *)
| OutOfFuel.
Arguments Value {A} a.
Arguments Fault {A}.
Arguments OutOfFuel {A}.

Definition M (A : Type) : Type := list Z → Outcome (A * list Z).

Definition ret {A} (a : A) : M A := λ buf, Value (a, buf).
Definition fault {A} : M A := λ _, Fault.
Definition out_of_fuel {A} : M A := λ _, OutOfFuel.
Definition bind {A B} (m : M A) (k : A → M B) : M B :=
  λ buf, match m buf with
         | Value (a, buf') => k a buf'
         | Fault => Fault
         | OutOfFuel => OutOfFuel
         end.

Notation "'let*' x := m 'in' k" := (bind m (fun x => k))
  (at level 10, x pattern, m at level 100, k at level 200).

(** [buffer[i] = c] *)
Definition store (i : nat) (c : Z) : M unit :=
  λ buf, if i <? length buf then Value (tt, <[i := c]> buf) else Fault.

(** [buffer[i]] *)
Definition load (i : nat) : M Z :=
  λ buf, match buf !! i with Some c => Value (c, buf) | None => Fault end.

(** ** [SpecCheck<...>::formatArg]: the render routines

    [buffer] is the index in the stack buffer the [char *buffer] parameter
    points to. *)

Section Render.
Context (tg : Target).

(** [do { val = static_cast<unsigned char>(uArg % 10); buffer[num++] = val + '0'; }
     while (uArg /= 10);] *)
Fixpoint digits_loop (fuel : nat) (buffer : nat) (uArg : Z) (num : nat) : M nat :=
  match fuel with
  | O => out_of_fuel
  | S fuel =>
      let val := to_uchar (Z.rem uArg 10) in
      let* _ := store (buffer + num) (to_char tg (val + chr "0")) in
      let num := S num in
      let uArg := Z.quot uArg 10 in
      if (uArg =? 0)%Z then ret num else digits_loop fuel buffer uArg num
  end.

(** [while (num < W::width) buffer[num++] = '0';] *)
Fixpoint pad_loop (fuel : nat) (buffer : nat) (width : Z) (num : nat) : M nat :=
  match fuel with
  | O => out_of_fuel
  | S fuel =>
      if (Z.of_nat num <? width)%Z then
        let* _ := store (buffer + num) (chr "0") in
        pad_loop fuel buffer width (S num)
      else ret num
  end.

(** [for (size_t i = 0; i < num / 2; i++) { swap = buffer[i];
     buffer[i] = buffer[num - i - 1]; buffer[num - i - 1] = swap; }] *)
Fixpoint swap_loop (fuel : nat) (buffer : nat) (num i : nat) : M unit :=
  match fuel with
  | O => out_of_fuel
  | S fuel =>
      if i <? num / 2 then
        let* swap := load (buffer + i) in
        let* other := load (buffer + (num - i - 1)) in
        let* _ := store (buffer + i) other in
        let* _ := store (buffer + (num - i - 1)) swap in
        swap_loop fuel buffer num (S i)
      else ret tt
  end.

(** The fuel of [digits_loop]: a number has no more decimal than binary
    digits. *)
Definition digits_fuel (uArg : Z) : nat := S (Z.to_nat (Z.log2 uArg)).

(** [if constexpr (W::width) { while (num < W::width) ... }] *)
Definition pad_if_width (buffer : nat) (W : Z) (num : nat) : M nat :=
  if (W =? 0)%Z then ret num else pad_loop (S (Z.to_nat W)) buffer W num.

(** [-arg], computed in the promoted type of [Type]. *)
Definition negate (ty : Ty) (arg : Z) : M Z :=
  let bytes := Nat.max (sizeof tg ty) (sizeof_int tg) in
  if (- arg <? 2 ^ (8 * Z.of_nat bytes - 1))%Z then ret (- arg)%Z else fault.

Definition formatArg_SignedDecimalInteger (buffer : nat) (ty : Ty) (arg : Z) (W : Z)
    : M nat :=
  let num := 0 in
  let* uArg := (if (arg <? 0)%Z then negate ty arg else ret arg) in
  let* num := digits_loop (digits_fuel uArg) buffer uArg num in
  let* num := pad_if_width buffer W num in
  let* num := (if (arg <? 0)%Z
               then let* _ := store (buffer + num) (chr "-") in ret (S num)
               else ret num) in
  let* _ := swap_loop (S num) buffer num 0 in
  ret num.

Definition formatArg_UnsignedDecimalInteger (buffer : nat) (arg : Z) (W : Z) : M nat :=
  let num := 0 in
  let* num := digits_loop (digits_fuel arg) buffer arg num in
  let* num := pad_if_width buffer W num in
  let* _ := swap_loop (S num) buffer num 0 in
  ret num.

(** [(val < 0xA) ? val + '0' : val + ('A' - 0xA)] *)
Definition hex_char (val : Z) : Z :=
  if (val <? 10)%Z then (val + chr "0")%Z else (val + (chr "A" - 10))%Z.

(** [const unsigned char val = (arg >> (bits - ((i - 1) * 4))) & 0xF;] and the
    character stored for it, with [bits = 8 * sizeof(Type)]. *)
Definition hex_at (bits arg : Z) (i : nat) : Z :=
  let val := to_uchar (Z.land (Z.shiftr arg (bits - (Z.of_nat i - 1) * 4)) 15) in
  to_char tg (hex_char val).

(** [for (size_t i = 2; i < length; i++) { val = ...; buffer[i] = ...; }] *)
Fixpoint hex_loop (fuel : nat) (buffer : nat) (bits : Z) (arg : Z) (length i : nat)
    : M unit :=
  match fuel with
  | O => out_of_fuel
  | S fuel =>
      if i <? length then
        let* _ := store (buffer + i) (hex_at bits arg i) in
        hex_loop fuel buffer bits arg length (S i)
      else ret tt
  end.

(** The body shared by [%X] and [%p], [bytes] being [sizeof(Type)] for the
    former and the size of a pointer for the latter. *)
Definition formatArg_hex (buffer : nat) (bytes : nat) (arg : Z) : M nat :=
  let length := 2 * bytes + 2 in
  let* _ := store (buffer + 0) (chr "0") in
  let* _ := store (buffer + 1) (chr "x") in
  let* _ := hex_loop (S length) buffer (8 * Z.of_nat bytes) arg length 2 in
  ret length.

Definition formatArg_UnsignedHexadecimalInteger (buffer : nat) (ty : Ty) (arg : Z)
    : M nat :=
  formatArg_hex buffer (sizeof tg ty) arg.

Definition formatArg_PointerAddress (buffer : nat) (arg : Z) : M nat :=
  let uArg := arg in
  formatArg_hex buffer (sizeof_size_t tg) uArg.

Definition formatArg_Character (buffer : nat) (arg : Z) : M nat :=
  let* _ := store (buffer + 0) arg in
  ret 1.

(** [for (size_t i = 0; i < len; i++) buffer[i] = src[i];] *)
Fixpoint copy_loop (fuel : nat) (buffer : nat) (src : list Z) (len i : nat) : M unit :=
  match fuel with
  | O => out_of_fuel
  | S fuel =>
      if i <? len then
        match src !! i with
        | Some c =>
            let* _ := store (buffer + i) c in
            copy_loop fuel buffer src len (S i)
        | None => fault
        end
      else ret tt
  end.

Definition formatArg_StringOfCharacters (buffer : nat) (ty : Ty) : M nat :=
  let length := length (Type_string ty) - 1 in
  let* _ := copy_loop (S length) buffer (Type_string ty) length 0 in
  ret length.

Definition formatArg_Time (buffer : nat) (arg : Z) : M nat :=
  let* num := formatArg_UnsignedDecimalInteger buffer (Z.quot arg 1000) 0 in
  let* _ := store (buffer + num) (chr ".") in
  let num := S num in
  let* more := formatArg_UnsignedDecimalInteger (buffer + num) (Z.rem arg 1000) 3 in
  ret (num + more).

Definition formatArg_Boolean (buffer : nat) (arg : Z) : M nat :=
  let cond := negb (arg =? 0)%Z in
  let len := (if cond then length (literal "TRUE") else length (literal "FALSE")) - 1 in
  let value := [literal "FALSE"; literal "TRUE"] in
  let* _ := copy_loop (S len) buffer (value !!! (if cond then 1 else 0)) len 0 in
  ret len.

(** [SpecCheck<sp, First>::formatArg(buffer, first, Width<width>{})]. The
    primary template has no definition to run. *)
Definition formatArg (sp : Specifier) (buffer : nat) (first : Arg) (W : Z) : M nat :=
  match sp with
  | Unknown => fault
  | SignedDecimalInteger =>
      formatArg_SignedDecimalInteger buffer (arg_type first) (arg_value first) W
  | UnsignedDecimalInteger => formatArg_UnsignedDecimalInteger buffer (arg_value first) W
  | UnsignedHexadecimalInteger =>
      formatArg_UnsignedHexadecimalInteger buffer (arg_type first) (arg_value first)
  | Character => formatArg_Character buffer (arg_value first)
  | StringOfCharacters => formatArg_StringOfCharacters buffer (arg_type first)
  | PointerAddress => formatArg_PointerAddress buffer (arg_value first)
  | Time => formatArg_Time buffer (arg_value first)
  | Boolean => formatArg_Boolean buffer (arg_value first)
  end.
End Render.

(** ** [Format::printf]

    A call of [printf] is first built: the [static_assert]s of the variadic
    overload are evaluated ([CompileError] when one fires) and every
    [formatArg] it names must have a definition ([LinkError] otherwise). A
    built call runs on the uninitialised stack buffer and the sink. The sink
    is the list of the arrays handed to [puts.puts], oldest first. *)

Inductive Build (A : Type) : Type :=
| CompileError
| LinkError
| Built (a : A).
Arguments CompileError {A}.
Arguments LinkError {A}.
Arguments Built {A} a.

Definition Build_map {A B} (f : A → B) (b : Build A) : Build B :=
  match b with
  | CompileError => CompileError
  | LinkError => LinkError
  | Built a => Built (f a)
  end.

(** [DataBuffer]: [data] is [None] for a null pointer and otherwise the
    array it points to. *)
Record DataBuffer := { data : option (list Z); data_length : nat }.

Section Printf.
Context (tg : Target).

(** [while (counterSource < limit) buffer[counterResult++] = S::string[counterSource++];] *)
Fixpoint literal_loop (fuel : nat) (str : list Z) (limit : nat)
    (counterSource counterResult : nat) : M (nat * nat) :=
  match fuel with
  | O => out_of_fuel
  | S fuel =>
      if counterSource <? limit then
        match str !! counterSource with
        | Some c =>
            let* _ := store counterResult c in
            literal_loop fuel str limit (S counterSource) (S counterResult)
        | None => fault
        end
      else ret (counterSource, counterResult)
  end.

(** The generic lambda [parse] of [printf], unfolded over the argument pack. *)
Fixpoint parse (str : list Z) (table : list SpecifierData) (first : Arg) (rest : list Arg)
    (counterSource counterResult : nat) : M (nat * nat) :=
  let tableIndex := length table - (length rest + 1) in
  match table !! tableIndex with
  | None => fault
  | Some entry =>
      let* (counterSource, counterResult) :=
        literal_loop (S (position entry)) str (position entry) counterSource counterResult in
      let* written := formatArg tg (specifier entry) counterResult first (width entry) in
      let counterResult := counterResult + written in
      let counterSource := counterSource + size entry in
      match rest with
      | first' :: rest' => parse str table first' rest' counterSource counterResult
      | [] => literal_loop (S (length str)) str (length str) counterSource counterResult
      end
  end.

(** The compile-time part of the variadic overload: the table and the
    capacity [length] of the buffer. *)
Definition printf_static (str : list Z) (Args : list Ty)
    : option (list SpecifierData * nat) :=
  match Args with
  | [] => None
  | First :: Rest =>
      let specifiersQuantity := SpecifierQuantity str in
      if length Args =? specifiersQuantity then
        let table := SpecifierTable tg specifiersQuantity str in
        if checkWidth table then
          match CheckSpecsTypes tg table First Rest with
          | Some sum => Some (table, sum + length str)
          | None => None
          end
        else None
      else None
  end.

(** Building a call [printf(str, args...)]. Without arguments overload
    resolution selects [printf(const S)], which analyses nothing. *)
Definition printf_build (str : list Z) (Args : list Ty)
    : Build (list SpecifierData * nat) :=
  match Args with
  | [] => Built ([], 0)
  | _ =>
      match printf_static str Args with
      | None => CompileError
      | Some (table, length) =>
          if forallb (fun d => formatArg_defined (specifier d)) table
          then Built (table, length)
          else LinkError
      end
  end.

(** [char buffer[length];] holds whatever the stack held. *)
Definition uninitialised (stack : nat → Z) (length : nat) : list Z :=
  stack <$> seq 0 length.

Definition printf_run (str : list Z) (built : list SpecifierData * nat)
    (args : list Arg) (stack : nat → Z) (sink : list (list Z))
    : Outcome (nat * list (list Z)) :=
  match args with
  | [] => Value (length str, sink ++ [str])
  | first :: rest =>
      let '(table, length) := built in
      match parse str table first rest 0 0 (uninitialised stack length) with
      | Value ((_, counterResult), buffer) => Value (counterResult, sink ++ [buffer])
      | Fault => Fault
      | OutOfFuel => OutOfFuel
      end
  end.

Definition printf (str : list Z) (args : list Arg) (stack : nat → Z)
    (sink : list (list Z)) : Build (Outcome (nat * list (list Z))) :=
  Build_map (fun built => printf_run str built args stack sink)
            (printf_build str (arg_type <$> args)).

(** The loop of the [DataBuffer] overload over [char buffer[] = " XX"]. *)
Fixpoint dump_loop (fuel : nat) (mem : list Z) (length i : nat) (buffer : list Z)
    (sink : list (list Z)) : Outcome (list (list Z)) :=
  match fuel with
  | O => OutOfFuel
  | S fuel =>
      if i <? length then
        match mem !! i with
        | None => Fault
        | Some d =>
            let val := to_char tg (Z.shiftr d 4) in
            let buffer := <[1 := to_char tg (hex_char val)]> buffer in
            let val := to_char tg (Z.land d 15) in
            let buffer := <[2 := to_char tg (hex_char val)]> buffer in
            dump_loop fuel mem length (S i) buffer (sink ++ [buffer])
        end
      else Value sink
  end.

(** The count returned is a sum of [size_t] values. It is computed in
    [size_t], where it wraps, or, on a target whose [size_t] is narrower than
    [int], in [int], where three times a [size_t] value and two more cannot
    overflow, and is converted to [size_t] on return. *)
Definition printf_DataBuffer_run (str : list Z) (built : list SpecifierData * nat)
    (dataBuffer : DataBuffer) (args : list Arg) (stack : nat → Z)
    (sink : list (list Z)) : Outcome (nat * list (list Z)) :=
  match data dataBuffer with
  | None => Value (0, sink)
  | Some mem =>
      match printf_run str built args stack sink with
      | Value (len, sink) =>
          let buffer := literal " XX" in
          match dump_loop (S (data_length dataBuffer)) mem (data_length dataBuffer) 0
                          buffer sink with
          | Value sink =>
              Value (to_size_t tg ((length buffer - 1) * data_length dataBuffer + len
                                   + (length (literal CRLF) - 1)),
                     sink ++ [literal CRLF])
          | Fault => Fault
          | OutOfFuel => OutOfFuel
          end
      | Fault => Fault
      | OutOfFuel => OutOfFuel
      end
  end.

Definition printf_DataBuffer (str : list Z) (dataBuffer : DataBuffer) (args : list Arg)
    (stack : nat → Z) (sink : list (list Z)) : Build (Outcome (nat * list (list Z))) :=
  Build_map (fun built => printf_DataBuffer_run str built dataBuffer args stack sink)
            (printf_build str (arg_type <$> args)).

(** [println]: [printf] on the literal with ["\r\n"] appended at compile
    time; [wrappers::Wrap::operator+] drops the first terminator. *)
Definition Wrap_plus (elems s : list Z) : list Z :=
  take (length elems - 1) elems ++ s.

Definition println (str : list Z) (args : list Arg) (stack : nat → Z)
    (sink : list (list Z)) : Build (Outcome (nat * list (list Z))) :=
  printf (Wrap_plus str (literal CRLF)) args stack sink.
End Printf.

(** ** The renderings in the words of the specification

    What each kind is specified to emit, as a plain list of characters; the
    render routines above are proved to store exactly these. *)

(** The decimal digits of a natural number, least significant first. *)
Fixpoint decimal_lsb (fuel : nat) (v : Z) : list Z :=
  match fuel with
  | O => []
  | S fuel =>
      (v mod 10 + chr "0")%Z
      :: (if (v / 10 =? 0)%Z then [] else decimal_lsb fuel (v / 10)%Z)
  end.

(** The unpadded decimal rendering, most significant digit first. *)
Definition decimal (v : Z) : list Z := reverse (decimal_lsb (digits_fuel v) v).

(** The number a run of decimal digits denotes. *)
Definition digits_step (acc d : Z) : Z := (10 * acc + (d - chr "0"))%Z.

Definition decimal_value (digits : list Z) : Z := fold_left digits_step digits 0%Z.

(** Zero padding on the left up to [W] characters; nothing is removed. *)
Definition zero_pad (W : Z) (digits : list Z) : list Z :=
  replicate (Z.to_nat W - length digits) (chr "0") ++ digits.

Definition signed_decimal (W : Z) (v : Z) : list Z :=
  (if (v <? 0)%Z then [chr "-"] else []) ++ zero_pad W (decimal (Z.abs v)).

(** The sixteen hexadecimal digits in order, and the digit of a nibble. *)
Definition hex_digits : list Z := chr <$> list_ascii_of_string "0123456789ABCDEF".

Definition hex_digit (nibble : Z) : Z := default 0%Z (hex_digits !! Z.to_nat nibble).

(** [n] hexadecimal digits of [v], most significant nibble first. *)
Definition hex_nibbles (n : nat) (v : Z) : list Z :=
  (fun k => hex_digit ((v / 16 ^ Z.of_nat (n - 1 - k)) mod 16)%Z) <$> seq 0 n.

Definition hexadecimal (bytes : nat) (v : Z) : list Z :=
  [chr "0"; chr "x"] ++ hex_nibbles (2 * bytes) v.

Definition time_rendering (v : Z) : list Z :=
  decimal (v / 1000)%Z ++ [chr "."] ++ zero_pad 3 (decimal (v mod 1000)%Z).

Definition boolean_rendering (v : Z) : list Z :=
  chr <$> list_ascii_of_string (if (v =? 0)%Z then "FALSE" else "TRUE").

(** The kind-specific rendering of an argument under a table entry. *)
Definition rendering (tg : Target) (entry : SpecifierData) (a : Arg) : list Z :=
  match specifier entry with
  | Unknown => []
  | SignedDecimalInteger => signed_decimal (width entry) (arg_value a)
  | UnsignedDecimalInteger => zero_pad (width entry) (decimal (arg_value a))
  | UnsignedHexadecimalInteger => hexadecimal (sizeof tg (arg_type a)) (arg_value a)
  | Character => [arg_value a]
  | StringOfCharacters => match arg_type a with StringT body => body | _ => [] end
  | PointerAddress => hexadecimal (sizeof_size_t tg) (arg_value a)
  | Time => time_rendering (arg_value a)
  | Boolean => boolean_rendering (arg_value a)
  end.

(** The literal bytes from index [from] up to index [upto]. *)
Definition literal_span (str : list Z) (from upto : nat) : list Z :=
  take (upto - from) (drop from str).

(** The output of a formatting call: for each table entry in order, the
    literal bytes from the source cursor up to the entry's position, then the
    rendering of the corresponding argument, the cursor moving past the
    entry's encoded size; after the last entry, the rest of the literal with
    its terminator. *)
Fixpoint rendered (tg : Target) (str : list Z) (table : list SpecifierData)
    (args : list Arg) (cursor : nat) : list Z :=
  match table, args with
  | entry :: table, a :: args =>
      literal_span str cursor (position entry) ++ rendering tg entry a
      ++ rendered tg str table args (position entry + size entry)
  | _, _ => drop cursor str
  end.

(** The number of digits [SpecCheck] plans for an unsigned decimal of
    [bytes] bytes. *)
Definition digits_bound (bytes : nat) : nat := 3 * bytes - bytes / 2.

(** The sum [CheckSpecsTypes] computes. *)
Fixpoint planned (tg : Target) (table : list SpecifierData) (Args : list Ty) : nat :=
  match table, Args with
  | entry :: table, First :: Rest =>
      SpecCheck_length tg (specifier entry) First + planned tg table Rest
  | _, _ => 0
  end.

(** An argument the render routines are defined on: its value is a value of
    its type, and its negation does not overflow the promoted type. *)
Definition arg_defined (tg : Target) (a : Arg) : Prop :=
  in_range tg (arg_type a) (arg_value a)
  ∧ (- arg_value a < 2 ^ (8 * Z.of_nat (Nat.max (sizeof tg (arg_type a)) (sizeof_int tg)) - 1))%Z.

(** The scan reaches the head of its loop with index [i] after having
    recorded [pos] entries. *)
Inductive scan_reaches (tg : Target) (str : list Z) : nat → nat → Prop :=
| reaches_start : scan_reaches tg str 0 0
| reaches_skip i pos :
    scan_reaches tg str i pos → i < length str → char_at str i ≠ chr "%" →
    scan_reaches tg str (S i) pos
| reaches_specifier i pos :
    scan_reaches tg str i pos → i < length str → char_at str i = chr "%" →
    scan_reaches tg str (S (snd (scan_specifier tg str i))) (S pos).

(** A [%] at index [length pre] that opens a specifier: the scan arrives
    there with [pos] entries recorded, the digit run [ds] follows, and then
    the character [k], which is not a digit. *)
Definition specifier_occurrence (tg : Target) (str : list Z) (pos : nat)
    (pre ds : list Z) (k : Z) (post : list Z) : Prop :=
  str = pre ++ chr "%" :: ds ++ k :: post
  ∧ Forall (fun c => IsDigit c = true) ds
  ∧ IsDigit k = false
  ∧ scan_reaches tg str (length pre) pos.

(** ** [wrappers::Wrap]: construction and concatenation

    Both run in constant expressions, where an access outside an array stops
    the evaluation ([None]). *)

(** [while (i < n) { str[i + offset] = src[i]; i++; }]; the loop makes at
    most [n] rounds, which the fuel of its callers covers. *)
Fixpoint Wrap_copy (fuel : nat) (src : list Z) (offset n i : nat) (str : list Z)
    : option (list Z) :=
  match fuel with
  | O => None
  | S fuel =>
      if i <? n then
        match src !! i with
        | Some c =>
            if i + offset <? length str
            then Wrap_copy fuel src offset n (S i) (<[i + offset := c]> str)
            else None
        | None => None
        end
      else Some str
  end.

(** [consteval Wrap(const char (&s)[N])]; [junk] fills the array before the
    loop has written it. *)
Definition Wrap (junk : Z) (s : list Z) : option (list Z) :=
  let N := length s in
  Wrap_copy (S N) s 0 N 0 (replicate N junk).

(** [Wrap::operator+]: [char str[size - 1 + S::size]], the two loops, and the
    new [Wrap]. *)
Definition Wrap_operator_plus (junk : Z) (elems s : list Z) : option (list Z) :=
  let size := length elems in
  let str := replicate (size - 1 + length s) junk in
  match Wrap_copy (S size) elems 0 (size - 1) 0 str with
  | Some str =>
      match Wrap_copy (S (length s)) s (size - 1) (length s) 0 str with
      | Some str => Wrap junk str
      | None => None
      end
  | None => None
  end.

(** ** [iso::log::Log]

    The level, the highlight and the component name of a logger are
    compile-time properties of its type; [tick] is what [out.tick()] returns
    at the call. The functions return nothing: a run leaves the sink. *)

Inductive Trace : Type :=
| Trace_All
| Trace_Trace
| Trace_Debug
| Trace_Info
| Trace_Warn
| Trace_Error
| Trace_Fatal
| Trace_None.

(** The underlying [unsigned] of the enumeration. *)
Definition Trace_value (t : Trace) : nat :=
  match t with
  | Trace_All => 0
  | Trace_Trace => 1
  | Trace_Debug => 2
  | Trace_Info => 3
  | Trace_Warn => 4
  | Trace_Error => 5
  | Trace_Fatal => 6
  | Trace_None => 7
  end.

(** [a >= b] on [Trace]. *)
Definition Trace_ge (a b : Trace) : bool := Trace_value b <=? Trace_value a.

Inductive Highlight : Type := Disabled | Enabled.

(** The escape character of the colour codes. *)
Definition ESC : ascii := "027"%char.

Record TraceHighlight := {
  def : list Z;
  cyan : list Z;
  red : list Z;
  yellow : list Z
}.

Definition TraceHighlight_of (col : Highlight) : TraceHighlight :=
  match col with
  | Disabled =>
      {| def := literal ""; cyan := literal ""; red := literal ""; yellow := literal "" |}
  | Enabled =>
      {| def := literal (String ESC "[0m");
         cyan := literal (String ESC "[36m");
         red := literal (String ESC "[31m");
         yellow := literal (String ESC "[33m") |}
  end.

Record Log := {
  Log_level : Trace;
  Log_colour : Highlight;
  Log_component : list Z
}.

(** [String::operator+], which is [Wrap::operator+] on the arrays. *)
Definition String_plus (a b : list Z) : list Z := Wrap_plus a b.

(** Dropping the count a formatting call returns. *)
Definition void (r : Build (Outcome (nat * list (list Z))))
    : Build (Outcome (list (list Z))) :=
  Build_map (fun o => match o with
                      | Value (_, sink) => Value sink
                      | Fault => Fault
                      | OutOfFuel => OutOfFuel
                      end) r.

(** [first; format.printf(string<highlight.def>);] *)
Definition then_printf (tg : Target) (first : Build (Outcome (nat * list (list Z))))
    (str : list Z) (stack : nat → Z) : Build (Outcome (list (list Z))) :=
  match first with
  | CompileError => CompileError
  | LinkError => LinkError
  | Built (Value (_, sink)) => void (printf tg str [] stack sink)
  | Built Fault => Built Fault
  | Built OutOfFuel => Built OutOfFuel
  end.

Section LogFunctions.
Context (tg : Target) (lg : Log).

Local Infix "+++" := String_plus (at level 50, left associativity).

Definition Log_message (S : list Z) (args : list Arg) (tick : Arg) (stack : nat → Z)
    (sink : list (list Z)) : Build (Outcome (list (list Z))) :=
  let res_str := literal "[%t] MESSAGE " +++ Log_component lg +++ literal ": " +++ S in
  void (println tg res_str (tick :: args) stack sink).

Definition Log_message_DataBuffer (S : list Z) (dataBuffer : DataBuffer) (args : list Arg)
    (tick : Arg) (stack : nat → Z) (sink : list (list Z))
    : Build (Outcome (list (list Z))) :=
  let res_str := literal "[%t] MESSAGE " +++ Log_component lg +++ literal ": " +++ S in
  void (printf_DataBuffer tg res_str dataBuffer (tick :: args) stack sink).

Definition Log_fatal (S : list Z) (args : list Arg) (tick : Arg) (stack : nat → Z)
    (sink : list (list Z)) : Build (Outcome (list (list Z))) :=
  let highlight := TraceHighlight_of (Log_colour lg) in
  if Trace_ge Trace_Fatal (Log_level lg) then
    let res_str := cyan highlight +++ literal "[%t] FATAL " +++ Log_component lg
                   +++ literal ": " +++ S +++ def highlight in
    void (println tg res_str (tick :: args) stack sink)
  else Built (Value sink).

Definition Log_fatal_DataBuffer (S : list Z) (dataBuffer : DataBuffer) (args : list Arg)
    (tick : Arg) (stack : nat → Z) (sink : list (list Z))
    : Build (Outcome (list (list Z))) :=
  let highlight := TraceHighlight_of (Log_colour lg) in
  if Trace_ge Trace_Fatal (Log_level lg) then
    let res_str := cyan highlight +++ literal "[%t] FATAL " +++ Log_component lg
                   +++ literal ": " +++ S in
    then_printf tg (printf_DataBuffer tg res_str dataBuffer (tick :: args) stack sink)
                (def highlight) stack
  else Built (Value sink).

Definition Log_error (S : list Z) (args : list Arg) (tick : Arg) (stack : nat → Z)
    (sink : list (list Z)) : Build (Outcome (list (list Z))) :=
  let highlight := TraceHighlight_of (Log_colour lg) in
  if Trace_ge Trace_Error (Log_level lg) then
    let res_str := red highlight +++ literal "[%t] ERROR " +++ Log_component lg
                   +++ literal ": " +++ S +++ def highlight in
    void (println tg res_str (tick :: args) stack sink)
  else Built (Value sink).

Definition Log_error_DataBuffer (S : list Z) (dataBuffer : DataBuffer) (args : list Arg)
    (tick : Arg) (stack : nat → Z) (sink : list (list Z))
    : Build (Outcome (list (list Z))) :=
  let highlight := TraceHighlight_of (Log_colour lg) in
  if Trace_ge Trace_Error (Log_level lg) then
    let res_str := red highlight +++ literal "[%t] ERROR " +++ Log_component lg
                   +++ literal ": " +++ S in
    then_printf tg (printf_DataBuffer tg res_str dataBuffer (tick :: args) stack sink)
                (def highlight) stack
  else Built (Value sink).

Definition Log_warning (S : list Z) (args : list Arg) (tick : Arg) (stack : nat → Z)
    (sink : list (list Z)) : Build (Outcome (list (list Z))) :=
  let highlight := TraceHighlight_of (Log_colour lg) in
  if Trace_ge Trace_Warn (Log_level lg) then
    let res_str := yellow highlight +++ literal "[%t] WARN " +++ Log_component lg
                   +++ literal ": " +++ S +++ def highlight in
    void (println tg res_str (tick :: args) stack sink)
  else Built (Value sink).

Definition Log_warning_DataBuffer (S : list Z) (dataBuffer : DataBuffer) (args : list Arg)
    (tick : Arg) (stack : nat → Z) (sink : list (list Z))
    : Build (Outcome (list (list Z))) :=
  let highlight := TraceHighlight_of (Log_colour lg) in
  if Trace_ge Trace_Warn (Log_level lg) then
    let res_str := yellow highlight +++ literal "[%t] WARN " +++ Log_component lg
                   +++ literal ": " +++ S in
    then_printf tg (printf_DataBuffer tg res_str dataBuffer (tick :: args) stack sink)
                (def highlight) stack
  else Built (Value sink).

Definition Log_info (S : list Z) (args : list Arg) (tick : Arg) (stack : nat → Z)
    (sink : list (list Z)) : Build (Outcome (list (list Z))) :=
  if Trace_ge Trace_Info (Log_level lg) then
    let res_str := literal "[%t] INFO " +++ Log_component lg +++ literal ": " +++ S in
    void (println tg res_str (tick :: args) stack sink)
  else Built (Value sink).

Definition Log_info_DataBuffer (S : list Z) (dataBuffer : DataBuffer) (args : list Arg)
    (tick : Arg) (stack : nat → Z) (sink : list (list Z))
    : Build (Outcome (list (list Z))) :=
  if Trace_ge Trace_Info (Log_level lg) then
    let res_str := literal "[%t] INFO " +++ Log_component lg +++ literal ": " +++ S in
    void (printf_DataBuffer tg res_str dataBuffer (tick :: args) stack sink)
  else Built (Value sink).

Definition Log_debug (S : list Z) (args : list Arg) (tick : Arg) (stack : nat → Z)
    (sink : list (list Z)) : Build (Outcome (list (list Z))) :=
  if Trace_ge Trace_Debug (Log_level lg) then
    let res_str := literal "[%t] DEBUG " +++ Log_component lg +++ literal ": " +++ S in
    void (println tg res_str (tick :: args) stack sink)
  else Built (Value sink).

Definition Log_debug_DataBuffer (S : list Z) (dataBuffer : DataBuffer) (args : list Arg)
    (tick : Arg) (stack : nat → Z) (sink : list (list Z))
    : Build (Outcome (list (list Z))) :=
  if Trace_ge Trace_Debug (Log_level lg) then
    let res_str := literal "[%t] DEBUG " +++ Log_component lg +++ literal ": " +++ S in
    void (printf_DataBuffer tg res_str dataBuffer (tick :: args) stack sink)
  else Built (Value sink).

Definition Log_trace (S : list Z) (args : list Arg) (tick : Arg) (stack : nat → Z)
    (sink : list (list Z)) : Build (Outcome (list (list Z))) :=
  if Trace_ge Trace_Trace (Log_level lg) then
    let res_str := literal "[%t] TRACE " +++ Log_component lg +++ literal ": " +++ S in
    void (println tg res_str (tick :: args) stack sink)
  else Built (Value sink).

Definition Log_trace_DataBuffer (S : list Z) (dataBuffer : DataBuffer) (args : list Arg)
    (tick : Arg) (stack : nat → Z) (sink : list (list Z))
    : Build (Outcome (list (list Z))) :=
  if Trace_ge Trace_Trace (Log_level lg) then
    let res_str := literal "[%t] TRACE " +++ Log_component lg +++ literal ": " +++ S in
    void (printf_DataBuffer tg res_str dataBuffer (tick :: args) stack sink)
  else Built (Value sink).
End LogFunctions.

(** The seven printing functions of [Log], and their [DataBuffer] overloads,
    as one family indexed by the function. *)
Inductive LogFunction : Type :=
| f_message
| f_fatal
| f_error
| f_warning
| f_info
| f_debug
| f_trace.

Definition Log_call (tg : Target) (lg : Log) (f : LogFunction)
    : list Z → list Arg → Arg → (nat → Z) → list (list Z)
      → Build (Outcome (list (list Z))) :=
  match f with
  | f_message => Log_message tg lg
  | f_fatal => Log_fatal tg lg
  | f_error => Log_error tg lg
  | f_warning => Log_warning tg lg
  | f_info => Log_info tg lg
  | f_debug => Log_debug tg lg
  | f_trace => Log_trace tg lg
  end.

Definition Log_call_DataBuffer (tg : Target) (lg : Log) (f : LogFunction)
    : list Z → DataBuffer → list Arg → Arg → (nat → Z) → list (list Z)
      → Build (Outcome (list (list Z))) :=
  match f with
  | f_message => Log_message_DataBuffer tg lg
  | f_fatal => Log_fatal_DataBuffer tg lg
  | f_error => Log_error_DataBuffer tg lg
  | f_warning => Log_warning_DataBuffer tg lg
  | f_info => Log_info_DataBuffer tg lg
  | f_debug => Log_debug_DataBuffer tg lg
  | f_trace => Log_trace_DataBuffer tg lg
  end.

(** ** Specification-side notions for the further properties *)

(** The severity of a function of [Log]; [message] has none. *)
Definition severity (f : LogFunction) : option Trace :=
  match f with
  | f_message => None
  | f_fatal => Some Trace_Fatal
  | f_error => Some Trace_Error
  | f_warning => Some Trace_Warn
  | f_info => Some Trace_Info
  | f_debug => Some Trace_Debug
  | f_trace => Some Trace_Trace
  end.

(** A function is enabled when its severity is not below the level of the
    logger. *)
Definition enabled (lg : Log) (f : LogFunction) : bool :=
  match severity f with
  | Some sev => Trace_value (Log_level lg) <=? Trace_value sev
  | None => true
  end.

(** The label a function puts after the time stamp. *)
Definition label (f : LogFunction) : string :=
  match f with
  | f_message => "MESSAGE"
  | f_fatal => "FATAL"
  | f_error => "ERROR"
  | f_warning => "WARN"
  | f_info => "INFO"
  | f_debug => "DEBUG"
  | f_trace => "TRACE"
  end.

(** The characters of a string, without a terminator. *)
Definition chars (text : string) : list Z := chr <$> list_ascii_of_string text.

(** The colour code that opens a line, and the one that closes it. *)
Definition opening (col : Highlight) (f : LogFunction) : list Z :=
  match col, f with
  | Enabled, f_fatal => chars (String ESC "[36m")
  | Enabled, f_error => chars (String ESC "[31m")
  | Enabled, f_warning => chars (String ESC "[33m")
  | _, _ => []
  end.

Definition closing (col : Highlight) (f : LogFunction) : list Z :=
  match col, f with
  | Enabled, f_fatal | Enabled, f_error | Enabled, f_warning => chars (String ESC "[0m")
  | _, _ => []
  end.

(** Whether a function is one of the three that use a colour. *)
Definition coloured (f : LogFunction) : bool :=
  match f with f_fatal | f_error | f_warning => true | _ => false end.

(** The characters of the literal a function of [Log] formats, up to and
    including the literal of the caller. *)
Definition Log_format (col : Highlight) (f : LogFunction) (comp body : list Z) : list Z :=
  opening col f ++ chars "[%t] " ++ chars (label f) ++ chars " " ++ comp ++ chars ": "
  ++ body.

(** The head of a log line up to the message: colour, time stamp in
    brackets, label, component name. *)
Definition Log_head (col : Highlight) (f : LogFunction) (comp : list Z) (tick : Z)
    : list Z :=
  opening col f ++ chars "[" ++ time_rendering tick ++ chars "] " ++ chars (label f)
  ++ chars " " ++ comp ++ chars ": ".

(** The group the dump emits for a byte: a blank and two hexadecimal digits. *)
Definition dump_group (d : Z) : list Z :=
  [chr " "; hex_digit (d / 16)%Z; hex_digit (d mod 16)%Z; 0%Z].


(** The value of a hexadecimal digit: [0] to [9] and [A] to [F], nothing
    else. *)
Definition hex_digit_value (c : Z) : option Z :=
  if ((chr "0" <=? c) && (c <=? chr "9"))%Z then Some (c - chr "0")%Z
  else if ((chr "A" <=? c) && (c <=? chr "F"))%Z then Some (c - chr "A" + 10)%Z
  else None.

(** The number a run of hexadecimal digits denotes in base 16; [None] when
    a character of the run is not a hexadecimal digit. *)
Definition hex_value (digits : list Z) : option Z :=
  fold_left (fun acc c =>
               match acc, hex_digit_value c with
               | Some a, Some d => Some (16 * a + d)%Z
               | _, _ => None
               end)
            digits (Some 0%Z).

(** The literal bytes the specifiers of a table take up. *)
Definition encoded_sizes (table : list SpecifierData) : nat :=
  sum_list (size <$> table).

(** The characters the arguments render to. *)
Fixpoint renderings_length (tg : Target) (table : list SpecifierData) (args : list Arg)
    : nat :=
  match table, args with
  | entry :: table, a :: args =>
      length (rendering tg entry a) + renderings_length tg table args
  | _, _ => 0
  end.

(** The entry moved [d] bytes to the right. *)
Definition shift_entry (d : nat) (entry : SpecifierData) : SpecifierData :=
  {| specifier := specifier entry; width := width entry;
     position := d + position entry; size := size entry |}.

(** ** Arguments used in the examples *)

Definition int_arg (v : Z) : Arg := {| arg_type := Integral true 4; arg_value := v |}.
Definition unsigned_arg (v : Z) : Arg := {| arg_type := Integral false 4; arg_value := v |}.
Definition uint8_arg (v : Z) : Arg := {| arg_type := Integral false 1; arg_value := v |}.
Definition stack_of (c : Z) : nat → Z := fun _ => c.

(** * Properties *)

(** ** Characters and conversions *)

Lemma to_char_ascii tg x : (0 <= x < 128)%Z → to_char tg x = x.
Proof.
  intros Hx. unfold to_char. destruct (char_is_signed tg).
  - rewrite Z.mod_small by lia. lia.
  - apply Z.mod_small. lia.
Qed.

Lemma to_uchar_small x : (0 <= x < 256)%Z → to_uchar x = x.
Proof. intros Hx. apply Z.mod_small. lia. Qed.

(** ** The buffer monad *)

Lemma bind_value {A B} (m : M A) (k : A → M B) buf a buf' :
  m buf = Value (a, buf') → bind m k buf = k a buf'.
Proof. intros H. unfold bind. by rewrite H. Qed.

Lemma store_value i c buf :
  i < length buf → store i c buf = Value (tt, <[i := c]> buf).
Proof.
  intros H. unfold store. destruct (Nat.ltb_spec i (length buf)); [done | lia].
Qed.

Lemma store_fault i c buf : length buf ≤ i → store i c buf = Fault.
Proof.
  intros H. unfold store. destruct (Nat.ltb_spec i (length buf)); [lia | done].
Qed.

Lemma load_value i c buf : buf !! i = Some c → load i buf = Value (c, buf).
Proof. intros H. unfold load. by rewrite H. Qed.

(** Storing the next character of a run extends the run. *)
Lemma insert_inserts_snoc (buf : list Z) i (k : list Z) c :
  i + length k < length buf →
  <[i + length k := c]> (list_inserts i k buf) = list_inserts i (k ++ [c]) buf.
Proof.
  intros H. rewrite list_inserts_app_l. simpl. f_equal. lia.
Qed.

(** ** Decimal digits *)

Lemma decimal_lsb_fuel f f' v :
  (0 <= v < 10 ^ Z.of_nat (S f))%Z → (v < 10 ^ Z.of_nat (S f'))%Z →
  decimal_lsb (S f) v = decimal_lsb (S f') v.
Proof.
  revert f' v. induction f as [|f IH]; intros f' v Hv Hv'.
  - assert (v / 10 = 0)%Z as Hq by (apply Z.div_small; lia).
    simpl. rewrite Hq. reflexivity.
  - cbn [decimal_lsb]. destruct (Z.eqb_spec (v / 10) 0) as [|Hq]; [done|].
    f_equal.
    assert (0 <= v / 10 < 10 ^ Z.of_nat (S f))%Z as Hlo.
    { split; [apply Z.div_pos; lia|].
      apply Z.div_lt_upper_bound; [lia|].
      rewrite <- Z.pow_succ_r by lia. rewrite <- Nat2Z.inj_succ. lia. }
    destruct f' as [|f'].
    + exfalso. apply Hq, Z.div_small. lia.
    + apply IH; [done|].
      apply Z.div_lt_upper_bound; [lia|].
      rewrite <- Z.pow_succ_r by lia. rewrite <- Nat2Z.inj_succ. lia.
Qed.

Lemma digits_fuel_enough v : (0 <= v)%Z → (v < 10 ^ Z.of_nat (digits_fuel v))%Z.
Proof.
  intros Hv. unfold digits_fuel.
  rewrite Nat2Z.inj_succ, Z2Nat.id by apply Z.log2_nonneg.
  destruct (Z.eq_dec v 0%Z) as [->|Hne].
  - simpl. lia.
  - pose proof (Z.log2_spec v ltac:(lia)) as [_ Hup].
    eapply Z.lt_le_trans; [exact Hup|].
    apply Z.pow_le_mono_l. lia.
Qed.

Lemma decimal_lsb_enough f v :
  (0 <= v < 10 ^ Z.of_nat (S f))%Z →
  decimal_lsb (S f) v = decimal_lsb (digits_fuel v) v.
Proof.
  intros Hv. unfold digits_fuel. apply decimal_lsb_fuel; [done|].
  apply (digits_fuel_enough v). lia.
Qed.

(** The recursion equation of the decimal rendering. *)
Lemma decimal_step v :
  (0 <= v)%Z →
  decimal v =
    (if (v / 10 =? 0)%Z then [] else decimal (v / 10)) ++ [(v mod 10 + chr "0")%Z].
Proof.
  intros Hv. unfold decimal at 1. unfold digits_fuel at 1.
  cbn [decimal_lsb]. rewrite reverse_cons. f_equal.
  destruct (Z.eqb_spec (v / 10) 0) as [|Hq]; [done|].
  unfold decimal. f_equal.
  assert (0 < v / 10)%Z as Hpos.
  { pose proof (Z.div_pos v 10 Hv ltac:(lia)). lia. }
  assert (10 <= v)%Z as Hten.
  { destruct (Z_lt_le_dec v 10) as [Hlt|]; [|done].
    rewrite Z.div_small in Hpos by lia. lia. }
  pose proof (Z.log2_spec v ltac:(lia)) as [Hlo Hup].
  assert (1 <= Z.log2 v)%Z as Hlog.
  { apply Z.log2_le_pow2; [lia|]. simpl. lia. }
  destruct (Z.to_nat (Z.log2 v)) as [|f] eqn:Hf; [lia|].
  apply decimal_lsb_enough. split; [lia|].
  apply Z.div_lt_upper_bound; [lia|].
  rewrite <- Hf, Z2Nat.id by lia.
  eapply Z.lt_le_trans; [exact Hup|].
  rewrite Z.pow_succ_r by lia.
  assert (2 ^ Z.log2 v <= 10 ^ Z.log2 v)%Z by (apply Z.pow_le_mono_l; lia).
  lia.
Qed.

Lemma decimal_small v : (0 <= v < 10)%Z → decimal v = [(v + chr "0")%Z].
Proof.
  intros Hv. rewrite decimal_step by lia.
  rewrite Z.div_small, Z.mod_small by lia. reflexivity.
Qed.

Lemma IsDigit_spec c : IsDigit c = true ↔ (chr "0" <= c <= chr "9")%Z.
Proof. unfold IsDigit. rewrite andb_true_iff, !Z.leb_le. reflexivity. Qed.

Lemma decimal_lsb_digits f v :
  (0 <= v)%Z → Forall (fun c => IsDigit c = true) (decimal_lsb f v).
Proof.
  revert v. induction f as [|f IH]; intros v Hv; [constructor|].
  cbn [decimal_lsb]. constructor.
  - apply IsDigit_spec. chr_values. pose proof (Z.mod_pos_bound v 10). lia.
  - destruct (v / 10 =? 0)%Z; [constructor|]. apply IH, Z.div_pos; lia.
Qed.

(** Every character of the decimal rendering is a digit. *)
Lemma decimal_digits v : (0 <= v)%Z → Forall (fun c => IsDigit c = true) (decimal v).
Proof.
  intros Hv. unfold decimal. apply Forall_reverse, decimal_lsb_digits, Hv.
Qed.

Lemma decimal_value_snoc ds d :
  decimal_value (ds ++ [d]) = (10 * decimal_value ds + (d - chr "0"))%Z.
Proof. unfold decimal_value. rewrite fold_left_app. reflexivity. Qed.

(** The rendering denotes the number: reading [decimal v] back gives [v]. *)
Lemma decimal_value_decimal v : (0 <= v)%Z → decimal_value (decimal v) = v.
Proof.
  revert v. apply (Zlt_0_ind (fun v => decimal_value (decimal v) = v)).
  intros v IH Hv. rewrite decimal_step by lia.
  rewrite decimal_value_snoc.
  destruct (Z.eqb_spec (v / 10) 0) as [Hq|Hq].
  - assert (decimal_value [] = 0%Z) as -> by reflexivity.
    pose proof (Z.div_mod v 10 ltac:(lia)). lia.
  - assert (0 <= v / 10)%Z by (apply Z.div_pos; lia).
    rewrite IH.
    + pose proof (Z.div_mod v 10 ltac:(lia)). lia.
    + split; [lia|]. apply Z.div_lt; lia.
Qed.

(** A positive number has no leading zero: with [decimal_digits] and
    [decimal_value_decimal] this makes [decimal v] the decimal numeral of [v]. *)
Lemma decimal_leading_digit v :
  (0 < v)%Z → ∃ d rest, decimal v = d :: rest ∧ d ≠ chr "0".
Proof.
  intros Hv. assert (0 <= v)%Z as Hnn by lia. revert v Hnn Hv.
  apply (Zlt_0_ind (fun v => (0 < v)%Z → ∃ d rest, decimal v = d :: rest ∧ d ≠ chr "0")).
  intros v IH Hnn Hv. rewrite decimal_step by done.
  destruct (Z.eqb_spec (v / 10) 0) as [Hq|Hq].
  - exists (v mod 10 + chr "0")%Z, []. split; [done|]. lia.
  - destruct (IH (v / 10)%Z) as (d & rest & -> & Hd); [lia|lia|].
    by exists d, (rest ++ [(v mod 10 + chr "0")%Z]).
Qed.

Lemma decimal_nonempty v : (0 <= v)%Z → 0 < length (decimal v).
Proof.
  intros Hv. rewrite decimal_step by done. rewrite length_app. simpl. lia.
Qed.

(** ** The loops of the decimal routines *)

Section RenderFacts.
Context (tg : Target).

Lemma decimal_lsb_S fuel v :
  decimal_lsb (S fuel) v =
    (v mod 10 + chr "0")%Z
    :: (if (v / 10 =? 0)%Z then [] else decimal_lsb fuel (v / 10)%Z).
Proof. reflexivity. Qed.

Lemma digits_loop_S fuel buffer v num buf :
  (0 <= v)%Z → buffer + num < length buf →
  digits_loop tg (S fuel) buffer v num buf =
    (if (v / 10 =? 0)%Z then ret (S num)
     else digits_loop tg fuel buffer (v / 10)%Z (S num))
      (<[buffer + num := (v mod 10 + chr "0")%Z]> buf).
Proof.
  intros Hv Hfit. cbn [digits_loop].
  rewrite Z.rem_mod_nonneg, Z.quot_div_nonneg by lia.
  rewrite to_uchar_small by lia.
  rewrite to_char_ascii by (chr_values; lia).
  erewrite bind_value by (apply store_value; lia). reflexivity.
Qed.

Lemma digits_loop_spec fuel buffer v num buf :
  (0 <= v < 10 ^ Z.of_nat (S fuel))%Z →
  buffer + num + length (decimal_lsb (S fuel) v) ≤ length buf →
  digits_loop tg (S fuel) buffer v num buf =
    Value (num + length (decimal_lsb (S fuel) v),
           list_inserts (buffer + num) (decimal_lsb (S fuel) v) buf).
Proof.
  revert v num buf. induction fuel as [|fuel IH]; intros v num buf Hv Hfit;
    rewrite decimal_lsb_S in *; cbn [length] in Hfit;
    rewrite digits_loop_S by lia;
    destruct (Z.eqb_spec (v / 10) 0) as [Hq|Hq];
    try (unfold ret; cbn [length list_inserts]; repeat f_equal; lia).
  assert (0 <= v / 10 < 10 ^ Z.of_nat (S fuel))%Z as Hlo.
  { split; [lia|]. apply Z.div_lt_upper_bound; [lia|].
    rewrite <- Z.pow_succ_r by lia. rewrite <- Nat2Z.inj_succ. lia. }
  rewrite IH; [|done|rewrite length_insert; lia].
  cbn [length]. cbn [list_inserts].
  rewrite list_insert_inserts_lt by lia.
  replace (buffer + S num) with (S (buffer + num)) by lia.
  f_equal. f_equal. lia.
Qed.

Lemma pad_loop_spec fuel buffer W num buf :
  Z.to_nat W - num < fuel →
  buffer + num + (Z.to_nat W - num) ≤ length buf →
  pad_loop fuel buffer W num buf =
    Value (num + (Z.to_nat W - num),
           list_inserts (buffer + num) (replicate (Z.to_nat W - num) (chr "0")) buf).
Proof.
  revert num buf. induction fuel as [|fuel IH]; intros num buf Hfuel Hfit; [lia|].
  cbn [pad_loop]. destruct (Z.ltb_spec (Z.of_nat num) W) as [Hlt|Hge].
  - assert (Z.to_nat W - num = S (Z.to_nat W - S num)) as Hs by lia.
    erewrite bind_value by (apply store_value; lia).
    rewrite IH; [|lia|rewrite length_insert; lia].
    rewrite Hs. cbn [replicate list_inserts]. f_equal. f_equal; [lia|].
    rewrite list_insert_inserts_lt by lia.
    do 2 f_equal. lia.
  - assert (Z.to_nat W - num = 0) as -> by lia.
    simpl. unfold ret. repeat f_equal. lia.
Qed.

Lemma pad_if_width_spec buffer W num buf :
  buffer + num + (Z.to_nat W - num) ≤ length buf →
  pad_if_width buffer W num buf =
    Value (num + (Z.to_nat W - num),
           list_inserts (buffer + num) (replicate (Z.to_nat W - num) (chr "0")) buf).
Proof.
  intros Hfit. unfold pad_if_width. destruct (Z.eqb_spec W 0) as [->|HW].
  - simpl. unfold ret. repeat f_equal. lia.
  - apply pad_loop_spec; lia.
Qed.

(** The reversal loop, started at step [i], mirrors the part of the segment
    it has not visited and leaves the rest of the buffer alone. *)
Lemma swap_loop_mirror fuel buffer num i buf :
  num / 2 - i < fuel → buffer + num ≤ length buf →
  ∃ buf', swap_loop fuel buffer num i buf = Value (tt, buf')
    ∧ length buf' = length buf
    ∧ ∀ j, buf' !! j =
        if bool_decide (buffer + i ≤ j < buffer + num - i)
        then buf !! (buffer + (num - 1 - (j - buffer)))
        else buf !! j.
Proof.
  revert i buf. induction fuel as [|fuel IH]; intros i buf Hfuel Hfit; [lia|].
  cbn [swap_loop]. destruct (Nat.ltb_spec i (num / 2)) as [Hlt|Hge].
  - assert (2 * i + 1 < num) as Hmid by lia.
    destruct (lookup_lt_is_Some_2 buf (buffer + i) ltac:(lia)) as [a Ha].
    destruct (lookup_lt_is_Some_2 buf (buffer + (num - i - 1)) ltac:(lia)) as [b Hb].
    erewrite bind_value by (apply load_value; exact Ha).
    erewrite bind_value by (apply load_value; exact Hb).
    erewrite bind_value by (apply store_value; lia).
    erewrite bind_value by (apply store_value; rewrite length_insert; lia).
    destruct (IH (S i) (<[buffer + (num - i - 1) := a]> (<[buffer + i := b]> buf)))
      as (buf' & Hrun & Hlen & Hget); [lia|rewrite !length_insert; lia|].
    exists buf'. split; [done|]. split; [by rewrite Hlen, !length_insert|].
    intros j. rewrite Hget. repeat case_bool_decide; try lia.
    + rewrite !list_lookup_insert_ne by lia. done.
    + destruct (decide (j = buffer + i)) as [->|Hj].
      * rewrite list_lookup_insert_ne by lia.
        rewrite list_lookup_insert_eq by lia.
        rewrite <- Hb. f_equal. lia.
      * assert (j = buffer + (num - i - 1)) as -> by lia.
        rewrite list_lookup_insert_eq by (rewrite length_insert; lia).
        rewrite <- Ha. f_equal. lia.
    + rewrite !list_lookup_insert_ne by lia. done.
  - exists buf. split; [done|]. split; [done|].
    intros j. case_bool_decide; [|done]. f_equal. lia.
Qed.

Lemma swap_loop_spec buffer seg buf :
  buffer + length seg ≤ length buf →
  swap_loop (S (length seg)) buffer (length seg) 0 (list_inserts buffer seg buf) =
    Value (tt, list_inserts buffer (reverse seg) buf).
Proof.
  intros Hfit.
  destruct (swap_loop_mirror (S (length seg)) buffer (length seg) 0
              (list_inserts buffer seg buf)) as (buf' & Hrun & Hlen & Hget);
    [lia|rewrite length_inserts; lia|].
  rewrite Hrun. do 2 f_equal. apply list_eq. intros j. rewrite Hget.
  rewrite length_inserts in Hlen.
  case_bool_decide as Hj.
  - rewrite !list_lookup_inserts by (rewrite ?length_reverse; lia).
    rewrite reverse_lookup by lia. f_equal. lia.
  - destruct (decide (j < buffer)).
    + by rewrite !list_lookup_inserts_lt by lia.
    + by rewrite !list_lookup_inserts_ge by (rewrite ?length_reverse; lia).
Qed.
End RenderFacts.

(** ** The decimal routines *)

Section DecimalFacts.
Context (tg : Target).

Lemma length_zero_pad W ds :
  length (zero_pad W ds) = Z.to_nat W - length ds + length ds.
Proof. unfold zero_pad. by rewrite length_app, length_replicate. Qed.

(** Padding is added only when the digits are fewer than the width. *)
Lemma zero_pad_short W ds : (Z.of_nat (length ds) < W)%Z → length (zero_pad W ds) = Z.to_nat W.
Proof. intros H. rewrite length_zero_pad. lia. Qed.

Lemma zero_pad_long W ds : (W <= Z.of_nat (length ds))%Z → zero_pad W ds = ds.
Proof.
  intros H. unfold zero_pad.
  replace (Z.to_nat W - length ds) with 0 by lia. reflexivity.
Qed.

Lemma digits_loop_decimal buffer v buf :
  (0 <= v)%Z → buffer + length (decimal v) ≤ length buf →
  digits_loop tg (digits_fuel v) buffer v 0 buf =
    Value (length (decimal v), list_inserts buffer (reverse (decimal v)) buf).
Proof.
  intros Hv Hfit. unfold decimal in *. rewrite length_reverse in Hfit.
  rewrite reverse_involutive, length_reverse.
  pose proof (digits_fuel_enough v Hv) as Hfuel. unfold digits_fuel in *.
  rewrite digits_loop_spec by (rewrite ?Nat.add_0_r; done || lia).
  by rewrite Nat.add_0_r.
Qed.

(** Padding, sign and reversal, run on a buffer that holds the digits least
    significant first. *)
Lemma decimal_finish buffer W (negative : bool) digits buf :
  let out := (if negative then [chr "-"] else []) ++ zero_pad W digits in
  buffer + length out ≤ length buf →
  (let* num := pad_if_width buffer W (length digits) in
   let* num := (if negative
                then let* _ := store (buffer + num) (chr "-") in ret (S num)
                else ret num) in
   let* _ := swap_loop (S num) buffer num 0 in
   ret num) (list_inserts buffer (reverse digits) buf) =
    Value (length out, list_inserts buffer out buf).
Proof.
  intros out Hfit. subst out. rewrite length_app, length_zero_pad in Hfit.
  set (zeros := replicate (Z.to_nat W - length digits) (chr "0")).
  erewrite bind_value; cycle 1.
  { rewrite <- (length_reverse digits).
    apply pad_if_width_spec. rewrite length_inserts, length_reverse. lia. }
  rewrite length_reverse. fold zeros.
  replace (buffer + length digits) with (length (reverse digits) + buffer)
    by (rewrite length_reverse; lia).
  rewrite <- list_inserts_app_l.
  assert (length (reverse digits ++ zeros) = length digits + (Z.to_nat W - length digits))
    as Hlen by (rewrite length_app, length_reverse; unfold zeros; by rewrite length_replicate).
  destruct negative.
  - erewrite bind_value; cycle 1.
    { erewrite bind_value by (apply store_value; rewrite length_inserts; simpl in Hfit; lia).
      reflexivity. }
    rewrite <- Hlen, insert_inserts_snoc by (simpl in Hfit; lia).
    replace (S (length (reverse digits ++ zeros)))
      with (length ((reverse digits ++ zeros) ++ [chr "-"]))
      by (rewrite (length_app _ [_]); simpl; lia).
    erewrite bind_value
      by (apply swap_loop_spec; rewrite (length_app _ [_]), Hlen; simpl in *; lia).
    unfold ret. f_equal. f_equal.
    + rewrite !length_app, length_zero_pad, length_reverse. unfold zeros.
      rewrite length_replicate. simpl. lia.
    + f_equal. rewrite !reverse_app, reverse_involutive. unfold zeros.
      by rewrite reverse_replicate.
  - erewrite bind_value by reflexivity.
    rewrite <- Hlen.
    erewrite bind_value by (apply swap_loop_spec; rewrite Hlen; simpl in *; lia).
    unfold ret. f_equal. f_equal.
    + rewrite Hlen. cbn [app]. rewrite length_zero_pad. lia.
    + f_equal. rewrite reverse_app, reverse_involutive. unfold zeros.
      by rewrite reverse_replicate.
Qed.

Lemma formatArg_UnsignedDecimalInteger_spec buffer v W buf :
  (0 <= v)%Z →
  buffer + length (zero_pad W (decimal v)) ≤ length buf →
  formatArg_UnsignedDecimalInteger tg buffer v W buf =
    Value (length (zero_pad W (decimal v)),
           list_inserts buffer (zero_pad W (decimal v)) buf).
Proof.
  intros Hv Hfit. unfold formatArg_UnsignedDecimalInteger.
  pose proof (length_zero_pad W (decimal v)) as Hlen.
  erewrite bind_value by (apply digits_loop_decimal; [done|lia]).
  apply (decimal_finish buffer W false (decimal v) buf). exact Hfit.
Qed.

Lemma formatArg_SignedDecimalInteger_spec buffer ty v W buf :
  (- v < 2 ^ (8 * Z.of_nat (Nat.max (sizeof tg ty) (sizeof_int tg)) - 1))%Z →
  buffer + length (signed_decimal W v) ≤ length buf →
  formatArg_SignedDecimalInteger tg buffer ty v W buf =
    Value (length (signed_decimal W v), list_inserts buffer (signed_decimal W v) buf).
Proof.
  intros Hneg Hfit. unfold formatArg_SignedDecimalInteger, signed_decimal in *.
  pose proof (length_zero_pad W (decimal (Z.abs v))) as Hlen.
  rewrite length_app in Hfit.
  erewrite (bind_value _ _ buf (Z.abs v) buf); cycle 1.
  { destruct (Z.ltb_spec v 0).
    - unfold negate. destruct (Z.ltb_spec (- v)
        (2 ^ (8 * Z.of_nat (Nat.max (sizeof tg ty) (sizeof_int tg)) - 1))); [|lia].
      unfold ret. do 2 f_equal. lia.
    - unfold ret. do 2 f_equal. lia. }
  erewrite bind_value by (apply digits_loop_decimal; lia).
  apply (decimal_finish buffer W (v <? 0)%Z (decimal (Z.abs v)) buf).
  rewrite length_app. exact Hfit.
Qed.
End DecimalFacts.

(** ** The copying loops and the hexadecimal routine *)

Section CopyFacts.
Context (tg : Target).

Lemma copy_loop_spec fuel buffer src len i buf :
  len - i < fuel → len ≤ length src → buffer + i + (len - i) ≤ length buf →
  copy_loop fuel buffer src len i buf =
    Value (tt, list_inserts (buffer + i) (take (len - i) (drop i src)) buf).
Proof.
  revert i buf. induction fuel as [|fuel IH]; intros i buf Hfuel Hsrc Hfit; [lia|].
  cbn [copy_loop]. destruct (Nat.ltb_spec i len) as [Hlt|Hge].
  - destruct (lookup_lt_is_Some_2 src i ltac:(lia)) as [c Hc]. rewrite Hc.
    erewrite bind_value by (apply store_value; lia).
    rewrite IH by (rewrite ?length_insert; lia).
    replace (len - i) with (S (len - S i)) by lia.
    rewrite (drop_S _ _ _ Hc). cbn [take list_inserts].
    rewrite list_insert_inserts_lt by lia.
    replace (buffer + S i) with (S (buffer + i)) by lia. reflexivity.
  - replace (len - i) with 0 by lia. reflexivity.
Qed.

Lemma literal_loop_spec fuel str limit counterSource counterResult buf :
  limit - counterSource < fuel → limit ≤ length str →
  counterResult + (limit - counterSource) ≤ length buf →
  literal_loop fuel str limit counterSource counterResult buf =
    Value ((counterSource + (limit - counterSource),
            counterResult + (limit - counterSource)),
           list_inserts counterResult (literal_span str counterSource limit) buf).
Proof.
  unfold literal_span. revert counterSource counterResult buf.
  induction fuel as [|fuel IH]; intros cs cr buf Hfuel Hstr Hfit; [lia|].
  cbn [literal_loop]. destruct (Nat.ltb_spec cs limit) as [Hlt|Hge].
  - destruct (lookup_lt_is_Some_2 str cs ltac:(lia)) as [c Hc]. rewrite Hc.
    erewrite bind_value by (apply store_value; lia).
    rewrite IH by (rewrite ?length_insert; lia).
    replace (limit - cs) with (S (limit - S cs)) by lia.
    rewrite (drop_S _ _ _ Hc). cbn [take list_inserts].
    rewrite list_insert_inserts_lt by lia.
    do 2 f_equal. f_equal; lia.
  - replace (limit - cs) with 0 by lia. unfold ret. simpl.
    do 2 f_equal. f_equal; lia.
Qed.

Lemma hex_loop_spec fuel buffer bits arg len i buf :
  len - i < fuel → buffer + i + (len - i) ≤ length buf →
  hex_loop tg fuel buffer bits arg len i buf =
    Value (tt, list_inserts (buffer + i) (hex_at tg bits arg <$> seq i (len - i)) buf).
Proof.
  revert i buf. induction fuel as [|fuel IH]; intros i buf Hfuel Hfit; [lia|].
  cbn [hex_loop]. destruct (Nat.ltb_spec i len) as [Hlt|Hge].
  - erewrite bind_value by (apply store_value; lia).
    rewrite IH by (rewrite ?length_insert; lia).
    replace (len - i) with (S (len - S i)) by lia.
    cbn [seq fmap list_fmap list_inserts].
    rewrite list_insert_inserts_lt by lia.
    replace (buffer + S i) with (S (buffer + i)) by lia. reflexivity.
  - replace (len - i) with 0 by lia. reflexivity.
Qed.

Lemma hex_char_ascii val : (0 <= val < 16)%Z → (0 <= hex_char val < 128)%Z.
Proof.
  intros H. unfold hex_char. destruct (Z.ltb_spec val 10); chr_values; lia.
Qed.

(** The character the code computes for a nibble is its hexadecimal
    digit. *)
Lemma hex_char_digit_eq m : (0 <= m < 16)%Z → hex_char m = hex_digit m.
Proof.
  intros Hm.
  assert (m = 0 ∨ m = 1 ∨ m = 2 ∨ m = 3 ∨ m = 4 ∨ m = 5 ∨ m = 6 ∨ m = 7 ∨ m = 8
          ∨ m = 9 ∨ m = 10 ∨ m = 11 ∨ m = 12 ∨ m = 13 ∨ m = 14 ∨ m = 15)%Z as Hcases by lia.
  repeat (destruct Hcases as [-> | Hcases]); [..|subst m]; reflexivity.
Qed.

(** Shifting and masking selects the nibble counted from the most
    significant end. *)
Lemma hex_at_nibble bytes arg k :
  k < 2 * bytes →
  hex_at tg (8 * Z.of_nat bytes) arg (2 + k) =
    hex_digit ((arg / 16 ^ Z.of_nat (2 * bytes - 1 - k)) mod 16)%Z.
Proof.
  intros Hk. unfold hex_at.
  replace (8 * Z.of_nat bytes - (Z.of_nat (2 + k) - 1) * 4)%Z
    with (4 * Z.of_nat (2 * bytes - 1 - k))%Z by lia.
  rewrite Z.shiftr_div_pow2 by lia.
  rewrite Z.pow_mul_r by lia. change (2 ^ 4)%Z with 16%Z.
  change 15%Z with (Z.ones 4). rewrite Z.land_ones by lia.
  change (2 ^ 4)%Z with 16%Z.
  set (n := ((arg / 16 ^ Z.of_nat (2 * bytes - 1 - k)) mod 16)%Z).
  assert (0 <= n < 16)%Z as Hn by (apply Z.mod_pos_bound; lia).
  rewrite to_uchar_small by lia.
  rewrite to_char_ascii by apply hex_char_ascii, Hn.
  by apply hex_char_digit_eq.
Qed.

Lemma hex_at_nibbles bytes arg :
  hex_at tg (8 * Z.of_nat bytes) arg <$> seq 2 (2 * bytes) = hex_nibbles (2 * bytes) arg.
Proof.
  unfold hex_nibbles. apply list_eq. intros k. rewrite !list_lookup_fmap.
  destruct (decide (k < 2 * bytes)) as [Hk|Hk].
  - rewrite !lookup_seq_lt by lia. simpl. f_equal.
    apply (hex_at_nibble bytes arg k Hk).
  - by rewrite !lookup_seq_ge by lia.
Qed.

Lemma length_hexadecimal bytes v : length (hexadecimal bytes v) = 2 * bytes + 2.
Proof.
  unfold hexadecimal, hex_nibbles. rewrite length_app, length_fmap, length_seq.
  simpl. lia.
Qed.

Lemma formatArg_hex_spec buffer bytes arg buf :
  buffer + (2 * bytes + 2) ≤ length buf →
  formatArg_hex tg buffer bytes arg buf =
    Value (2 * bytes + 2, list_inserts buffer (hexadecimal bytes arg) buf).
Proof.
  intros Hfit. unfold formatArg_hex.
  erewrite bind_value by (apply store_value; lia).
  erewrite bind_value by (apply store_value; rewrite length_insert; lia).
  erewrite bind_value by (apply hex_loop_spec; rewrite ?length_insert; lia).
  unfold ret. do 2 f_equal.
  replace (2 * bytes + 2 - 2) with (2 * bytes) by lia.
  rewrite hex_at_nibbles. unfold hexadecimal. cbn [app list_inserts].
  rewrite !list_insert_inserts_lt by lia.
  replace (S (S buffer)) with (buffer + 2) by lia.
  replace (S buffer) with (buffer + 1) by lia.
  replace (buffer + 0) with buffer by lia.
  f_equal. apply list_insert_insert_ne. lia.
Qed.
End CopyFacts.

(** ** Every render routine stores its specified rendering *)

Section FormatArgFacts.
Context (tg : Target).

Lemma unsigned_nonneg ty v :
  is_unsigned_v tg ty = true → in_range tg ty v → (0 <= v)%Z.
Proof.
  unfold in_range. destruct ty as [[] bytes| | |body]; simpl; try done.
  - lia.
  - destruct (char_is_signed tg); simpl; [done|lia].
Qed.

Lemma formatArg_Character_spec buffer arg buf :
  buffer + 1 ≤ length buf →
  formatArg_Character buffer arg buf = Value (1, list_inserts buffer [arg] buf).
Proof.
  intros Hfit. unfold formatArg_Character.
  erewrite bind_value by (apply store_value; lia).
  unfold ret. cbn [list_inserts]. do 3 f_equal. lia.
Qed.

Lemma formatArg_StringOfCharacters_spec buffer body buf :
  buffer + length body ≤ length buf →
  formatArg_StringOfCharacters buffer (StringT body) buf =
    Value (length body, list_inserts buffer body buf).
Proof.
  intros Hfit. unfold formatArg_StringOfCharacters, Type_string, c_str.
  rewrite length_app. cbn [length].
  replace (length body + 1 - 1) with (length body) by lia.
  erewrite bind_value
    by (apply copy_loop_spec; rewrite ?length_app; simpl; lia).
  unfold ret. rewrite Nat.sub_0_r, drop_0, take_app_length, Nat.add_0_r.
  reflexivity.
Qed.

Lemma length_boolean_rendering v :
  length (boolean_rendering v) = if (v =? 0)%Z then 5 else 4.
Proof. unfold boolean_rendering. by destruct (v =? 0)%Z. Qed.

Lemma formatArg_Boolean_spec buffer arg buf :
  buffer + length (boolean_rendering arg) ≤ length buf →
  formatArg_Boolean buffer arg buf =
    Value (length (boolean_rendering arg), list_inserts buffer (boolean_rendering arg) buf).
Proof.
  rewrite length_boolean_rendering. intros Hfit.
  unfold formatArg_Boolean, boolean_rendering.
  destruct (arg =? 0)%Z; cbn [negb];
    (erewrite bind_value by (apply copy_loop_spec; simpl in *; lia));
    unfold ret; rewrite Nat.add_0_r; reflexivity.
Qed.

Lemma length_time_rendering v :
  length (time_rendering v) =
    length (decimal (v / 1000)%Z) + 1 + length (zero_pad 3 (decimal (v mod 1000)%Z)).
Proof. unfold time_rendering. rewrite !length_app. simpl. lia. Qed.

Lemma formatArg_Time_spec buffer arg buf :
  (0 <= arg)%Z →
  buffer + length (time_rendering arg) ≤ length buf →
  formatArg_Time tg buffer arg buf =
    Value (length (time_rendering arg), list_inserts buffer (time_rendering arg) buf).
Proof.
  intros Hv. rewrite length_time_rendering. intros Hfit.
  unfold formatArg_Time, time_rendering.
  rewrite Z.quot_div_nonneg, Z.rem_mod_nonneg by lia.
  set (seconds := decimal (arg / 1000)%Z) in *.
  set (millis := zero_pad 3 (decimal (arg mod 1000)%Z)) in *.
  assert (zero_pad 0 seconds = seconds) as Hpad by (apply zero_pad_long; lia).
  erewrite bind_value; cycle 1.
  { apply formatArg_UnsignedDecimalInteger_spec; [lia|].
    fold seconds. rewrite Hpad. lia. }
  fold seconds. rewrite Hpad.
  erewrite bind_value by (apply store_value; rewrite length_inserts; lia).
  rewrite insert_inserts_snoc by lia.
  erewrite bind_value; cycle 1.
  { apply formatArg_UnsignedDecimalInteger_spec; [lia|].
    fold millis. rewrite length_inserts. lia. }
  fold millis. unfold ret. f_equal. f_equal; [lia|].
  rewrite (app_assoc seconds [chr "."] millis).
  rewrite (list_inserts_app_l (seconds ++ [chr "."])).
  rewrite (length_app seconds). f_equal. simpl. lia.
Qed.

Lemma formatArg_spec entry a buffer buf :
  SpecCheck_valid tg (specifier entry) (arg_type a) = true →
  arg_defined tg a →
  buffer + length (rendering tg entry a) ≤ length buf →
  formatArg tg (specifier entry) buffer a (width entry) buf =
    Value (length (rendering tg entry a),
           list_inserts buffer (rendering tg entry a) buf).
Proof.
  intros Hvalid [Hrange Hneg]. unfold rendering, formatArg.
  destruct (specifier entry); simpl in Hvalid; try done; intros Hfit.
  - by apply formatArg_SignedDecimalInteger_spec.
  - apply formatArg_UnsignedDecimalInteger_spec; [|done].
    apply andb_true_iff in Hvalid as [Hu _]. eauto using unsigned_nonneg.
  - rewrite length_hexadecimal in *. by apply formatArg_hex_spec.
  - by apply formatArg_Character_spec.
  - destruct (arg_type a); try done. by apply formatArg_StringOfCharacters_spec.
  - rewrite length_hexadecimal in *. by apply formatArg_hex_spec.
  - apply formatArg_Time_spec; [|done].
    apply andb_true_iff in Hvalid as [Hu _].
    apply andb_true_iff in Hu as [Hu _]. eauto using unsigned_nonneg.
  - by apply formatArg_Boolean_spec.
Qed.
End FormatArgFacts.

(** ** The scanner *)

Section ScannerFacts.
Context (tg : Target).

Lemma char_at_lt str i : i < length str → str !! i = Some (char_at str i).
Proof.
  intros H. unfold char_at.
  destruct (lookup_lt_is_Some_2 str i H) as [c ->]. reflexivity.
Qed.

Lemma char_at_app_r l1 l2 i :
  length l1 ≤ i → char_at (l1 ++ l2) i = char_at l2 (i - length l1).
Proof. intros H. unfold char_at. by rewrite lookup_app_r. Qed.

Lemma char_at_middle l1 c l2 : char_at (l1 ++ c :: l2) (length l1) = c.
Proof. rewrite char_at_app_r, Nat.sub_diag by lia. reflexivity. Qed.

Lemma char_at_terminator body : char_at (c_str body) (length body) = 0%Z.
Proof. apply char_at_middle. Qed.

Lemma length_c_str body : length (c_str body) = S (length body).
Proof. unfold c_str. rewrite length_app. simpl. lia. Qed.

Lemma unsigned_modulus_pos : (0 < 2 ^ unsigned_bits tg)%Z.
Proof. apply Z.pow_pos_nonneg; unfold unsigned_bits; lia. Qed.

(** *** The digit loop *)

Lemma width_loop_index fuel str i w : i < (width_loop tg fuel str i w).1.
Proof.
  revert i w. induction fuel as [|fuel IH]; intros i w; cbn [width_loop]; [simpl; lia|].
  destruct (IsDigit (char_at str (S i))); [|simpl; lia].
  destruct ((chr "0" =? char_at str (S i)) && (0 =? w))%Z;
    match goal with |- _ < (width_loop _ _ _ _ ?w').1 => specialize (IH (S i) w') end; lia.
Qed.

(** The loop stops at the first character that is not a digit. *)
Lemma width_loop_stop fuel str i w t :
  i < t → IsDigit (char_at str t) = false → t - i ≤ fuel →
  (width_loop tg fuel str i w).1 ≤ t.
Proof.
  revert i w. induction fuel as [|fuel IH]; intros i w Hit Ht Hfuel; [lia|].
  cbn [width_loop].
  destruct (IsDigit (char_at str (S i))) eqn:Hd; [|simpl; lia].
  assert (S i < t) as Hlt.
  { destruct (decide (S i = t)) as [<-|]; [congruence|lia]. }
  destruct ((chr "0" =? char_at str (S i)) && (0 =? w))%Z; apply IH; done || lia.
Qed.

(** With that much fuel the loop ends on its condition: the character at
    the index it returns is not a digit. *)
Lemma width_loop_exits fuel str i w t :
  i < t → IsDigit (char_at str t) = false → t - i ≤ fuel →
  IsDigit (char_at str (width_loop tg fuel str i w).1) = false.
Proof.
  revert i w. induction fuel as [|fuel IH]; intros i w Hit Ht Hfuel; [lia|].
  cbn [width_loop].
  destruct (IsDigit (char_at str (S i))) eqn:Hd; [|done].
  assert (S i < t) as Hlt.
  { destruct (decide (S i = t)) as [<-|]; [congruence|lia]. }
  destruct ((chr "0" =? char_at str (S i)) && (0 =? w))%Z; apply IH; done || lia.
Qed.

Lemma fold_digits_mod ds a b :
  (a mod 2 ^ unsigned_bits tg = b mod 2 ^ unsigned_bits tg)%Z →
  (fold_left digits_step ds a mod 2 ^ unsigned_bits tg
   = fold_left digits_step ds b mod 2 ^ unsigned_bits tg)%Z.
Proof.
  revert a b. induction ds as [|d ds IH]; intros a b Hab; [done|].
  cbn [fold_left]. apply IH. unfold digits_step.
  rewrite (Z.add_mod (10 * a)), (Z.add_mod (10 * b)) by (pose proof unsigned_modulus_pos; lia).
  rewrite (Z.mul_mod 10 a), (Z.mul_mod 10 b) by (pose proof unsigned_modulus_pos; lia).
  by rewrite Hab.
Qed.

(** On a run of digits followed by another character the loop returns the
    index of that character and the value of the run, reduced to [unsigned]. *)
Lemma width_loop_run fuel pre ds k post i w :
  length pre = S i → Forall (fun c => IsDigit c = true) ds → IsDigit k = false →
  length ds < fuel → (0 <= w < 2 ^ unsigned_bits tg)%Z →
  width_loop tg fuel (pre ++ ds ++ k :: post) i w =
    (S i + length ds, (fold_left digits_step ds w mod 2 ^ unsigned_bits tg)%Z).
Proof.
  revert fuel pre i w.
  induction ds as [|d ds IH]; intros fuel pre i w Hpre Hds Hk Hfuel Hw;
    (destruct fuel as [|fuel]; [simpl in Hfuel; lia|]); cbn [width_loop].
  - cbn [app]. rewrite <- Hpre, char_at_middle, Hk. simpl.
    rewrite Z.mod_small by done. f_equal. lia.
  - apply Forall_cons in Hds as [Hd Hds].
    cbn [app]. rewrite <- Hpre, char_at_middle, Hd.
    replace (pre ++ d :: ds ++ k :: post) with ((pre ++ [d]) ++ ds ++ k :: post)
      by (by rewrite <- app_assoc).
    cbn [length] in Hfuel.
    destruct ((chr "0" =? d) && (0 =? w))%Z eqn:Hzero.
    + apply andb_true_iff in Hzero as [Hd0 Hw0].
      apply Z.eqb_eq in Hd0, Hw0. subst d w.
      rewrite Hpre, IH; [|rewrite length_app; simpl; lia|done..|lia|done].
      cbn [length fold_left]. f_equal. lia.
    + rewrite Hpre, IH; [|rewrite length_app; simpl; lia|done..|lia|].
      * cbn [length fold_left]. f_equal; [lia|].
        apply fold_digits_mod. unfold to_unsigned.
        rewrite Z.mod_mod by (pose proof unsigned_modulus_pos; lia). reflexivity.
      * apply Z.mod_pos_bound, unsigned_modulus_pos.
Qed.

(** *** One specifier *)

Lemma scan_specifier_position str i : position (scan_specifier tg str i).1 = i.
Proof. unfold scan_specifier. by destruct (width_loop _ _ _ _ _). Qed.

Lemma scan_specifier_size str i :
  size (scan_specifier tg str i).1 = (scan_specifier tg str i).2 - i + 1.
Proof. unfold scan_specifier. by destruct (width_loop _ _ _ _ _). Qed.

Lemma scan_specifier_kind str i :
  specifier (scan_specifier tg str i).1 =
    match_specifier (char_at str (scan_specifier tg str i).2).
Proof. unfold scan_specifier. by destruct (width_loop _ _ _ _ _). Qed.

Lemma scan_specifier_index str i : i < (scan_specifier tg str i).2.
Proof.
  unfold scan_specifier.
  pose proof (width_loop_index (length str) str i 0) as H.
  by destruct (width_loop _ _ _ _ _).
Qed.

(** In a terminated array the kind character of a specifier lies inside the
    array: the scan reads nothing past the terminator. *)
Lemma scan_specifier_in_bounds body i :
  i < length (c_str body) → char_at (c_str body) i = chr "%" →
  (scan_specifier tg (c_str body) i).2 ≤ length body.
Proof.
  intros Hi Hpercent. rewrite length_c_str in Hi.
  assert (i ≠ length body) as Hne.
  { intros ->. rewrite char_at_terminator in Hpercent. done. }
  unfold scan_specifier.
  pose proof (width_loop_stop (length (c_str body)) (c_str body) i 0 (length body)) as H.
  destruct (width_loop _ _ _ _ _) as [j w]. simpl in *.
  apply H; [lia|by rewrite char_at_terminator|rewrite length_c_str; lia].
Qed.

Lemma match_specifier_known c : match_specifier c ≠ Unknown → c ≠ 0%Z.
Proof. intros H ->. by apply H. Qed.

Lemma match_specifier_code s : s ≠ Unknown → match_specifier (Specifier_code s) = s.
Proof. by destruct s. Qed.

(** A specifier of a known kind ends before the terminator. *)
Lemma scan_specifier_known_in_bounds body i :
  i < length (c_str body) → char_at (c_str body) i = chr "%" →
  specifier (scan_specifier tg (c_str body) i).1 ≠ Unknown →
  (scan_specifier tg (c_str body) i).2 < length body.
Proof.
  intros Hi Hpercent Hknown.
  pose proof (scan_specifier_in_bounds body i Hi Hpercent) as Hle.
  rewrite scan_specifier_kind in Hknown. apply match_specifier_known in Hknown.
  destruct (decide ((scan_specifier tg (c_str body) i).2 = length body)) as [Heq|]; [|lia].
  rewrite Heq, char_at_terminator in Hknown. done.
Qed.
End ScannerFacts.

(** *** The table *)

Section TableFacts.
Context (tg : Target).

(** The scan stores in the table, one after the other, the entries it
    records. *)
Lemma scan_loop_entries fuel str i pos data :
  scan_loop tg fuel str i pos data =
    list_inserts pos (scan_entries tg fuel str i) data.
Proof.
  revert i pos data. induction fuel as [|fuel IH]; intros i pos data; [done|].
  cbn [scan_loop scan_entries].
  destruct (i <? length str); [|done].
  destruct (chr "%" =? char_at str i)%Z; [|apply IH].
  destruct (scan_specifier tg str i) as [entry j].
  rewrite IH. cbn [list_inserts].
  by rewrite list_insert_inserts_lt by lia.
Qed.

(** Fuel beyond the number of characters left changes nothing: the fuel
    [sizeof(S::string)] of [SpecifierTable] is enough. *)
Lemma scan_entries_fuel fuel fuel' str i :
  length str - i ≤ fuel → length str - i ≤ fuel' →
  scan_entries tg fuel str i = scan_entries tg fuel' str i.
Proof.
  revert fuel' i. induction fuel as [|fuel IH]; intros fuel' i Hf Hf'.
  - destruct fuel' as [|fuel']; [done|]. cbn [scan_entries].
    destruct (Nat.ltb_spec i (length str)); [lia|done].
  - cbn [scan_entries]. destruct (Nat.ltb_spec i (length str)) as [Hi|Hi].
    + destruct fuel' as [|fuel']; [lia|]. cbn [scan_entries].
      destruct (Nat.ltb_spec i (length str)); [|lia].
      destruct (chr "%" =? char_at str i)%Z; [|apply IH; lia].
      pose proof (scan_specifier_index tg str i) as Hj.
      destruct (scan_specifier tg str i) as [entry j]. simpl in Hj.
      f_equal. apply IH; lia.
    + destruct fuel' as [|fuel']; [done|]. cbn [scan_entries].
      destruct (Nat.ltb_spec i (length str)); [lia|done].
Qed.

Lemma scan_loop_fuel fuel str i pos data :
  length str - i ≤ fuel →
  scan_loop tg fuel str i pos data = scan_loop tg (length str - i) str i pos data.
Proof.
  intros Hf. rewrite !scan_loop_entries. f_equal. apply scan_entries_fuel; lia.
Qed.

Lemma scan_entries_skip str i :
  i < length str → char_at str i ≠ chr "%" →
  scan_entries tg (length str - i) str i = scan_entries tg (length str - S i) str (S i).
Proof.
  intros Hi Hc. replace (length str - i) with (S (length str - S i)) by lia.
  cbn [scan_entries]. destruct (Nat.ltb_spec i (length str)); [|lia].
  destruct (Z.eqb_spec (chr "%") (char_at str i)); [congruence|done].
Qed.

Lemma scan_entries_specifier str i :
  i < length str → char_at str i = chr "%" →
  scan_entries tg (length str - i) str i =
    (scan_specifier tg str i).1
    :: scan_entries tg (length str - S (scan_specifier tg str i).2) str
         (S (scan_specifier tg str i).2).
Proof.
  intros Hi Hc. replace (length str - i) with (S (length str - S i)) by lia.
  cbn [scan_entries]. destruct (Nat.ltb_spec i (length str)); [|lia].
  destruct (Z.eqb_spec (chr "%") (char_at str i)); [|congruence].
  pose proof (scan_specifier_index tg str i) as Hj.
  destruct (scan_specifier tg str i) as [entry j]. simpl in *.
  f_equal. apply scan_entries_fuel; lia.
Qed.

(** *** Counting *)

Lemma SpecifierQuantity_acc str n :
  fold_left (fun quantity s => if (chr "%" =? s)%Z then S quantity else quantity) str n
  = n + SpecifierQuantity str.
Proof.
  unfold SpecifierQuantity. revert n. induction str as [|c str IH]; intros n; [simpl; lia|].
  cbn [fold_left]. rewrite IH, (IH (if (chr "%" =? c)%Z then 1 else 0)).
  destruct (chr "%" =? c)%Z; lia.
Qed.

Lemma SpecifierQuantity_cons c str :
  SpecifierQuantity (c :: str) =
    (if (chr "%" =? c)%Z then 1 else 0) + SpecifierQuantity str.
Proof. unfold SpecifierQuantity at 1. cbn [fold_left]. apply SpecifierQuantity_acc. Qed.

Lemma SpecifierQuantity_drop str n : SpecifierQuantity (drop n str) ≤ SpecifierQuantity str.
Proof.
  revert n. induction str as [|c str IH]; intros [|n]; simpl; try lia.
  rewrite SpecifierQuantity_cons. specialize (IH n). lia.
Qed.

Lemma SpecifierQuantity_drop_le str a b :
  a ≤ b → SpecifierQuantity (drop b str) ≤ SpecifierQuantity (drop a str).
Proof.
  intros Hab. replace b with (a + (b - a)) by lia.
  rewrite <- drop_drop. apply SpecifierQuantity_drop.
Qed.

(** Every recorded entry consumes a [%] of its own. *)
Lemma scan_entries_length fuel str i :
  length (scan_entries tg fuel str i) ≤ SpecifierQuantity (drop i str).
Proof.
  revert i. induction fuel as [|fuel IH]; intros i; [simpl; lia|].
  cbn [scan_entries]. destruct (Nat.ltb_spec i (length str)) as [Hi|Hi]; [|simpl; lia].
  pose proof (SpecifierQuantity_drop_le str i (S i) ltac:(lia)).
  destruct (Z.eqb_spec (chr "%") (char_at str i)) as [Hc|Hc].
  - pose proof (scan_specifier_index tg str i) as Hj.
    destruct (scan_specifier tg str i) as [entry j]. simpl in Hj.
    rewrite (drop_S str _ i (char_at_lt str i Hi)), SpecifierQuantity_cons.
    rewrite <- Hc, Z.eqb_refl. cbn [length].
    specialize (IH (S j)).
    pose proof (SpecifierQuantity_drop_le str (S i) (S j) ltac:(lia)). lia.
  - specialize (IH (S i)). lia.
Qed.

(** *** Placement *)

Lemma well_placed_weaken str cursor cursor' entries :
  cursor' ≤ cursor → well_placed str cursor entries → well_placed str cursor' entries.
Proof.
  intros Hle H. destruct H.
  - constructor. lia.
  - constructor; done || lia.
Qed.

Lemma scan_entries_well_placed fuel body i :
  i ≤ length (c_str body) →
  well_placed (c_str body) i (scan_entries tg fuel (c_str body) i).
Proof.
  revert i. induction fuel as [|fuel IH]; intros i Hi; [by constructor|].
  cbn [scan_entries].
  destruct (Nat.ltb_spec i (length (c_str body))) as [Hlt|Hge]; [|by constructor].
  destruct (Z.eqb_spec (chr "%") (char_at (c_str body) i)) as [Hc|Hc].
  - symmetry in Hc.
    pose proof (scan_specifier_position tg (c_str body) i) as Hpos.
    pose proof (scan_specifier_size tg (c_str body) i) as Hsize.
    pose proof (scan_specifier_index tg (c_str body) i) as Hidx.
    pose proof (scan_specifier_in_bounds tg body i Hlt Hc) as Hin.
    pose proof (scan_specifier_known_in_bounds tg body i Hlt Hc) as Hknown.
    destruct (scan_specifier tg (c_str body) i) as [entry j]. simpl in *.
    rewrite length_c_str in *.
    assert (position entry + size entry = S j) as Hend by lia.
    constructor; rewrite ?Hend, ?length_c_str.
    + lia.
    + lia.
    + intros Hk. specialize (Hknown Hk). lia.
    + apply IH. lia.
  - apply (well_placed_weaken _ (S i)); [lia|]. apply IH. lia.
Qed.

(** *** The table of a call that links *)

Lemma SpecifierTable_inserts N str :
  SpecifierTable tg N str =
    list_inserts 0 (scan_entries tg (length str) str 0) (replicate N SpecifierData_init).
Proof. apply scan_loop_entries. Qed.

Lemma length_SpecifierTable N str : length (SpecifierTable tg N str) = N.
Proof. by rewrite SpecifierTable_inserts, length_inserts, length_replicate. Qed.

(** When every entry of the table has a kind, the table is exactly the list
    of the recorded entries. *)
Lemma SpecifierTable_entries str :
  forallb (fun d => formatArg_defined (specifier d))
          (SpecifierTable tg (SpecifierQuantity str) str) = true →
  SpecifierTable tg (SpecifierQuantity str) str = scan_entries tg (length str) str 0.
Proof.
  intros Hdef. rewrite SpecifierTable_inserts in *.
  set (entries := scan_entries tg (length str) str 0) in *.
  pose proof (scan_entries_length (length str) str 0) as Hlen.
  rewrite drop_0 in Hlen. fold entries in Hlen.
  destruct (decide (length entries = SpecifierQuantity str)) as [Heq|Hne].
  - rewrite <- (app_nil_r entries) at 1.
    apply list_inserts_0_l. by rewrite length_replicate.
  - exfalso. rewrite forallb_forall in Hdef.
    assert (In SpecifierData_init
              (list_inserts 0 entries (replicate (SpecifierQuantity str) SpecifierData_init)))
      as Hin.
    { apply list_elem_of_In, (list_elem_of_lookup_2 _ (length entries)).
      rewrite list_lookup_inserts_ge by lia.
      apply lookup_replicate_2. lia. }
    specialize (Hdef _ Hin). done.
Qed.
End TableFacts.

(** ** The render loop of [printf] *)

Section ParseFacts.
Context (tg : Target).

Lemma length_literal_span str from upto :
  upto ≤ length str → length (literal_span str from upto) = upto - from.
Proof. intros H. unfold literal_span. rewrite length_take, length_drop. lia. Qed.

Lemma literal_span_rest str from : literal_span str from (length str) = drop from str.
Proof. unfold literal_span. apply take_ge. rewrite length_drop. lia. Qed.

(** What the static assertions of [CheckSpecsTypes] establish: arguments
    and the last entries of the table match one to one. *)
Lemma CheckSpecsTypes_asserts seen todo First Rest sum :
  length todo = S (length Rest) →
  CheckSpecsTypes tg (seen ++ todo) First Rest = Some sum →
  Forall2 (fun entry ty => SpecCheck_static_assert tg (specifier entry) ty = true)
          todo (First :: Rest).
Proof.
  revert seen todo First sum.
  induction Rest as [|Second Rest IH]; intros seen todo First sum Hlen Hcheck;
    (destruct todo as [|entry todo]; [simpl in Hlen; lia|]);
    cbn [CheckSpecsTypes] in Hcheck;
    rewrite length_app in Hcheck; cbn [length] in Hcheck, Hlen;
    match type of Hcheck with
    | context [(seen ++ entry :: todo) !! ?n] =>
        replace n with (length seen) in Hcheck by lia
    end;
    rewrite list_lookup_middle in Hcheck by done;
    destruct (SpecCheck_static_assert tg (specifier entry) First) eqn:Hassert; try done.
  - destruct todo; [|simpl in Hlen; lia]. by repeat constructor.
  - destruct (CheckSpecsTypes tg (seen ++ entry :: todo) Second Rest) as [sum'|] eqn:Hrest;
      [|done].
    constructor; [done|].
    apply (IH (seen ++ [entry]) todo Second sum'); [lia|].
    by rewrite <- app_assoc.
Qed.

(** One round of [parse]: the literal up to the entry, then the argument. *)
Lemma parse_step str table entry first rest counterSource counterResult buf :
  table !! (length table - (length rest + 1)) = Some entry →
  counterSource ≤ position entry → position entry ≤ length str →
  SpecCheck_valid tg (specifier entry) (arg_type first) = true →
  arg_defined tg first →
  let out := literal_span str counterSource (position entry) ++ rendering tg entry first in
  counterResult + length out ≤ length buf →
  parse tg str table first rest counterSource counterResult buf =
    match rest with
    | first' :: rest' =>
        parse tg str table first' rest' (position entry + size entry)
              (counterResult + length out)
    | [] =>
        literal_loop (S (length str)) str (length str) (position entry + size entry)
                     (counterResult + length out)
    end (list_inserts counterResult out buf).
Proof.
  intros Hentry Hcs Hpos Hvalid Hdef out Hfit. subst out.
  rewrite length_app, length_literal_span in Hfit by done.
  destruct rest as [|first' rest']; cbn [parse]; cbn [length] in Hentry |- *;
    rewrite Hentry;
    (erewrite bind_value by (apply literal_loop_spec; lia));
    cbv beta iota;
    (erewrite bind_value
       by (apply formatArg_spec; [done..|rewrite length_inserts; lia]));
    rewrite length_app, length_literal_span by done;
    rewrite list_inserts_app_l, length_literal_span by done;
    replace (counterSource + (position entry - counterSource)) with (position entry) by lia;
    replace (position entry - counterSource + counterResult)
      with (counterResult + (position entry - counterSource)) by lia;
    rewrite Nat.add_assoc; reflexivity.
Qed.

(** [parse] stores the specified output and returns its length. *)
Lemma parse_spec str seen todo first rest counterSource counterResult buf :
  length todo = S (length rest) →
  well_placed str counterSource todo →
  Forall2 (fun entry a => SpecCheck_valid tg (specifier entry) (arg_type a) = true)
          todo (first :: rest) →
  Forall (arg_defined tg) (first :: rest) →
  let out := rendered tg str todo (first :: rest) counterSource in
  counterResult + length out ≤ length buf →
  parse tg str (seen ++ todo) first rest counterSource counterResult buf =
    Value ((length str, counterResult + length out),
           list_inserts counterResult out buf).
Proof.
  revert seen todo first counterSource counterResult buf.
  induction rest as [|second rest IH];
    intros seen todo first cs cr buf Hlen Hplaced Hvalid Hdef out Hfit; subst out;
    (destruct todo as [|entry todo]; [simpl in Hlen; lia|]);
    apply Forall2_cons in Hvalid as [Hv Hvalid];
    apply Forall_cons in Hdef as [Hd Hdef];
    inversion Hplaced as [|? ? ? Hcs Hend Hknown Hnext]; subst;
    cbn [rendered] in Hfit |- *; rewrite !length_app in Hfit;
    (rewrite (parse_step str _ entry);
     [|rewrite length_app; cbn [length] in *;
       replace (length seen + S (length todo) - (_ + 1)) with (length seen) by lia;
       by apply list_lookup_middle
      |lia|lia|done|done|rewrite length_app; lia]).
  - destruct todo; [|simpl in Hlen; lia]. cbn [rendered] in *.
    inversion Hnext; subst.
    rewrite length_drop in Hfit.
    rewrite literal_loop_spec; [|lia|lia|rewrite length_inserts, length_app; lia].
    rewrite literal_span_rest.
    replace (position entry + size entry + (length str - (position entry + size entry)))
      with (length str) by lia.
    f_equal. f_equal.
    + f_equal. rewrite !length_app, length_drop. lia.
    + rewrite (app_assoc _ _ (drop _ str)), (list_inserts_app_l (_ ++ _)).
      f_equal. lia.
  - replace (seen ++ entry :: todo) with ((seen ++ [entry]) ++ todo)
      by (by rewrite <- app_assoc).
    rewrite IH; [| simpl in *; lia | done | done | done
                 | rewrite length_inserts, length_app; lia].
    f_equal. f_equal.
    + f_equal. rewrite !length_app. lia.
    + rewrite (app_assoc _ _ (rendered _ _ _ _ _)), (list_inserts_app_l (_ ++ _)).
      f_equal. lia.
Qed.
End ParseFacts.

(** ** Specifier occurrences and the table *)

Section OccurrenceFacts.
Context (tg : Target).

Lemma reaches_entries str i pos :
  scan_reaches tg str i pos →
  ∃ recorded, length recorded = pos
    ∧ scan_entries tg (length str) str 0
      = recorded ++ scan_entries tg (length str - i) str i.
Proof.
  induction 1 as [|i pos _ (recorded & Hlen & Heq) Hi Hc|i pos _ (recorded & Hlen & Heq) Hi Hc].
  - exists []. by rewrite Nat.sub_0_r.
  - exists recorded. split; [done|]. by rewrite Heq, scan_entries_skip.
  - exists (recorded ++ [(scan_specifier tg str i).1]).
    split; [rewrite length_app; simpl; lia|].
    by rewrite Heq, scan_entries_specifier, <- app_assoc.
Qed.

(** The entry recorded for a [%] the scan arrives at is the one the table
    holds at the end. *)
Lemma reaches_table str i pos :
  scan_reaches tg str i pos → i < length str → char_at str i = chr "%" →
  SpecifierTable tg (SpecifierQuantity str) str !! pos = Some (scan_specifier tg str i).1.
Proof.
  intros Hreach Hi Hc.
  destruct (reaches_entries str i pos Hreach) as (recorded & Hlen & Heq).
  rewrite scan_entries_specifier in Heq by done.
  pose proof (scan_entries_length tg (length str) str 0) as Hcount.
  rewrite drop_0, Heq, length_app in Hcount. cbn [length] in Hcount.
  rewrite SpecifierTable_inserts, Heq.
  rewrite list_lookup_inserts
    by (rewrite ?length_app, ?length_replicate; cbn [length]; lia).
  rewrite Nat.sub_0_r, <- Hlen. apply list_lookup_middle. done.
Qed.

Lemma fold_digits_nonneg ds acc :
  Forall (fun c => IsDigit c = true) ds → (0 <= acc)%Z →
  (0 <= fold_left digits_step ds acc)%Z.
Proof.
  intros Hds. revert acc.
  induction Hds as [|d ds Hd _ IH]; intros acc Hacc; [done|].
  cbn [fold_left]. apply IH. apply IsDigit_spec in Hd. unfold digits_step. lia.
Qed.

Lemma decimal_value_nonneg ds :
  Forall (fun c => IsDigit c = true) ds → (0 <= decimal_value ds)%Z.
Proof. intros Hds. by apply fold_digits_nonneg. Qed.

(** What the scan records for an occurrence. *)
Lemma scan_specifier_run pre ds k post :
  Forall (fun c => IsDigit c = true) ds → IsDigit k = false →
  scan_specifier tg (pre ++ chr "%" :: ds ++ k :: post) (length pre) =
    ({| specifier := match_specifier k;
        width := (decimal_value ds mod 2 ^ unsigned_bits tg)%Z;
        position := length pre;
        size := length ds + 2 |},
     length pre + 1 + length ds).
Proof.
  intros Hds Hk. unfold scan_specifier.
  set (str := pre ++ chr "%" :: ds ++ k :: post).
  assert (str = (pre ++ [chr "%"]) ++ ds ++ k :: post) as Hstr
    by (unfold str; by rewrite <- app_assoc).
  assert (length ds < length str) as Hfuel
    by (unfold str; rewrite !length_app; cbn [length]; rewrite length_app; simpl; lia).
  pose proof (unsigned_modulus_pos tg) as HM.
  rewrite Hstr at 2.
  rewrite (width_loop_run tg (length str) (pre ++ [chr "%"]) ds k post (length pre) 0);
    [|rewrite length_app; simpl; lia|done|done|done|lia].
  assert (char_at str (S (length pre) + length ds) = k) as ->.
  { rewrite Hstr, app_assoc.
    replace (S (length pre) + length ds) with (length ((pre ++ [chr "%"]) ++ ds))
      by (rewrite !length_app; simpl; lia).
    apply char_at_middle. }
  f_equal; [|lia]. f_equal. lia.
Qed.

Lemma occurrence_table str pos pre ds k post :
  specifier_occurrence tg str pos pre ds k post →
  SpecifierTable tg (SpecifierQuantity str) str !! pos =
    Some {| specifier := match_specifier k;
            width := (decimal_value ds mod 2 ^ unsigned_bits tg)%Z;
            position := length pre;
            size := length ds + 2 |}.
Proof.
  intros (Hstr & Hds & Hk & Hreach).
  rewrite (reaches_table str (length pre) pos Hreach).
  - by rewrite Hstr, scan_specifier_run.
  - rewrite Hstr, length_app. simpl. lia.
  - rewrite Hstr. apply char_at_middle.
Qed.

(** The scan arrives at the first [%] of a literal. *)
Lemma reaches_first str i :
  i ≤ length str → (∀ j, j < i → char_at str j ≠ chr "%") → scan_reaches tg str i 0.
Proof.
  induction i as [|i IH]; intros Hi Hno; [constructor|].
  apply reaches_skip; [apply IH; [lia|intros j Hj; apply Hno; lia]|lia|apply Hno; lia].
Qed.

(** *** Building *)

Lemma printf_build_inv str First Rest table capacity :
  printf_build tg str (First :: Rest) = Built (table, capacity) →
  table = SpecifierTable tg (SpecifierQuantity str) str
  ∧ length table = S (length Rest)
  ∧ checkWidth table = true
  ∧ (∃ sum, CheckSpecsTypes tg table First Rest = Some sum ∧ capacity = sum + length str)
  ∧ forallb (fun d => formatArg_defined (specifier d)) table = true.
Proof.
  unfold printf_build, printf_static.
  destruct (Nat.eqb_spec (length (First :: Rest)) (SpecifierQuantity str)) as [Hq|]; [|done].
  set (table' := SpecifierTable tg (SpecifierQuantity str) str).
  destruct (checkWidth table') eqn:Hw; [|done].
  destruct (CheckSpecsTypes tg table' First Rest) as [sum|] eqn:Hsum; [|done].
  destruct (forallb _ table') eqn:Hdef; [|done].
  intros [= <- <-]. repeat split; try done.
  - unfold table'. rewrite length_SpecifierTable, <- Hq. done.
  - by exists sum.
Qed.

Lemma static_assert_valid sp ty :
  SpecCheck_static_assert tg sp ty = true → formatArg_defined sp = true →
  SpecCheck_valid tg sp ty = true.
Proof. by destruct sp. Qed.

Lemma Forall2_with_left {A B} (P : A → B → Prop) (Q : A → Prop) l k :
  Forall2 P l k → Forall Q l → Forall2 (fun x y => P x y ∧ Q x) l k.
Proof.
  induction 1 as [|x y l k HP _ IH]; intros HQ; [constructor|].
  apply Forall_cons in HQ as [Hx HQ]. constructor; [done|]. by apply IH.
Qed.

(** A call that builds and whose arguments are defined stores the specified
    output at the start of the buffer, hands the buffer to the sink and
    returns the length of the output. *)
Lemma printf_rendered body first rest stack sink table capacity :
  printf_build tg (c_str body) (arg_type <$> first :: rest) = Built (table, capacity) →
  Forall (arg_defined tg) (first :: rest) →
  let out := rendered tg (c_str body) table (first :: rest) 0 in
  length out ≤ capacity →
  well_placed (c_str body) 0 table
  ∧ printf tg (c_str body) (first :: rest) stack sink =
      Built (Value (length out,
                    sink ++ [list_inserts 0 out (uninitialised stack capacity)])).
Proof.
  intros Hbuild Hdef out Hfit. unfold printf. rewrite Hbuild. cbn [Build_map printf_run].
  cbn [fmap list_fmap] in Hbuild.
  apply printf_build_inv in Hbuild as (Htable & Hlen & _ & (sum & Hsum & _) & Hlink).
  rewrite length_fmap in Hlen.
  assert (well_placed (c_str body) 0 table) as Hplaced.
  { rewrite Htable, SpecifierTable_entries by (by rewrite <- Htable).
    apply scan_entries_well_placed. lia. }
  split; [done|].
  rewrite (parse_spec tg (c_str body) [] table first rest 0 0); try done.
  - apply (CheckSpecsTypes_asserts tg [] table) in Hsum;
      [|by rewrite length_fmap].
    change (arg_type first :: (arg_type <$> rest)) with (arg_type <$> first :: rest) in Hsum.
    apply Forall2_fmap_r in Hsum.
    assert (Forall (fun d => formatArg_defined (specifier d) = true) table) as Hall.
    { apply List.Forall_forall. by rewrite <- forallb_forall. }
    pose proof (Forall2_with_left _ _ _ _ Hsum Hall) as Hboth.
    eapply Forall2_impl; [exact Hboth|].
    intros entry a [Ha Hl]. by apply static_assert_valid.
  - unfold uninitialised. rewrite length_fmap, length_seq. exact Hfit.
Qed.
End OccurrenceFacts.

(** ** Further facts used by the claims *)

Lemma take_inserts_0 (out buf : list Z) :
  length out ≤ length buf → take (length out) (list_inserts 0 out buf) = out.
Proof.
  intros Hfit. rewrite <- (take_drop (length out) buf) at 1.
  rewrite list_inserts_0_r by (rewrite length_take; lia).
  apply take_app_length.
Qed.

Lemma last_drop (str : list Z) cursor : cursor < length str → last (drop cursor str) = last str.
Proof.
  intros Hc. rewrite !last_lookup, lookup_drop, length_drop. f_equal. lia.
Qed.

(** The output of a call whose entries all have a kind ends with the last
    byte of the literal, its terminator. *)
Lemma rendered_last tg str table args cursor x :
  well_placed str cursor table →
  Forall (fun d => formatArg_defined (specifier d) = true) table →
  cursor < length str → last str = Some x →
  last (rendered tg str table args cursor) = Some x.
Proof.
  intros Hplaced. revert args.
  induction Hplaced as [cursor Hc|cursor entry entries Hcs Hend Hknown Hnext IH];
    intros args Hdef Hlt Hlast.
  - destruct args; cbn [rendered]; by rewrite last_drop.
  - destruct args as [|a args]; cbn [rendered]; [by rewrite last_drop|].
    apply Forall_cons in Hdef as [Hd Hdef].
    rewrite !last_app, IH; [done|done| |done].
    apply Hknown. by destruct (specifier entry).
Qed.

Lemma hex_digit_in m : (0 <= m < 16)%Z → hex_digit m ∈ hex_digits.
Proof.
  intros Hm. unfold hex_digit.
  destruct (lookup_lt_is_Some_2 hex_digits (Z.to_nat m)) as [c Hc];
    [change (length hex_digits) with 16; lia|].
  rewrite Hc. by apply list_elem_of_lookup_2 in Hc.
Qed.

Lemma length_hex_nibbles n v : length (hex_nibbles n v) = n.
Proof. unfold hex_nibbles. by rewrite length_fmap, length_seq. Qed.

(** The digit at each place is the one the table of the sixteen digits
    holds for the nibble of that place. *)
Lemma lookup_hex_nibbles n v k :
  k < n →
  hex_nibbles n v !! k = hex_digits !! Z.to_nat ((v / 16 ^ Z.of_nat (n - 1 - k)) mod 16)%Z.
Proof.
  intros Hk. unfold hex_nibbles. rewrite list_lookup_fmap, lookup_seq_lt by done.
  cbn [fmap option_fmap option_map Nat.add]. unfold hex_digit.
  set (m := ((v / 16 ^ Z.of_nat (n - 1 - k)) mod 16)%Z).
  assert (0 <= m < 16)%Z as Hm by (apply Z.mod_pos_bound; lia).
  destruct (lookup_lt_is_Some_2 hex_digits (Z.to_nat m)) as [c Hc];
    [change (length hex_digits) with 16; lia|].
  by rewrite Hc.
Qed.

Lemma hex_nibbles_digits n v : Forall (fun c => c ∈ hex_digits) (hex_nibbles n v).
Proof.
  unfold hex_nibbles. apply Forall_fmap, Forall_forall. intros k _.
  apply hex_digit_in. apply Z.mod_pos_bound. lia.
Qed.

Lemma defined_known table :
  forallb (fun d => formatArg_defined (specifier d)) table = true →
  Forall (fun d => specifier d ≠ Unknown) table.
Proof.
  intros Hdef. apply List.Forall_forall. rewrite forallb_forall in Hdef.
  intros d Hd Hu. specialize (Hdef d Hd). by rewrite Hu in Hdef.
Qed.




Lemma length_decimal_le n v :
  (0 <= v < 10 ^ Z.of_nat (S n))%Z → length (decimal v) ≤ S n.
Proof.
  revert v. induction n as [|n IH]; intros v Hv; rewrite decimal_step by lia.
  - change (10 ^ Z.of_nat 1)%Z with 10%Z in Hv.
    destruct (Z.eqb_spec (v / 10) 0); [simpl; lia|lia].
  - rewrite length_app. cbn [length].
    destruct (Z.eqb_spec (v / 10) 0); [simpl; lia|].
    assert (length (decimal (v / 10)) ≤ S n); [|lia].
    apply IH. split; [lia|]. apply Z.div_lt_upper_bound; [lia|].
    rewrite <- Z.pow_succ_r by lia. rewrite <- Nat2Z.inj_succ. lia.
Qed.

Lemma match_specifier_unknown k :
  k ∉ Specifier_code <$> specifiers → match_specifier k = Unknown.
Proof.
  intros Hk. unfold match_specifier, specifiers in *. cbn [fmap list_fmap] in Hk.
  cbn [fold_left].
  repeat match goal with
         | |- context [(?c =? k)%Z] =>
             destruct (Z.eqb_spec c k) as [<-|];
             [exfalso; apply Hk; repeat constructor|]
         end.
  reflexivity.
Qed.

(** ** When the output fits the planned buffer

    The plan covers the argument, not the width: a call whose widths do not
    exceed the digits planned for their arguments stays inside the buffer. *)

Lemma pow2_le_pow10 bytes :
  (2 ^ (8 * Z.of_nat bytes) <= 10 ^ Z.of_nat (digits_bound bytes))%Z.
Proof.
  unfold digits_bound.
  assert (bytes = 2 * (bytes / 2) + bytes mod 2) as Hsplit by lia.
  set (q := bytes / 2) in *. set (r := bytes mod 2) in *.
  assert (r < 2) as Hr by (unfold r; lia).
  replace (8 * Z.of_nat bytes)%Z with (16 * Z.of_nat q + 8 * Z.of_nat r)%Z by lia.
  replace (Z.of_nat (3 * bytes - q)) with (5 * Z.of_nat q + 3 * Z.of_nat r)%Z by lia.
  rewrite !Z.pow_add_r, !Z.pow_mul_r by lia.
  apply Z.mul_le_mono_nonneg.
  - apply Z.pow_nonneg. lia.
  - apply Z.pow_le_mono_l. simpl. lia.
  - apply Z.pow_nonneg. lia.
  - apply Z.pow_le_mono_l. simpl. lia.
Qed.

Lemma length_decimal_bound bytes v :
  0 < bytes → (0 <= v < 2 ^ (8 * Z.of_nat bytes))%Z →
  length (decimal v) ≤ digits_bound bytes.
Proof.
  intros Hbytes Hv. pose proof (pow2_le_pow10 bytes) as Hpow.
  destruct (digits_bound bytes) as [|n] eqn:Hn; [unfold digits_bound in Hn; lia|].
  apply length_decimal_le. lia.
Qed.

Lemma length_millis v : (0 <= v)%Z → length (zero_pad 3 (decimal (v mod 1000)%Z)) = 3.
Proof.
  intros Hv. pose proof (length_decimal_le 2 (v mod 1000)%Z) as Hle.
  change (10 ^ Z.of_nat 3)%Z with 1000%Z in Hle.
  rewrite length_zero_pad. lia.
Qed.

Section FitFacts.
Context (tg : Target).

(** No rendering is longer than the length planned for it, the width being
    within the digits planned. *)
Lemma rendering_bound entry a :
  SpecCheck_valid tg (specifier entry) (arg_type a) = true →
  in_range tg (arg_type a) (arg_value a) →
  0 < sizeof tg (arg_type a) →
  (width entry <= Z.of_nat (digits_bound (sizeof tg (arg_type a))))%Z →
  length (rendering tg entry a) ≤ SpecCheck_length tg (specifier entry) (arg_type a).
Proof.
  intros Hvalid Hrange Hsize Hwidth. unfold rendering.
  destruct (specifier entry); cbn [SpecCheck_valid SpecCheck_length] in *; try done.
  - apply andb_true_iff in Hvalid as [Hs _].
    assert (- 2 ^ (8 * Z.of_nat (sizeof tg (arg_type a)) - 1) <= arg_value a
            < 2 ^ (8 * Z.of_nat (sizeof tg (arg_type a)) - 1))%Z as Hv.
    { unfold in_range in Hrange. rewrite Hs in Hrange. by destruct (arg_type a). }
    assert (2 ^ (8 * Z.of_nat (sizeof tg (arg_type a)) - 1)
            < 2 ^ (8 * Z.of_nat (sizeof tg (arg_type a))))%Z as Hpow
      by (apply Z.pow_lt_mono_r; lia).
    pose proof (length_decimal_bound (sizeof tg (arg_type a)) (Z.abs (arg_value a)) Hsize
                  ltac:(lia)) as Hlen.
    unfold signed_decimal, digits_bound in *. rewrite length_app, length_zero_pad.
    destruct (arg_value a <? 0)%Z; cbn [length]; lia.
  - apply andb_true_iff in Hvalid as [Hu _].
    pose proof (unsigned_nonneg tg _ _ Hu Hrange) as Hv.
    assert (arg_value a < 2 ^ (8 * Z.of_nat (sizeof tg (arg_type a))))%Z as Hlt.
    { unfold in_range, is_unsigned_v, is_signed_v in *.
      destruct (arg_type a) as [[] ?| | |]; try done; simpl in *; try lia.
      destruct (char_is_signed tg); [done|lia]. }
    pose proof (length_decimal_bound (sizeof tg (arg_type a)) (arg_value a) Hsize
                  ltac:(lia)) as Hlen.
    unfold digits_bound in *. rewrite length_zero_pad. lia.
  - rewrite length_hexadecimal. lia.
  - destruct (arg_type a); try done. unfold Type_string. rewrite length_c_str. lia.
  - rewrite length_hexadecimal. lia.
  - apply andb_true_iff in Hvalid as [Hu _]. apply andb_true_iff in Hu as [Hu _].
    pose proof (unsigned_nonneg tg _ _ Hu Hrange) as Hv.
    assert (arg_value a < 2 ^ (8 * Z.of_nat (sizeof tg (arg_type a))))%Z as Hlt.
    { unfold in_range, is_unsigned_v, is_signed_v in *.
      destruct (arg_type a) as [[] ?| | |]; try done; simpl in *; try lia.
      destruct (char_is_signed tg); [done|lia]. }
    pose proof (length_decimal_bound (sizeof tg (arg_type a)) (arg_value a / 1000)%Z Hsize
                  ltac:(lia)) as Hlen.
    rewrite length_time_rendering, length_millis by done.
    unfold digits_bound in *. lia.
  - rewrite length_boolean_rendering.
    change (length (literal "FALSE")) with 6. destruct (arg_value a =? 0)%Z; lia.
Qed.

Lemma CheckSpecsTypes_planned seen todo First Rest sum :
  length todo = S (length Rest) →
  CheckSpecsTypes tg (seen ++ todo) First Rest = Some sum →
  sum = planned tg todo (First :: Rest).
Proof.
  revert seen todo First sum.
  induction Rest as [|Second Rest IH]; intros seen todo First sum Hlen Hcheck;
    (destruct todo as [|entry todo]; [simpl in Hlen; lia|]);
    cbn [CheckSpecsTypes] in Hcheck;
    rewrite length_app in Hcheck; cbn [length] in Hcheck, Hlen;
    match type of Hcheck with
    | context [(seen ++ entry :: todo) !! ?n] =>
        replace n with (length seen) in Hcheck by lia
    end;
    rewrite list_lookup_middle in Hcheck by reflexivity;
    destruct (SpecCheck_static_assert tg (specifier entry) First); try discriminate.
  - destruct todo; [|simpl in Hlen; lia]. injection Hcheck as <-. simpl. lia.
  - destruct (CheckSpecsTypes tg (seen ++ entry :: todo) Second Rest) as [sum'|] eqn:Hrest;
      [|discriminate].
    injection Hcheck as <-. cbn [planned].
    rewrite (IH (seen ++ [entry]) todo Second sum'); [lia|lia|].
    by rewrite <- app_assoc.
Qed.

Lemma rendered_length_le str table args cursor :
  well_placed str cursor table →
  Forall2 (fun entry a =>
             length (rendering tg entry a) ≤ SpecCheck_length tg (specifier entry) (arg_type a))
          table args →
  length (rendered tg str table args cursor)
  ≤ length str - cursor + planned tg table (arg_type <$> args).
Proof.
  intros Hplaced. revert args.
  induction Hplaced as [cursor Hc|cursor entry entries Hcs Hend Hknown Hnext IH];
    intros args Hall.
  - destruct args; cbn [rendered]; rewrite length_drop; lia.
  - inversion Hall as [|? a ? args' Ha Hrest]; subst.
    cbn [rendered planned fmap list_fmap]. rewrite !length_app, length_literal_span by lia.
    specialize (IH args' Hrest). lia.
Qed.

(** A call that builds, with arguments in range and every width within the
    digits planned for its argument, has an output that fits the planned
    capacity. *)
Lemma printf_fits body first rest table capacity :
  printf_build tg (c_str body) (arg_type <$> first :: rest) = Built (table, capacity) →
  Forall (fun a => in_range tg (arg_type a) (arg_value a) ∧ 0 < sizeof tg (arg_type a))
         (first :: rest) →
  Forall2 (fun entry a =>
             (width entry <= Z.of_nat (digits_bound (sizeof tg (arg_type a))))%Z)
          table (first :: rest) →
  length (rendered tg (c_str body) table (first :: rest) 0) ≤ capacity.
Proof.
  intros Hbuild Hargs Hwidths. cbn [fmap list_fmap] in Hbuild.
  apply printf_build_inv in Hbuild as (Htable & Hlen & _ & (sum & Hsum & ->) & Hlink).
  rewrite length_fmap in Hlen.
  assert (well_placed (c_str body) 0 table) as Hplaced.
  { rewrite Htable, SpecifierTable_entries by (by rewrite <- Htable).
    apply scan_entries_well_placed. lia. }
  assert (length table = S (length (arg_type <$> rest))) as Hlen'
    by (by rewrite length_fmap).
  pose proof (CheckSpecsTypes_asserts tg [] table _ _ sum Hlen' Hsum) as Hasserts.
  apply (CheckSpecsTypes_planned [] table) in Hsum; [|done].
  change (arg_type first :: (arg_type <$> rest)) with (arg_type <$> first :: rest)
    in Hsum, Hasserts.
  apply Forall2_fmap_r in Hasserts.
  assert (Forall (fun d => formatArg_defined (specifier d) = true) table) as Hall.
  { apply List.Forall_forall. by rewrite <- forallb_forall. }
  pose proof (rendered_length_le (c_str body) table (first :: rest) 0 Hplaced) as Hle.
  rewrite Nat.sub_0_r, <- Hsum in Hle. rewrite (Nat.add_comm sum). apply Hle.
  clear -Hargs Hwidths Hasserts Hall.
  revert Hargs Hall Hasserts.
  induction Hwidths as [|entry a table args Hw _ IH]; intros Hargs Hall Hasserts;
    [constructor|].
  apply Forall_cons in Hargs as [[Hr Hs] Hargs].
  apply Forall_cons in Hall as [Hd Hall].
  apply Forall2_cons in Hasserts as [Ha Hasserts].
  constructor; [|by apply IH].
  apply rendering_bound; try done. by apply static_assert_valid.
Qed.
End FitFacts.

(** Such a call returns, and what it returns is at most the capacity. *)
Lemma printf_succeeds tg body first rest stack sink table capacity :
  printf_build tg (c_str body) (arg_type <$> first :: rest) = Built (table, capacity) →
  Forall (fun a => arg_defined tg a ∧ 0 < sizeof tg (arg_type a)) (first :: rest) →
  Forall2 (fun entry a =>
             (width entry <= Z.of_nat (digits_bound (sizeof tg (arg_type a))))%Z)
          table (first :: rest) →
  ∃ n buffer,
    printf tg (c_str body) (first :: rest) stack sink = Built (Value (n, sink ++ [buffer]))
    ∧ n ≤ capacity ∧ length buffer = capacity.
Proof.
  intros Hbuild Hargs Hwidths.
  assert (Forall (arg_defined tg) (first :: rest)) as Hdef
    by (eapply Forall_impl; [exact Hargs|by intros a [? ?]]).
  assert (length (rendered tg (c_str body) table (first :: rest) 0) ≤ capacity) as Hfit.
  { apply (printf_fits tg body first rest table capacity Hbuild); [|done].
    eapply Forall_impl; [exact Hargs|]. by intros a [[? ?] ?]. }
  destruct (printf_rendered tg body first rest stack sink table capacity Hbuild Hdef Hfit)
    as [_ Hrun].
  eexists _, _. split; [exact Hrun|]. split; [done|].
  unfold uninitialised. by rewrite length_inserts, length_fmap, length_seq.
Qed.

(** The three calls of the decimal examples, run as whole calls. *)
Example printf_decimal_examples :
  printf cortex_m (literal "%d") [int_arg (-555)] (stack_of 0) [] =
    Built (Value (5, [literal "-555" ++ replicate 9 0%Z]))
  ∧ printf cortex_m (literal "%04u") [unsigned_arg 98765] (stack_of 0) [] =
      Built (Value (6, [literal "98765" ++ replicate 9 0%Z]))
  ∧ printf cortex_m (literal "%06u") [unsigned_arg 7] (stack_of 0) [] =
      Built (Value (7, [literal "000007" ++ replicate 8 0%Z])).
Proof. repeat split; vm_compute; reflexivity. Qed.

(** Negating the least [int] overflows: the call is undefined. *)
Example printf_least_int :
  printf cortex_m (literal "%d") [int_arg (- 2 ^ 31)] (stack_of 0) [] = Built Fault
  ∧ printf cortex_m (literal "%d") [int_arg (- 2 ^ 31 + 1)] (stack_of 0) [] =
      Built (Value (12, [literal "-2147483647" ++ replicate 2 0%Z])).
Proof. split; vm_compute; reflexivity. Qed.

(** The dump of three bytes after a formatted prefix. *)
Example printf_DataBuffer_example :
  printf_DataBuffer cortex_m (literal "len %u:")
    {| data := Some [1; 171; 18]%Z; data_length := 3 |} [unsigned_arg 3] (stack_of 0) [] =
    Built (Value (3 * 3 + 7 + 2,
                  [literal "len 3:" ++ replicate 11 0%Z;
                   literal " 01"; literal " AB"; literal " 12";
                   [13; 10; 0]%Z])).
Proof. vm_compute. reflexivity. Qed.

(** The dump loop hands one array per byte to the sink. *)
Lemma dump_loop_returns tg fuel mem len i buffer sink :
  len - i < fuel → len ≤ length mem →
  ∃ sink', dump_loop tg fuel mem len i buffer sink = Value sink'
           ∧ length sink' = length sink + (len - i).
Proof.
  revert i buffer sink. induction fuel as [|fuel IH]; intros i buffer sink Hfuel Hmem; [lia|].
  cbn [dump_loop]. destruct (Nat.ltb_spec i len) as [Hlt|Hge].
  - destruct (lookup_lt_is_Some_2 mem i ltac:(lia)) as [d ->].
    edestruct (IH (S i)) as (sink' & -> & Hlen); [lia|done|].
    eexists. split; [done|]. rewrite Hlen, length_app. simpl. lia.
  - exists sink. split; [done|]. lia.
Qed.

(** With a data pointer that is not null, the call returns the count of
    [printf], three characters per byte and the two of the line end. *)
Lemma printf_DataBuffer_run_count tg str built mem len args stack sink n sink' :
  len ≤ length mem →
  printf_run tg str built args stack sink = Value (n, sink') →
  ∃ sink'', printf_DataBuffer_run tg str built {| data := Some mem; data_length := len |}
              args stack sink = Value (to_size_t tg (3 * len + n + 2), sink'')
            ∧ length sink'' = length sink' + len + 1.
Proof.
  intros Hmem Hrun. unfold printf_DataBuffer_run. cbn [data data_length]. rewrite Hrun.
  destruct (dump_loop_returns tg (S len) mem len 0 (literal " XX") sink')
    as (dumped & -> & Hlen); [lia|done|].
  eexists. split; [reflexivity|]. rewrite length_app, Hlen. simpl. lia.
Qed.

(** * The claims of the specification *)

(** C1 (fails on the code). The capacity planned for ["%020u"] with an
    [unsigned] argument is 16 bytes: the bound 10 of the argument and the 6
    bytes of the literal. The width is not part of the plan, the routine pads
    to 20 characters, the output with its terminator has 21 bytes, and the
    call stores past the end of the buffer. So does ["%9u"] with an 8-bit
    argument, planned at 7 bytes. [printf_fits] gives the widths that are
    safe. *)
Theorem C1_width_overflows_the_buffer (stack : nat → Z) (sink : list (list Z)) :
  printf_build cortex_m (literal "%020u") [Integral false 4] =
    Built ([{| specifier := UnsignedDecimalInteger; width := 20;
               position := 0; size := 5 |}], 16)
  ∧ length (rendered cortex_m (literal "%020u")
              [{| specifier := UnsignedDecimalInteger; width := 20;
                  position := 0; size := 5 |}]
              [unsigned_arg 7] 0) = 21
  ∧ printf cortex_m (literal "%020u") [unsigned_arg 7] stack sink = Built Fault
  ∧ printf_build cortex_m (literal "%9u") [Integral false 1] =
      Built ([{| specifier := UnsignedDecimalInteger; width := 9;
                 position := 0; size := 3 |}], 7)
  ∧ printf cortex_m (literal "%9u") [uint8_arg 7] stack sink = Built Fault.
Proof. repeat split; vm_compute; reflexivity. Qed.




(** C3 as stated fails: no static assertion rejects an unknown specifier.
    The call [printf("%z", 1)] passes the compile-time checks and is stopped
    only by the missing definition of [formatArg]. *)
Lemma C3_unknown_specifier_compiles :
  ¬ (∀ tg body pos pre ds k post args stack sink,
       specifier_occurrence tg (c_str body) pos pre ds k post →
       k ∉ Specifier_code <$> specifiers →
       printf tg (c_str body) args stack sink = CompileError).
Proof.
  intros Hclaim.
  specialize (Hclaim cortex_m [chr "%"; chr "z"] 0 [] [] (chr "z") [0%Z]
                [int_arg 1] (stack_of 0) []).
  assert (printf cortex_m (c_str [chr "%"; chr "z"]) [int_arg 1] (stack_of 0) []
          = LinkError) as Hlink by reflexivity.
  rewrite Hlink in Hclaim. discriminate Hclaim.
  - split; [reflexivity|]. split; [constructor|]. split; [reflexivity|constructor].
  - vm_compute. intros Hin.
    repeat (apply elem_of_cons in Hin as [Hin|Hin]; [discriminate Hin|]).
    by apply elem_of_nil in Hin.
Qed.

(** C3 (amended). A call with arguments on a literal that has a [%] whose
    suffix character matches no kind is never built: when no static
    assertion fires at compile time, linking fails, the primary template
    declaring [formatArg] without defining it. The primary template asserts
    nothing and adds length 0. Without arguments the call selects the
    overload that analyses nothing and hands the literal to the sink. *)
Theorem C3_unknown_specifier_is_not_built (tg : Target) (body : list Z) (pos : nat)
    (pre ds : list Z) (k : Z) (post : list Z) (first : Arg) (rest : list Arg)
    (stack : nat → Z) (sink : list (list Z)) :
  specifier_occurrence tg (c_str body) pos pre ds k post →
  k ∉ Specifier_code <$> specifiers →
  (printf tg (c_str body) (first :: rest) stack sink = CompileError
   ∨ printf tg (c_str body) (first :: rest) stack sink = LinkError)
  ∧ SpecCheck_static_assert tg Unknown (arg_type first) = true
  ∧ SpecCheck_length tg Unknown (arg_type first) = 0
  ∧ printf tg (c_str body) [] stack sink =
      Built (Value (length (c_str body), sink ++ [c_str body])).
Proof.
  intros Hocc Hk. split; [|by repeat split].
  pose proof (occurrence_table tg _ _ _ _ _ _ Hocc) as Hentry.
  rewrite (match_specifier_unknown k Hk) in Hentry.
  unfold printf, printf_build. cbn [fmap list_fmap].
  destruct (printf_static tg (c_str body) (arg_type first :: (arg_type <$> rest)))
    as [[table capacity]|] eqn:Hstatic; [|by left].
  right. unfold printf_static in Hstatic.
  destruct (_ =? _); [|done]. destruct (checkWidth _); [|done].
  destruct (CheckSpecsTypes _ _ _ _); [|done].
  injection Hstatic as <- _.
  destruct (forallb _ _) eqn:Hall; [|done].
  rewrite forallb_forall in Hall.
  apply list_elem_of_lookup_2, list_elem_of_In, Hall in Hentry. done.
Qed.

(** ["%z"] with one argument stops at link time. *)
Lemma C3_unknown_specifier_example :
  (printf cortex_m (literal "%z") [int_arg 1] (stack_of 0) [] = CompileError
   ∨ printf cortex_m (literal "%z") [int_arg 1] (stack_of 0) [] = LinkError)
  ∧ SpecCheck_static_assert cortex_m Unknown (Integral true 4) = true
  ∧ SpecCheck_length cortex_m Unknown (Integral true 4) = 0
  ∧ printf cortex_m (literal "%z") [] (stack_of 0) [] =
      Built (Value (3, [] ++ [literal "%z"])).
Proof.
  refine (C3_unknown_specifier_is_not_built cortex_m [chr "%"; chr "z"] 0 [] []
            (chr "z") [0%Z] (int_arg 1) [] (stack_of 0) [] _ _).
  - split; [reflexivity|]. split; [constructor|]. split; [reflexivity|constructor].
  - vm_compute. intros Hin.
    repeat (apply elem_of_cons in Hin as [Hin|Hin]; [discriminate Hin|]).
    by apply elem_of_nil in Hin.
Defined.

(** C4 (fails on the code). The length the planner adds for a Boolean
    specifier is [sizeof("FALSE")], which is 6, whatever the argument type;
    the longest Boolean rendering has 5 characters. *)
Theorem C4_boolean_length_counts_the_terminator (tg : Target) (ty : Ty) (v : Z) :
  SpecCheck_length tg Boolean ty = 6
  ∧ length (boolean_rendering v) ≤ 5
  ∧ printf_build cortex_m (literal "%b") [Integral false 1] =
      Built ([{| specifier := Boolean; width := 0; position := 0; size := 2 |}], 6 + 3).
Proof.
  split; [reflexivity|]. split; [|reflexivity].
  rewrite length_boolean_rendering. destruct (v =? 0)%Z; lia.
Qed.

(** C5. For an argument of an unsigned integral type [T], [%X] stores
    exactly [2 * sizeof(T) + 2] characters: ["0x"], then [2 * sizeof(T)]
    digits, none of them trimmed; the digit at place [k], counted from the
    left, is the character the table ["0123456789ABCDEF"] holds for the
    nibble [(v / 16 ^ (2 * sizeof(T) - 1 - k)) mod 16] of the value, the most
    significant nibble first. *)
Theorem C5_hexadecimal_is_fixed_width (tg : Target) (ty : Ty) (v W : Z)
    (buffer : nat) (buf : list Z) :
  SpecCheck_valid tg UnsignedHexadecimalInteger ty = true →
  buffer + (2 * sizeof tg ty + 2) ≤ length buf →
  formatArg tg UnsignedHexadecimalInteger buffer {| arg_type := ty; arg_value := v |} W buf =
    Value (2 * sizeof tg ty + 2,
           list_inserts buffer
             ([chr "0"; chr "x"] ++ hex_nibbles (2 * sizeof tg ty) v) buf)
  ∧ length ([chr "0"; chr "x"] ++ hex_nibbles (2 * sizeof tg ty) v) = 2 * sizeof tg ty + 2
  ∧ ∀ k, k < 2 * sizeof tg ty →
         hex_nibbles (2 * sizeof tg ty) v !! k =
           (chr <$> list_ascii_of_string "0123456789ABCDEF")
             !! Z.to_nat ((v / 16 ^ Z.of_nat (2 * sizeof tg ty - 1 - k)) mod 16)%Z.
Proof.
  intros _ Hfit. split; [|split].
  - by apply formatArg_hex_spec.
  - apply length_hexadecimal.
  - intros k Hk. by apply lookup_hex_nibbles.
Qed.

(** An 8-bit zero renders as ["0x00"], the 8-bit value 171 as ["0xAB"], and
    the 32-bit value 4660 as ["0x00001234"]. *)
Lemma C5_hexadecimal_examples :
  formatArg cortex_m UnsignedHexadecimalInteger 0 (uint8_arg 0) 0 [1; 2; 3; 4; 5]%Z =
    Value (4, [chr "0"; chr "x"; chr "0"; chr "0"; 5%Z])
  ∧ formatArg cortex_m UnsignedHexadecimalInteger 0 (uint8_arg 171) 0 [1; 2; 3; 4; 5]%Z =
      Value (4, [chr "0"; chr "x"; chr "A"; chr "B"; 5%Z])
  ∧ formatArg cortex_m UnsignedHexadecimalInteger 1 (unsigned_arg 4660) 0
              (replicate 12 7%Z) =
      Value (10, [7%Z; chr "0"; chr "x"; chr "0"; chr "0"; chr "0"; chr "0";
                  chr "1"; chr "2"; chr "3"; chr "4"; 7%Z]).
Proof.
  split; [|split].
  - apply (C5_hexadecimal_is_fixed_width cortex_m (Integral false 1) 0 0 0
             [1; 2; 3; 4; 5]%Z).
    + reflexivity.
    + simpl. lia.
  - apply (C5_hexadecimal_is_fixed_width cortex_m (Integral false 1) 171 0 0
             [1; 2; 3; 4; 5]%Z).
    + reflexivity.
    + simpl. lia.
  - apply (C5_hexadecimal_is_fixed_width cortex_m (Integral false 4) 4660 0 1
             (replicate 12 7%Z)).
    + reflexivity.
    + simpl. lia.
Defined.

(** C6. The decimal routines store the sign of a negative value, then zeros
    up to the width when the digits are fewer than the width, then the
    decimal digits of the magnitude, unchanged; the digits read back as the
    magnitude. *)
Theorem C6_decimal_rendering (tg : Target) (sp : Specifier) (ty : Ty) (v W : Z)
    (buffer : nat) (buf : list Z) :
  sp = SignedDecimalInteger ∨ sp = UnsignedDecimalInteger →
  SpecCheck_valid tg sp ty = true →
  arg_defined tg {| arg_type := ty; arg_value := v |} →
  let digits := decimal (Z.abs v) in
  let out := (if (v <? 0)%Z then [chr "-"] else [])
             ++ replicate (Z.to_nat W - length digits) (chr "0") ++ digits in
  buffer + length out ≤ length buf →
  formatArg tg sp buffer {| arg_type := ty; arg_value := v |} W buf =
    Value (length out, list_inserts buffer out buf)
  ∧ decimal_value digits = Z.abs v.
Proof.
  intros Hsp Hvalid [Hrange Hneg] digits out Hfit.
  split; [|apply decimal_value_decimal; lia].
  destruct Hsp as [-> | ->]; cbn [formatArg arg_type arg_value] in *.
  - by apply formatArg_SignedDecimalInteger_spec.
  - apply andb_true_iff in Hvalid as [Hu _].
    pose proof (unsigned_nonneg tg ty v Hu Hrange) as Hv.
    subst out digits. revert Hfit.
    destruct (Z.ltb_spec v 0) as [|_]; [lia|].
    rewrite Z.abs_eq by done. cbn [app]. intros Hfit.
    by apply formatArg_UnsignedDecimalInteger_spec.
Qed.

(** ["%d"] with -555 gives ["-555"], ["%04u"] with 98765 gives ["98765"] and
    ["%06u"] with 7 gives ["000007"]. *)
Lemma C6_decimal_examples :
  (formatArg cortex_m SignedDecimalInteger 0 (int_arg (-555)) 0 (replicate 6 0%Z) =
     Value (4, [chr "-"; chr "5"; chr "5"; chr "5"; 0; 0]%Z)
   ∧ decimal_value [chr "5"; chr "5"; chr "5"] = 555%Z)
  ∧ (formatArg cortex_m UnsignedDecimalInteger 0 (unsigned_arg 98765) 4 (replicate 6 0%Z) =
       Value (5, [chr "9"; chr "8"; chr "7"; chr "6"; chr "5"; 0]%Z)
     ∧ decimal_value [chr "9"; chr "8"; chr "7"; chr "6"; chr "5"] = 98765%Z)
  ∧ (formatArg cortex_m UnsignedDecimalInteger 0 (unsigned_arg 7) 6 (replicate 6 0%Z) =
       Value (6, [chr "0"; chr "0"; chr "0"; chr "0"; chr "0"; chr "7"])
     ∧ decimal_value [chr "7"] = 7%Z).
Proof.
  split; [|split].
  - apply (C6_decimal_rendering cortex_m SignedDecimalInteger (Integral true 4)
             (-555) 0 0 (replicate 6 0%Z)).
    + by left.
    + reflexivity.
    + split; vm_compute; split; congruence.
    + vm_compute. lia.
  - apply (C6_decimal_rendering cortex_m UnsignedDecimalInteger (Integral false 4)
             98765 4 0 (replicate 6 0%Z)).
    + by right.
    + reflexivity.
    + split; vm_compute; try split; congruence.
    + vm_compute. lia.
  - apply (C6_decimal_rendering cortex_m UnsignedDecimalInteger (Integral false 4)
             7 6 0 (replicate 6 0%Z)).
    + by right.
    + reflexivity.
    + split; vm_compute; try split; congruence.
    + vm_compute. lia.
Defined.

(** C7. For an unsigned argument of at least the native word size, [%t]
    stores the unpadded decimal rendering of [v / 1000], a ['.'], and
    [v mod 1000] in decimal, zero padded to exactly 3 digits. *)
Theorem C7_time_rendering (tg : Target) (ty : Ty) (v W : Z) (buffer : nat)
    (buf : list Z) :
  SpecCheck_valid tg Time ty = true →
  in_range tg ty v →
  let out := decimal (v / 1000)%Z ++ [chr "."] ++ zero_pad 3 (decimal (v mod 1000)%Z) in
  buffer + length out ≤ length buf →
  formatArg tg Time buffer {| arg_type := ty; arg_value := v |} W buf =
    Value (length out, list_inserts buffer out buf)
  ∧ length (zero_pad 3 (decimal (v mod 1000)%Z)) = 3.
Proof.
  intros Hvalid Hrange out Hfit. cbn [SpecCheck_valid] in Hvalid.
  apply andb_true_iff in Hvalid as [Hu _]. apply andb_true_iff in Hu as [Hu _].
  pose proof (unsigned_nonneg tg ty v Hu Hrange) as Hv.
  split; [by apply formatArg_Time_spec|by apply length_millis].
Qed.

(** 1500 renders as ["1.500"] and 59 as ["0.059"]. *)
Lemma C7_time_examples :
  (formatArg cortex_m Time 0 (unsigned_arg 1500) 0 (replicate 6 0%Z) =
     Value (5, [chr "1"; chr "."; chr "5"; chr "0"; chr "0"; 0%Z])
   ∧ length (zero_pad 3 (decimal (1500 mod 1000)%Z)) = 3)
  ∧ (formatArg cortex_m Time 0 (unsigned_arg 59) 0 (replicate 6 0%Z) =
       Value (5, [chr "0"; chr "."; chr "0"; chr "5"; chr "9"; 0%Z])
     ∧ length (zero_pad 3 (decimal (59 mod 1000)%Z)) = 3).
Proof.
  split.
  - apply (C7_time_rendering cortex_m (Integral false 4) 1500 0 0 (replicate 6 0%Z)).
    + reflexivity.
    + vm_compute. split; congruence.
    + vm_compute. lia.
  - apply (C7_time_rendering cortex_m (Integral false 4) 59 0 0 (replicate 6 0%Z)).
    + reflexivity.
    + vm_compute. split; congruence.
    + vm_compute. lia.
Defined.

(** C8 as stated fails: the width is an [unsigned] and wraps. On a 32-bit
    target the digit run of ["%4294967296u"] denotes 2^32 and the width
    recorded is 0. *)
Lemma C8_width_wraps :
  ¬ (∀ tg str pos pre ds k post,
       specifier_occurrence tg str pos pre ds k post →
       ∃ entry, SpecifierTable tg (SpecifierQuantity str) str !! pos = Some entry
                ∧ width entry = decimal_value ds
                ∧ size entry = length ds + 2).
Proof.
  intros Hclaim.
  destruct (Hclaim cortex_m (literal "%4294967296u") 0 []
              (chr <$> list_ascii_of_string "4294967296") (chr "u") [0%Z])
    as (entry & Hentry & Hwidth & _).
  - split; [reflexivity|]. split; [|split; [reflexivity|constructor]].
    repeat constructor.
  - vm_compute in Hentry. injection Hentry as <-.
    vm_compute in Hwidth. discriminate Hwidth.
Qed.

(** C8 (amended). For every specifier occurrence, a [%] the scan arrives at,
    followed by a digit run and a character that is not a digit, the table
    holds at the occurrence's rank an entry whose kind is the one matching
    that character, whose position is the index of the [%], whose encoded
    size counts the bytes from the [%] through that character, and whose
    width is the decimal value of the digit run reduced modulo
    [2 ^ unsigned_bits]: the decimal value itself whenever it fits an
    [unsigned]. *)
Theorem C8_scanner_records_width_and_size (tg : Target) (str : list Z) (pos : nat)
    (pre ds : list Z) (k : Z) (post : list Z) :
  specifier_occurrence tg str pos pre ds k post →
  ∃ entry, SpecifierTable tg (SpecifierQuantity str) str !! pos = Some entry
    ∧ specifier entry = match_specifier k
    ∧ position entry = length pre
    ∧ size entry = length ds + 2
    ∧ width entry = (decimal_value ds mod 2 ^ unsigned_bits tg)%Z
    ∧ ((decimal_value ds < 2 ^ unsigned_bits tg)%Z → width entry = decimal_value ds).
Proof.
  intros Hocc. eexists. split; [exact (occurrence_table tg str pos pre ds k post Hocc)|].
  cbn [specifier position size width]. repeat split.
  intros Hfits. apply Z.mod_small. split; [|done].
  apply decimal_value_nonneg. by destruct Hocc as (_ & Hds & _).
Qed.

(** ["%04u"] records width 4 and encoded size 4; so does the second
    specifier of ["a%db%04u"], at rank 1 and position 4. *)
Lemma C8_scanner_example :
  (∃ entry, SpecifierTable cortex_m (SpecifierQuantity (literal "%04u")) (literal "%04u") !! 0
            = Some entry
     ∧ specifier entry = UnsignedDecimalInteger
     ∧ position entry = 0
     ∧ size entry = 4
     ∧ width entry = 4%Z
     ∧ ((decimal_value [chr "0"; chr "4"] < 2 ^ unsigned_bits cortex_m)%Z
        → width entry = decimal_value [chr "0"; chr "4"]))
  ∧ (∃ entry, SpecifierTable cortex_m (SpecifierQuantity (literal "a%db%04u"))
                (literal "a%db%04u") !! 1 = Some entry
       ∧ specifier entry = UnsignedDecimalInteger
       ∧ position entry = 4
       ∧ size entry = 4
       ∧ width entry = 4%Z
       ∧ ((decimal_value [chr "0"; chr "4"] < 2 ^ unsigned_bits cortex_m)%Z
          → width entry = decimal_value [chr "0"; chr "4"])).
Proof.
  split.
  - refine (C8_scanner_records_width_and_size cortex_m (literal "%04u") 0 []
              [chr "0"; chr "4"] (chr "u") [0%Z] _).
    split; [reflexivity|]. split; [by repeat constructor|].
    split; [reflexivity|constructor].
  - refine (C8_scanner_records_width_and_size cortex_m (literal "a%db%04u") 1
              [chr "a"; chr "%"; chr "d"; chr "b"]
              [chr "0"; chr "4"] (chr "u") [0%Z] _).
    split; [reflexivity|]. split; [by repeat constructor|].
    split; [reflexivity|].
    apply (reaches_skip _ _ 3 1); [|simpl; lia|vm_compute; discriminate].
    change 3 with (S (snd (scan_specifier cortex_m (literal "a%db%04u") 1))).
    apply reaches_specifier; [|simpl; lia|reflexivity].
    apply reaches_skip; [constructor|simpl; lia|vm_compute; discriminate].
Defined.

(** C9. A call of the buffer-dump overload whose [DataBuffer] carries a null
    data pointer returns 0 and hands nothing to the sink, whatever the
    literal, the length field and the other arguments are. *)
Theorem C9_null_data_pointer_writes_nothing (tg : Target) (str : list Z)
    (built : list SpecifierData * nat) (len : nat) (args : list Arg)
    (stack : nat → Z) (sink : list (list Z)) :
  printf_DataBuffer_run tg str built {| data := None; data_length := len |}
                        args stack sink = Value (0, sink)
  ∧ printf_DataBuffer tg str {| data := None; data_length := len |} args stack sink =
      Build_map (fun _ => Value (0, sink)) (printf_build tg str (arg_type <$> args)).
Proof. split; reflexivity. Qed.




(** * Further properties of the code *)

(** ** Helper facts *)

Lemma lookup_uninitialised stack capacity j :
  j < capacity → uninitialised stack capacity !! j = Some (stack j).
Proof.
  intros Hj. unfold uninitialised. by rewrite list_lookup_fmap, lookup_seq_lt.
Qed.

Lemma length_uninitialised stack capacity : length (uninitialised stack capacity) = capacity.
Proof. unfold uninitialised. by rewrite length_fmap, length_seq. Qed.

(** The compile-time part, read backwards. *)
Lemma printf_static_inv tg str First Rest table capacity :
  printf_static tg str (First :: Rest) = Some (table, capacity) →
  table = SpecifierTable tg (SpecifierQuantity str) str
  ∧ S (length Rest) = SpecifierQuantity str
  ∧ checkWidth table = true
  ∧ ∃ sum, CheckSpecsTypes tg table First Rest = Some sum ∧ capacity = sum + length str.
Proof.
  unfold printf_static.
  destruct (Nat.eqb_spec (length (First :: Rest)) (SpecifierQuantity str)) as [Hq|]; [|done].
  set (table' := SpecifierTable tg (SpecifierQuantity str) str).
  destruct (checkWidth table') eqn:Hw; [|done].
  destruct (CheckSpecsTypes tg table' First Rest) as [sum|] eqn:Hsum; [|done].
  intros [= <- <-]. repeat split; try done. by exists sum.
Qed.

Lemma printf_static_rejects tg str first rest stack sink :
  printf_static tg str (arg_type <$> first :: rest) = None →
  printf tg str (first :: rest) stack sink = CompileError.
Proof.
  intros Hnone. unfold printf, printf_build. cbn [fmap list_fmap] in *.
  by rewrite Hnone.
Qed.

(** The entries of a built table lie in the literal one after the other. *)
Lemma printf_build_well_placed tg body First Rest table capacity :
  printf_build tg (c_str body) (First :: Rest) = Built (table, capacity) →
  well_placed (c_str body) 0 table.
Proof.
  intros Hbuild.
  apply printf_build_inv in Hbuild as (Htable & _ & _ & _ & Hlink).
  rewrite Htable, SpecifierTable_entries by (by rewrite <- Htable).
  apply scan_entries_well_placed. lia.
Qed.

(** The length of the output in terms of the literal, the encoded sizes and
    the renderings. *)
Lemma rendered_length tg str table args cursor :
  well_placed str cursor table → length table = length args →
  length (rendered tg str table args cursor) + encoded_sizes table + cursor
  = length str + renderings_length tg table args.
Proof.
  intros Hplaced. revert args.
  induction Hplaced as [cursor Hc|cursor entry entries Hc Hend _ _ IH]; intros args Hlen.
  - destruct args; [|done]. cbn [rendered renderings_length].
    unfold encoded_sizes. cbn [fmap list_fmap sum_list sum_list_with].
    rewrite length_drop. lia.
  - destruct args as [|a args]; [done|]. cbn [rendered renderings_length].
    cbn [length] in Hlen. specialize (IH args ltac:(lia)).
    rewrite !length_app, length_literal_span by lia.
    change (encoded_sizes (entry :: entries)) with (size entry + encoded_sizes entries).
    lia.
Qed.

(** ** [Format::printf]: what a call that builds does *)

(** X1. A call of the variadic [printf] that builds, on arguments the render
    routines are defined on and with every width within the digits planned
    for its argument, returns; the buffer it hands to the sink has the
    planned capacity (the sum of the [SpecCheck] lengths plus the size of the
    literal), the count it returns is within the capacity, and the bytes of
    the buffer from the count on still hold what the stack held. *)
Theorem X1_printf_stays_in_its_buffer (tg : Target) (body : list Z) (first : Arg)
    (rest : list Arg) (stack : nat → Z) (sink : list (list Z))
    (table : list SpecifierData) (capacity : nat) :
  printf_build tg (c_str body) (arg_type <$> first :: rest) = Built (table, capacity) →
  Forall (fun a => arg_defined tg a ∧ 0 < sizeof tg (arg_type a)) (first :: rest) →
  Forall2 (fun entry a =>
             (width entry <= Z.of_nat (digits_bound (sizeof tg (arg_type a))))%Z)
          table (first :: rest) →
  ∃ n buffer,
    printf tg (c_str body) (first :: rest) stack sink = Built (Value (n, sink ++ [buffer]))
    ∧ n ≤ capacity
    ∧ capacity = planned tg table (arg_type <$> first :: rest) + length (c_str body)
    ∧ length buffer = capacity
    ∧ ∀ j, n ≤ j < capacity → buffer !! j = Some (stack j).
Proof.
  intros Hbuild Hargs Hwidths.
  assert (Forall (arg_defined tg) (first :: rest)) as Hdef
    by (eapply Forall_impl; [exact Hargs|by intros a [? ?]]).
  assert (length (rendered tg (c_str body) table (first :: rest) 0) ≤ capacity) as Hfit.
  { apply (printf_fits tg body first rest table capacity Hbuild); [|done].
    eapply Forall_impl; [exact Hargs|]. by intros a [[? ?] ?]. }
  destruct (printf_rendered tg body first rest stack sink table capacity Hbuild Hdef Hfit)
    as [_ Hrun].
  eexists _, _. split; [exact Hrun|]. split; [done|]. split; [|split].
  - cbn [fmap list_fmap] in Hbuild.
    apply printf_build_inv in Hbuild as (_ & Hlen & _ & (sum & Hsum & ->) & _).
    apply (CheckSpecsTypes_planned tg [] table) in Hsum; [|done]. by rewrite Hsum.
  - by rewrite length_inserts, length_uninitialised.
  - intros j [Hn Hj]. rewrite list_lookup_inserts_ge by (cbn [Nat.add]; lia).
    by apply lookup_uninitialised.
Qed.

Lemma X1_printf_example :
  ∃ n buffer,
    printf cortex_m (c_str (chr <$> list_ascii_of_string "v=%04u")) [unsigned_arg 98765]
           (stack_of 7) [] = Built (Value (n, [] ++ [buffer]))
    ∧ n ≤ 17
    ∧ 17 = planned cortex_m
             [{| specifier := UnsignedDecimalInteger; width := 4; position := 2; size := 4 |}]
             (arg_type <$> [unsigned_arg 98765])
           + length (c_str (chr <$> list_ascii_of_string "v=%04u"))
    ∧ length buffer = 17
    ∧ ∀ j, n ≤ j < 17 → buffer !! j = Some (stack_of 7 j).
Proof.
  refine (X1_printf_stays_in_its_buffer cortex_m (chr <$> list_ascii_of_string "v=%04u")
            (unsigned_arg 98765) [] (stack_of 7) []
            [{| specifier := UnsignedDecimalInteger; width := 4; position := 2; size := 4 |}]
            17 _ _ _).
  - vm_compute. reflexivity.
  - repeat constructor; vm_compute; congruence || lia.
  - repeat constructor. vm_compute. congruence.
Defined.

(** X2. The count such a call returns is the size of the literal, less the
    bytes the specifiers take up in it, plus the characters the arguments
    render to. *)
Theorem X2_count_of_a_call (tg : Target) (body : list Z) (first : Arg)
    (rest : list Arg) (stack : nat → Z) (sink : list (list Z))
    (table : list SpecifierData) (capacity : nat) :
  printf_build tg (c_str body) (arg_type <$> first :: rest) = Built (table, capacity) →
  Forall (fun a => arg_defined tg a ∧ 0 < sizeof tg (arg_type a)) (first :: rest) →
  Forall2 (fun entry a =>
             (width entry <= Z.of_nat (digits_bound (sizeof tg (arg_type a))))%Z)
          table (first :: rest) →
  ∃ n buffer,
    printf tg (c_str body) (first :: rest) stack sink = Built (Value (n, sink ++ [buffer]))
    ∧ n + encoded_sizes table
      = length (c_str body) + renderings_length tg table (first :: rest).
Proof.
  intros Hbuild Hargs Hwidths.
  assert (Forall (arg_defined tg) (first :: rest)) as Hdef
    by (eapply Forall_impl; [exact Hargs|by intros a [? ?]]).
  assert (length (rendered tg (c_str body) table (first :: rest) 0) ≤ capacity) as Hfit.
  { apply (printf_fits tg body first rest table capacity Hbuild); [|done].
    eapply Forall_impl; [exact Hargs|]. by intros a [[? ?] ?]. }
  destruct (printf_rendered tg body first rest stack sink table capacity Hbuild Hdef Hfit)
    as [Hplaced Hrun].
  eexists _, _. split; [exact Hrun|].
  cbn [fmap list_fmap] in Hbuild.
  apply printf_build_inv in Hbuild as (_ & Hlen & _).
  rewrite length_fmap in Hlen.
  pose proof (rendered_length tg (c_str body) table (first :: rest) 0 Hplaced
                ltac:(cbn [length]; lia)) as Hcount.
  lia.
Qed.

Lemma X2_count_example :
  ∃ n buffer,
    printf cortex_m (c_str (chr <$> list_ascii_of_string "a%db%04u"))
           [int_arg (-555); unsigned_arg 7] (stack_of 0) []
    = Built (Value (n, [] ++ [buffer]))
    ∧ n + encoded_sizes
            [{| specifier := SignedDecimalInteger; width := 0; position := 1; size := 2 |};
             {| specifier := UnsignedDecimalInteger; width := 4; position := 4; size := 4 |}]
      = length (c_str (chr <$> list_ascii_of_string "a%db%04u"))
        + renderings_length cortex_m
            [{| specifier := SignedDecimalInteger; width := 0; position := 1; size := 2 |};
             {| specifier := UnsignedDecimalInteger; width := 4; position := 4; size := 4 |}]
            [int_arg (-555); unsigned_arg 7].
Proof.
  refine (X2_count_of_a_call cortex_m (chr <$> list_ascii_of_string "a%db%04u")
            (int_arg (-555)) [unsigned_arg 7] (stack_of 0) []
            [{| specifier := SignedDecimalInteger; width := 0; position := 1; size := 2 |};
             {| specifier := UnsignedDecimalInteger; width := 4; position := 4; size := 4 |}]
            30 _ _ _).
  - vm_compute. reflexivity.
  - repeat constructor; vm_compute; congruence || lia.
  - repeat constructor; vm_compute; congruence.
Defined.

(** ** [Format::printf]: what stops a call from compiling *)



Lemma printf_static_type_mismatch tg str pos pre ds k post First Rest ty :
  specifier_occurrence tg str pos pre ds k post →
  (First :: Rest) !! pos = Some ty →
  match_specifier k ≠ Unknown →
  SpecCheck_valid tg (match_specifier k) ty = false →
  printf_static tg str (First :: Rest) = None.
Proof.
  intros Hocc Hty Hknown Hvalid.
  destruct (printf_static tg str (First :: Rest)) as [[table capacity]|] eqn:Hs;
    [exfalso|done].
  apply printf_static_inv in Hs as (Htable & Hq & _ & (sum & Hsum & _)).
  apply (CheckSpecsTypes_asserts tg [] table) in Hsum;
    [|by rewrite Htable, length_SpecifierTable, <- Hq].
  apply occurrence_table in Hocc. rewrite <- Htable in Hocc.
  pose proof (Forall2_lookup_lr _ _ _ _ _ _ Hsum Hocc Hty) as Hassert.
  cbn [specifier] in Hassert.
  destruct (match_specifier k); try done; cbn [SpecCheck_static_assert] in Hassert;
    congruence.
Qed.

(** X4. A specifier of a known kind whose argument has a type the kind does
    not accept stops the call from compiling. *)
Theorem X4_type_mismatch_is_rejected (tg : Target) (str : list Z) (pos : nat)
    (pre ds : list Z) (k : Z) (post : list Z) (args : list Arg) (a : Arg)
    (stack : nat → Z) (sink : list (list Z)) :
  specifier_occurrence tg str pos pre ds k post →
  args !! pos = Some a →
  match_specifier k ≠ Unknown →
  SpecCheck_valid tg (match_specifier k) (arg_type a) = false →
  printf tg str args stack sink = CompileError.
Proof.
  intros Hocc Ha Hknown Hvalid.
  destruct args as [|first rest]; [done|].
  assert ((arg_type <$> first :: rest) !! pos = Some (arg_type a)) as Hty
    by (by rewrite list_lookup_fmap, Ha).
  apply printf_static_rejects.
  by apply (printf_static_type_mismatch tg str pos pre ds k post _ _ (arg_type a)).
Qed.

Lemma X4_type_mismatch_example :
  printf cortex_m (literal "n = %d") [unsigned_arg 5] (stack_of 0) [] = CompileError.
Proof.
  refine (X4_type_mismatch_is_rejected cortex_m (literal "n = %d") 0
            (chr <$> list_ascii_of_string "n = ") [] (chr "d") [0%Z]
            [unsigned_arg 5] (unsigned_arg 5) (stack_of 0) [] _ _ _ _).
  - split; [reflexivity|]. split; [constructor|]. split; [reflexivity|].
    apply reaches_first; [vm_compute; lia|].
    intros j Hj. cbn [length fmap list_fmap list_ascii_of_string] in Hj.
    do 4 (destruct j as [|j]; [vm_compute; congruence|]). lia.
  - reflexivity.
  - vm_compute. congruence.
  - reflexivity.
Defined.

(** X5. A specifier other than the two decimals whose recorded width is not
    zero stops the call from compiling, whatever the arguments. The recorded
    width is the digit run reduced modulo [2^N], [N] the bits of
    [unsigned]. *)
Theorem X5_width_on_other_kinds_is_rejected (tg : Target) (str : list Z) (pos : nat)
    (pre ds : list Z) (k : Z) (post : list Z) (first : Arg) (rest : list Arg)
    (stack : nat → Z) (sink : list (list Z)) :
  specifier_occurrence tg str pos pre ds k post →
  match_specifier k ≠ SignedDecimalInteger →
  match_specifier k ≠ UnsignedDecimalInteger →
  (decimal_value ds mod 2 ^ unsigned_bits tg)%Z ≠ 0%Z →
  printf tg str (first :: rest) stack sink = CompileError.
Proof.
  intros Hocc Hs Hu Hw.
  apply printf_static_rejects.
  destruct (printf_static tg str (arg_type <$> first :: rest)) as [[table capacity]|] eqn:Hst;
    [exfalso|done].
  cbn [fmap list_fmap] in Hst.
  apply printf_static_inv in Hst as (Htable & _ & Hcheck & _).
  apply occurrence_table in Hocc. rewrite <- Htable in Hocc.
  unfold checkWidth in Hcheck. rewrite forallb_forall in Hcheck.
  apply list_elem_of_lookup_2, list_elem_of_In in Hocc.
  specialize (Hcheck _ Hocc). cbn [specifier width] in Hcheck.
  rewrite !bool_decide_eq_true_2 in Hcheck by done.
  apply Z.eqb_neq in Hw. by rewrite Hw in Hcheck.
Qed.

Lemma X5_width_example :
  printf cortex_m (literal "%4X") [uint8_arg 5] (stack_of 0) [] = CompileError.
Proof.
  refine (X5_width_on_other_kinds_is_rejected cortex_m (literal "%4X") 0
            [] [chr "4"] (chr "X") [0%Z] (uint8_arg 5) [] (stack_of 0) [] _ _ _ _).
  - split; [reflexivity|]. split; [by repeat constructor|]. split; [reflexivity|].
    constructor.
  - vm_compute. congruence.
  - vm_compute. congruence.
  - vm_compute. congruence.
Defined.

(** ** The scanner: the shape of the table *)



(** ** The render routines not covered so far *)

(** X7. [%b] stores the four characters [TRUE] for an argument that is not
    zero and the five characters [FALSE] for zero, without a terminator, and
    returns their number. *)
Theorem X7_boolean_rendering (tg : Target) (ty : Ty) (v W : Z) (buffer : nat)
    (buf : list Z) :
  let out := chr <$> list_ascii_of_string (if (v =? 0)%Z then "FALSE" else "TRUE") in
  buffer + length out ≤ length buf →
  formatArg tg Boolean buffer {| arg_type := ty; arg_value := v |} W buf =
    Value ((if (v =? 0)%Z then 5 else 4), list_inserts buffer out buf).
Proof.
  intros out Hfit. cbn [formatArg arg_value].
  rewrite formatArg_Boolean_spec by exact Hfit.
  by rewrite length_boolean_rendering.
Qed.

Lemma X7_boolean_example :
  formatArg cortex_m Boolean 1 {| arg_type := Integral false 1; arg_value := 1 |} 0
            (replicate 6 0%Z)
  = Value (4, list_inserts 1 (chr <$> list_ascii_of_string "TRUE") (replicate 6 0%Z)).
Proof.
  refine (X7_boolean_rendering cortex_m (Integral false 1) 1 0 1 (replicate 6 0%Z) _).
  vm_compute. lia.
Defined.

(** X8. [%c] stores its argument and [%s] the characters of its argument's
    string, both as they are and without a terminator: a [%] or a zero byte
    among them is copied like any other. *)
Theorem X8_characters_are_copied (tg : Target) (sp : Specifier) (ty : Ty) (v W : Z)
    (out : list Z) (buffer : nat) (buf : list Z) :
  (sp = Character ∧ out = [v]) ∨ (sp = StringOfCharacters ∧ ty = StringT out) →
  buffer + length out ≤ length buf →
  formatArg tg sp buffer {| arg_type := ty; arg_value := v |} W buf =
    Value (length out, list_inserts buffer out buf).
Proof.
  intros [[-> ->] | [-> ->]] Hfit; cbn [formatArg arg_type arg_value].
  - by apply formatArg_Character_spec.
  - by apply formatArg_StringOfCharacters_spec.
Qed.

Lemma X8_characters_example :
  formatArg cortex_m StringOfCharacters 0
            {| arg_type := StringT [chr "5"; chr "%"; 0%Z; chr "d"]; arg_value := 0 |} 0
            (replicate 4 1%Z)
  = Value (length [chr "5"; chr "%"; 0%Z; chr "d"],
           list_inserts 0 [chr "5"; chr "%"; 0%Z; chr "d"] (replicate 4 1%Z)).
Proof.
  refine (X8_characters_are_copied cortex_m StringOfCharacters
            (StringT [chr "5"; chr "%"; 0%Z; chr "d"]) 0 0
            [chr "5"; chr "%"; 0%Z; chr "d"] 0 (replicate 4 1%Z) _ _).
  - right. split; reflexivity.
  - vm_compute. lia.
Defined.

(** X9. [%p] stores ["0x"] and then [2 * sizeof(size_t)] hexadecimal digits
    of the address, most significant first and zero filled, whatever the
    pointer type: the digit at place [k] is the one the sequence
    [0123456789ABCDEF] holds at the index [(v / 16 ^ (n - 1 - k)) mod 16],
    [n] being the number of digits. *)
Theorem X9_pointer_rendering (tg : Target) (ty : Ty) (v W : Z) (buffer : nat)
    (buf : list Z) :
  buffer + (2 * sizeof_size_t tg + 2) ≤ length buf →
  ∃ digits,
    formatArg tg PointerAddress buffer {| arg_type := ty; arg_value := v |} W buf =
      Value (2 * sizeof_size_t tg + 2,
             list_inserts buffer ([chr "0"; chr "x"] ++ digits) buf)
    ∧ length digits = 2 * sizeof_size_t tg
    ∧ ∀ k, k < 2 * sizeof_size_t tg →
           digits !! k
           = hex_digits
               !! Z.to_nat ((v / 16 ^ Z.of_nat (2 * sizeof_size_t tg - 1 - k)) mod 16)%Z.
Proof.
  intros Hfit. exists (hex_nibbles (2 * sizeof_size_t tg) v). split; [|split].
  - by apply formatArg_hex_spec.
  - apply length_hex_nibbles.
  - intros k Hk. by apply lookup_hex_nibbles.
Qed.

(** The address [0x200000FF] of a 32-bit target. *)
Lemma X9_pointer_example :
  formatArg cortex_m PointerAddress 0 {| arg_type := Pointer; arg_value := 536871167 |} 0
            (replicate 11 7%Z)
  = Value (10, [chr "0"; chr "x"; chr "2"; chr "0"; chr "0"; chr "0"; chr "0"; chr "0";
                chr "F"; chr "F"; 7%Z]).
Proof.
  destruct (X9_pointer_rendering cortex_m Pointer 536871167 0 0 (replicate 11 7%Z)
              ltac:(vm_compute; lia)) as (digits & Hrun & Hlen & Hdigits).
  rewrite Hrun. do 8 (destruct digits as [|? digits]; [discriminate Hlen|]).
  destruct digits; [|discriminate Hlen].
  pose proof (Hdigits 0 ltac:(vm_compute; lia)) as H0.
  pose proof (Hdigits 1 ltac:(vm_compute; lia)) as H1.
  pose proof (Hdigits 2 ltac:(vm_compute; lia)) as H2.
  pose proof (Hdigits 3 ltac:(vm_compute; lia)) as H3.
  pose proof (Hdigits 4 ltac:(vm_compute; lia)) as H4.
  pose proof (Hdigits 5 ltac:(vm_compute; lia)) as H5.
  pose proof (Hdigits 6 ltac:(vm_compute; lia)) as H6.
  pose proof (Hdigits 7 ltac:(vm_compute; lia)) as H7.
  vm_compute in H0, H1, H2, H3, H4, H5, H6, H7.
  injection H0 as ->. injection H1 as ->. injection H2 as ->. injection H3 as ->.
  injection H4 as ->. injection H5 as ->. injection H6 as ->. injection H7 as ->.
  vm_compute. reflexivity.
Defined.

(** X10. [%d] negates a negative argument in its promoted type. For the
    least value of a signed type at least as wide as [int] the negation
    overflows, which is undefined, whatever the buffer and the width; every
    other value of such a type is one the routine is defined on. *)
Theorem X10_least_value_is_undefined (tg : Target) (bytes : nat) (W : Z)
    (buffer : nat) (buf : list Z) :
  0 < bytes →
  sizeof_int tg ≤ bytes →
  let least := (- 2 ^ (8 * Z.of_nat bytes - 1))%Z in
  in_range tg (Integral true bytes) least
  ∧ formatArg tg SignedDecimalInteger buffer
              {| arg_type := Integral true bytes; arg_value := least |} W buf = Fault
  ∧ ∀ v, in_range tg (Integral true bytes) v → v ≠ least →
         arg_defined tg {| arg_type := Integral true bytes; arg_value := v |}.
Proof.
  intros Hbytes Hint least.
  assert (0 < 2 ^ (8 * Z.of_nat bytes - 1))%Z as Hpos by (apply Z.pow_pos_nonneg; lia).
  split; [|split].
  - cbn [in_range is_signed_v sizeof]. subst least. lia.
  - cbn [formatArg arg_type arg_value].
    unfold formatArg_SignedDecimalInteger, bind, negate. cbn [sizeof].
    rewrite Nat.max_l by lia. subst least.
    destruct (Z.ltb_spec (- 2 ^ (8 * Z.of_nat bytes - 1)) 0) as [_|]; [|lia].
    rewrite Z.opp_involutive.
    destruct (Z.ltb_spec (2 ^ (8 * Z.of_nat bytes - 1)) (2 ^ (8 * Z.of_nat bytes - 1)));
      [lia|done].
  - intros v Hrange Hne. split; [done|]. cbn [arg_type arg_value sizeof].
    cbn [in_range is_signed_v sizeof] in Hrange.
    rewrite Nat.max_l by lia. subst least. lia.
Qed.

Lemma X10_least_value_example :
  in_range cortex_m (Integral true 4) (- 2 ^ 31)
  ∧ formatArg cortex_m SignedDecimalInteger 0 (int_arg (- 2 ^ 31)) 0 (replicate 12 0%Z)
    = Fault
  ∧ arg_defined cortex_m (int_arg (- 2 ^ 31 + 1)).
Proof.
  destruct (X10_least_value_is_undefined cortex_m 4 0 0 (replicate 12 0%Z)
              ltac:(lia) ltac:(vm_compute; lia)) as (Hrange & Hfault & Hrest).
  split; [exact Hrange|]. split; [exact Hfault|].
  apply (Hrest (- 2 ^ 31 + 1)%Z).
  - vm_compute. split; congruence.
  - vm_compute. congruence.
Defined.

(** ** The [DataBuffer] overload: the dump *)

Section DumpFacts.
Context (tg : Target).

(** The loop emits one group per byte; [g] is what a round stores for the
    bytes at hand. *)
Lemma dump_loop_groups (g : Z → list Z) fuel mem len i b1 b2 sink :
  len - i < fuel → len ≤ length mem →
  Forall (fun d => [chr " "; to_char tg (hex_char (to_char tg (Z.shiftr d 4)));
                    to_char tg (hex_char (to_char tg (Z.land d 15))); 0%Z] = g d)
         (take (len - i) (drop i mem)) →
  dump_loop tg fuel mem len i [chr " "; b1; b2; 0%Z] sink =
    Value (sink ++ (g <$> take (len - i) (drop i mem))).
Proof.
  revert i b1 b2 sink.
  induction fuel as [|fuel IH]; intros i b1 b2 sink Hfuel Hlen Hg; [lia|].
  cbn [dump_loop]. destruct (Nat.ltb_spec i len) as [Hi|Hi].
  - destruct (lookup_lt_is_Some_2 mem i ltac:(lia)) as [d Hd]. rewrite Hd.
    rewrite (drop_S _ _ _ Hd) in Hg |- *.
    replace (len - i) with (S (len - S i)) in Hg |- * by lia.
    cbn [take] in Hg |- *. apply Forall_cons in Hg as [Hhead Hg].
    cbn [insert list_insert].
    rewrite IH by (done || lia).
    rewrite Hhead, <- app_assoc. reflexivity.
  - replace (len - i) with 0 by lia. cbn [take fmap list_fmap]. by rewrite app_nil_r.
Qed.


Lemma land_15 d : Z.land d 15 = (d mod 16)%Z.
Proof. change 15%Z with (Z.ones 4). by rewrite Z.land_ones. Qed.

Lemma shiftr_4 d : Z.shiftr d 4 = (d / 16)%Z.
Proof. by rewrite Z.shiftr_div_pow2. Qed.

Lemma dump_byte d :
  (0 <= d < (if char_is_signed tg then 128 else 256))%Z →
  [chr " "; to_char tg (hex_char (to_char tg (Z.shiftr d 4)));
   to_char tg (hex_char (to_char tg (Z.land d 15))); 0%Z] = dump_group d.
Proof.
  intros Hd. assert (0 <= d < 256)%Z as Hd' by (destruct (char_is_signed tg); lia).
  rewrite land_15, shiftr_4. unfold dump_group.
  rewrite (to_char_ascii tg (d / 16)), (to_char_ascii tg (d mod 16)) by lia.
  rewrite !to_char_ascii by (apply hex_char_ascii; lia).
  by rewrite !hex_char_digit_eq by lia.
Qed.


Lemma to_size_t_small x :
  (Z.of_nat x < 2 ^ (8 * Z.of_nat (sizeof_size_t tg)))%Z → to_size_t tg x = x.
Proof. intros Hx. unfold to_size_t. rewrite Z.mod_small by lia. apply Nat2Z.id. Qed.

Lemma printf_DataBuffer_run_groups (g : Z → list Z) str built mem len args stack sink n sink' :
  len ≤ length mem →
  Forall (fun d => [chr " "; to_char tg (hex_char (to_char tg (Z.shiftr d 4)));
                    to_char tg (hex_char (to_char tg (Z.land d 15))); 0%Z] = g d)
         (take len mem) →
  printf_run tg str built args stack sink = Value (n, sink') →
  printf_DataBuffer_run tg str built {| data := Some mem; data_length := len |}
                        args stack sink =
    Value (to_size_t tg (3 * len + n + 2),
           sink' ++ (g <$> take len mem) ++ [literal CRLF]).
Proof.
  intros Hlen Hg Hrun. unfold printf_DataBuffer_run. cbn [data data_length].
  rewrite Hrun.
  change (literal " XX") with [chr " "; chr "X"; chr "X"; 0%Z].
  rewrite (dump_loop_groups g) by (rewrite ?Nat.sub_0_r, ?drop_0; done || lia).
  rewrite Nat.sub_0_r, drop_0, <- app_assoc. reflexivity.
Qed.
End DumpFacts.

(** X11. With a data pointer that is not null, the [DataBuffer] overload
    first makes the formatted call, then hands the sink one group per byte of
    the data, a blank, the hexadecimal digit of the upper nibble of the byte,
    the digit of the lower nibble and a terminator, and then ["\r\n"]. The
    count it returns is three per byte, plus the count of the formatted
    call, plus two, computed in [size_t]: the sum modulo [2 ^ N], [N] the
    bits of [size_t], which is the sum itself when that fits. This holds for
    bytes from 0 to 255 where plain [char] is unsigned and from 0 to 127
    where it is signed. *)
Theorem X11_dump_of_the_data (tg : Target) (str : list Z)
    (built : list SpecifierData * nat) (mem : list Z) (len : nat) (args : list Arg)
    (stack : nat → Z) (sink : list (list Z)) (n : nat) (sink' : list (list Z)) :
  len ≤ length mem →
  Forall (fun d => (0 <= d < (if char_is_signed tg then 128 else 256))%Z) (take len mem) →
  printf_run tg str built args stack sink = Value (n, sink') →
  printf_DataBuffer_run tg str built {| data := Some mem; data_length := len |}
                        args stack sink =
    Value (Z.to_nat (Z.of_nat (3 * len + n + 2) mod 2 ^ (8 * Z.of_nat (sizeof_size_t tg))),
           sink'
           ++ ((fun d => [chr " ";
                          default 0%Z (hex_digits !! Z.to_nat (d / 16));
                          default 0%Z (hex_digits !! Z.to_nat (d mod 16));
                          0%Z]) <$> take len mem)
           ++ [[13; 10; 0]%Z])
  ∧ ((Z.of_nat (3 * len + n + 2) < 2 ^ (8 * Z.of_nat (sizeof_size_t tg)))%Z →
     Z.to_nat (Z.of_nat (3 * len + n + 2) mod 2 ^ (8 * Z.of_nat (sizeof_size_t tg)))
     = 3 * len + n + 2).
Proof.
  intros Hlen Hbytes Hrun. split.
  - apply (printf_DataBuffer_run_groups tg dump_group); try done.
    eapply Forall_impl; [exact Hbytes|]. intros d Hd. by apply dump_byte.
  - apply to_size_t_small.
Qed.

(** Three bytes after ["len 3:"] on a 32-bit target, and the count of a
    dump of 21846 bytes where [size_t] has 16 bits. *)
Lemma X11_dump_example :
  printf_DataBuffer_run cortex_m (literal "len %u:")
    ([{| specifier := UnsignedDecimalInteger; width := 0; position := 4; size := 2 |}], 18)
    {| data := Some [1; 171; 18; 99]%Z; data_length := 3 |} [unsigned_arg 3] (stack_of 0) []
  = Value (18,
           [literal "len 3:" ++ replicate 11 0%Z;
            [chr " "; chr "0"; chr "1"; 0%Z];
            [chr " "; chr "A"; chr "B"; 0%Z];
            [chr " "; chr "1"; chr "2"; 0%Z];
            [13; 10; 0]%Z])
  ∧ Z.to_nat ((3 * 21846 + 1 + 2) mod 2 ^ (8 * 2))%Z = 5.
Proof.
  split; [|reflexivity].
  refine (proj1 (X11_dump_of_the_data cortex_m (literal "len %u:")
            ([{| specifier := UnsignedDecimalInteger; width := 0; position := 4;
                 size := 2 |}], 18)
            [1; 171; 18; 99]%Z 3 [unsigned_arg 3] (stack_of 0) [] 7
            [literal "len 3:" ++ replicate 11 0%Z] _ _ _)).
  - vm_compute. lia.
  - repeat constructor; vm_compute; congruence.
  - vm_compute. reflexivity.
Defined.



(** ** [wrappers::Wrap]: the loops of the constructor and of [operator+] *)

Lemma Wrap_copy_spec fuel src offset n i str :
  n - i < fuel → n ≤ length src → offset + n ≤ length str →
  Wrap_copy fuel src offset n i str =
    Some (list_inserts (offset + i) (take (n - i) (drop i src)) str).
Proof.
  revert i str. induction fuel as [|fuel IH]; intros i str Hfuel Hsrc Hfit; [lia|].
  cbn [Wrap_copy]. destruct (Nat.ltb_spec i n) as [Hlt|Hge].
  - destruct (lookup_lt_is_Some_2 src i ltac:(lia)) as [c Hc]. rewrite Hc.
    destruct (Nat.ltb_spec (i + offset) (length str)) as [_|]; [|lia].
    rewrite IH by (rewrite ?length_insert; lia).
    replace (n - i) with (S (n - S i)) by lia.
    rewrite (drop_S _ _ _ Hc). cbn [take list_inserts].
    rewrite list_insert_inserts_lt by lia.
    replace (offset + S i) with (S (offset + i)) by lia.
    by replace (i + offset) with (offset + i) by lia.
  - replace (n - i) with 0 by lia. reflexivity.
Qed.

Lemma inserts_over (A : Type) (l : list A) junk :
  list_inserts 0 l (replicate (length l) junk) = l.
Proof.
  rewrite <- (app_nil_r (replicate _ _)), list_inserts_0_r by (by rewrite length_replicate).
  apply app_nil_r.
Qed.

(** The constructor copies the array it is given. *)
Lemma Wrap_spec junk s : Wrap junk s = Some s.
Proof.
  unfold Wrap. rewrite Wrap_copy_spec by (rewrite ?length_replicate; lia).
  rewrite Nat.sub_0_r, drop_0, firstn_all. cbn [Nat.add]. by rewrite inserts_over.
Qed.

Lemma Wrap_plus_c_str a b : Wrap_plus (c_str a) (c_str b) = c_str (a ++ b).
Proof.
  unfold Wrap_plus. rewrite length_c_str. cbn [Nat.sub]. rewrite Nat.sub_0_r.
  unfold c_str. rewrite take_app_length. by rewrite <- app_assoc.
Qed.

(** X13. [Wrap::operator+] on a left array of at least one element: its
    loops copy all but the last element of the left array and then the whole
    right array, and the constructor copies the result, so the concatenation
    has [size - 1 + S::size] elements and none of the uninitialised ones
    survives. Of two terminated strings it is the terminated concatenation of
    their characters. *)
Theorem X13_Wrap_concatenates (junk : Z) (elems s : list Z) :
  0 < length elems →
  Wrap_operator_plus junk elems s = Some (take (length elems - 1) elems ++ s)
  ∧ length (take (length elems - 1) elems ++ s) = length elems - 1 + length s
  ∧ ∀ a b, elems = c_str a → s = c_str b →
           Wrap_operator_plus junk elems s = Some (c_str (a ++ b)).
Proof.
  intros Hsize.
  assert (Wrap_operator_plus junk elems s = Some (Wrap_plus elems s)) as Hplus.
  { unfold Wrap_operator_plus.
    rewrite Wrap_copy_spec by (rewrite ?length_replicate; lia).
    rewrite Wrap_copy_spec by (rewrite ?length_inserts, ?length_replicate; lia).
    rewrite !Nat.sub_0_r, !drop_0, firstn_all, !Nat.add_0_r. cbn [Nat.add].
    rewrite replicate_add.
    rewrite list_inserts_0_r by (rewrite length_take, length_replicate; lia).
    assert (length (take (length elems - 1) elems) = length elems - 1) as Htake
      by (rewrite length_take; lia).
    rewrite <- Htake at 1.
    rewrite <- (Nat.add_0_r (length (take _ elems))), list_inserts_app_r, inserts_over.
    apply Wrap_spec. }
  split; [exact Hplus|]. split.
  - rewrite length_app, length_take. lia.
  - intros a b -> ->. by rewrite Hplus, Wrap_plus_c_str.
Qed.

Lemma X13_Wrap_example :
  Wrap_operator_plus 63 (literal "ab") (literal CRLF)
  = Some (take (length (literal "ab") - 1) (literal "ab") ++ literal CRLF)
  ∧ length (take (length (literal "ab") - 1) (literal "ab") ++ literal CRLF)
    = length (literal "ab") - 1 + length (literal CRLF)
  ∧ ∀ a b, literal "ab" = c_str a → literal CRLF = c_str b →
           Wrap_operator_plus 63 (literal "ab") (literal CRLF) = Some (c_str (a ++ b)).
Proof.
  apply (X13_Wrap_concatenates 63 (literal "ab") (literal CRLF)).
  vm_compute. lia.
Defined.

(** ** The scan of a literal inside a longer one *)

Ltac reassoc := repeat first [rewrite <- app_assoc | progress cbn [app]]; reflexivity.
Ltac lengths := repeat first [rewrite length_app | progress cbn [length]]; lia.

Lemma shift_entry_0 entry : shift_entry 0 entry = entry.
Proof. by destruct entry. Qed.

Lemma fmap_shift_entry_0 (l : list SpecifierData) : shift_entry 0 <$> l = l.
Proof.
  induction l as [|e l IH]; [done|]. cbn [fmap list_fmap]. by rewrite shift_entry_0, IH.
Qed.

Lemma SpecifierQuantity_app a b :
  SpecifierQuantity (a ++ b) = SpecifierQuantity a + SpecifierQuantity b.
Proof.
  unfold SpecifierQuantity at 1. rewrite fold_left_app. apply SpecifierQuantity_acc.
Qed.

Lemma SpecifierQuantity_none l :
  Forall (fun c => c ≠ chr "%") l → SpecifierQuantity l = 0.
Proof.
  induction 1 as [|c l Hc _ IH]; [done|]. rewrite SpecifierQuantity_cons, IH.
  by destruct (Z.eqb_spec (chr "%") c).
Qed.

Lemma digit_run (l : list Z) :
  ∃ ds rest, l = ds ++ rest ∧ Forall (fun c => IsDigit c = true) ds
    ∧ match rest with [] => True | k :: _ => IsDigit k = false end.
Proof.
  induction l as [|c l IH]; [by exists [], []|].
  destruct IH as (ds & rest & -> & Hds & Hrest).
  destruct (IsDigit c) eqn:Hc.
  - exists (c :: ds), rest. split; [done|]. split; [by constructor|done].
  - exists [], (c :: ds ++ rest). split; [done|]. split; [constructor|done].
Qed.

Section EmbeddingFacts.
Context (tg : Target).

Lemma scan_entries_none fuel str i :
  (∀ j, i ≤ j → j < length str → char_at str j ≠ chr "%") →
  scan_entries tg fuel str i = [].
Proof.
  revert i. induction fuel as [|fuel IH]; intros i Hno; [done|].
  cbn [scan_entries]. destruct (Nat.ltb_spec i (length str)) as [Hi|]; [|done].
  destruct (Z.eqb_spec (chr "%") (char_at str i)) as [Hc|_].
  - exfalso. by apply (Hno i).
  - apply IH. intros j Hj. apply Hno. lia.
Qed.

Lemma scan_entries_skip_to str i m :
  i ≤ m → m ≤ length str → (∀ j, i ≤ j → j < m → char_at str j ≠ chr "%") →
  scan_entries tg (length str - i) str i = scan_entries tg (length str - m) str m.
Proof.
  intros Him. induction Him as [|m Him IH]; intros Hm Hno; [done|].
  rewrite IH by (try lia; intros j ? ?; apply Hno; lia).
  apply scan_entries_skip; [lia|apply Hno; lia].
Qed.

Lemma scan_at_specifier pre ds k post :
  Forall (fun c => IsDigit c = true) ds → IsDigit k = false →
  scan_entries tg (length (pre ++ chr "%" :: ds ++ k :: post) - length pre)
               (pre ++ chr "%" :: ds ++ k :: post) (length pre) =
    {| specifier := match_specifier k;
       width := (decimal_value ds mod 2 ^ unsigned_bits tg)%Z;
       position := length pre;
       size := length ds + 2 |}
    :: scan_entries tg (length (pre ++ chr "%" :: ds ++ k :: post)
                        - (length pre + 2 + length ds))
         (pre ++ chr "%" :: ds ++ k :: post) (length pre + 2 + length ds).
Proof.
  intros Hds Hk.
  rewrite scan_entries_specifier.
  - rewrite scan_specifier_run by done. cbn [fst snd].
    by replace (S (length pre + 1 + length ds)) with (length pre + 2 + length ds) by lia.
  - lengths.
  - apply char_at_middle.
Qed.

(** The literal [body] between a prefix [pre] and a tail [t0 :: X] that has
    no [%] and starts with a character that is neither a digit nor a kind. *)
Context (pre : list Z) (t0 : Z) (X : list Z).
Hypothesis (Hdigit : IsDigit t0 = false).
Hypothesis (Hkind : match_specifier t0 = Unknown).
Hypothesis (Hquiet : Forall (fun c => c ≠ chr "%") (t0 :: X)).

Lemma char_at_quiet seen j :
  length pre + length seen ≤ j → j < length (pre ++ seen ++ t0 :: X) →
  char_at (pre ++ seen ++ t0 :: X) j ≠ chr "%".
Proof.
  intros Hj Hlen. rewrite app_assoc, char_at_app_r by lengths.
  rewrite !length_app in Hlen. rewrite length_app.
  destruct (lookup_lt_is_Some_2 (t0 :: X) (j - (length pre + length seen)) ltac:(lia))
    as [c Hc].
  unfold char_at. rewrite Hc. cbn [default].
  by apply (Forall_lookup_1 _ _ _ _ Hquiet Hc).
Qed.

Lemma scan_entries_body_end seen :
  scan_entries tg (length (pre ++ seen ++ t0 :: X) - (length pre + length seen))
               (pre ++ seen ++ t0 :: X) (length pre + length seen) = []
  ∧ scan_entries tg (length (seen ++ [0%Z]) - length seen) (seen ++ [0%Z]) (length seen) = [].
Proof.
  split.
  - apply scan_entries_none. intros j ? ?. by apply char_at_quiet.
  - rewrite scan_entries_skip; [|lengths|by rewrite char_at_middle].
    by replace (length (seen ++ [0%Z]) - S (length seen)) with 0 by lengths.
Qed.

Lemma scan_entries_body n seen todo :
  length todo ≤ n →
  scan_entries tg (length (pre ++ seen ++ todo ++ t0 :: X) - (length pre + length seen))
               (pre ++ seen ++ todo ++ t0 :: X) (length pre + length seen)
  = shift_entry (length pre)
    <$> scan_entries tg (length (seen ++ todo ++ [0%Z]) - length seen)
                     (seen ++ todo ++ [0%Z]) (length seen).
Proof.
  revert seen todo. induction n as [|n IH]; intros seen todo Hn.
  { destruct todo; [|cbn [length] in Hn; lia]. cbn [app].
    destruct (scan_entries_body_end seen) as [-> ->]. done. }
  destruct todo as [|c todo].
  { cbn [app]. destruct (scan_entries_body_end seen) as [-> ->]. done. }
  cbn [length] in Hn.
  destruct (Z.eq_dec c (chr "%")) as [->|Hc].
  - destruct (digit_run todo) as (ds & rest & -> & Hds & Hrest).
    destruct rest as [|k post].
    + rewrite app_nil_r.
      replace (pre ++ seen ++ (chr "%" :: ds) ++ t0 :: X)
        with ((pre ++ seen) ++ chr "%" :: ds ++ t0 :: X) by reassoc.
      replace (seen ++ (chr "%" :: ds) ++ [0%Z])
        with (seen ++ chr "%" :: ds ++ 0%Z :: []) by reassoc.
      replace (length pre + length seen) with (length (pre ++ seen)) by lengths.
      rewrite (scan_at_specifier (pre ++ seen) ds t0 X) by done.
      rewrite (scan_at_specifier seen ds 0%Z []) by done.
      cbn [fmap list_fmap]. f_equal.
      * unfold shift_entry. cbn [specifier width position size].
        rewrite Hkind, length_app. reflexivity.
      * replace (length (seen ++ chr "%" :: ds ++ [0%Z]) - (length seen + 2 + length ds))
          with 0 by lengths.
        cbn [scan_entries fmap list_fmap].
        apply scan_entries_none. intros j Hj Hlen.
        replace ((pre ++ seen) ++ chr "%" :: ds ++ t0 :: X)
          with (pre ++ (seen ++ chr "%" :: ds) ++ t0 :: X) in * by reassoc.
        apply char_at_quiet; [|done]. revert Hj. lengths.
    + replace (pre ++ seen ++ (chr "%" :: ds ++ k :: post) ++ t0 :: X)
        with ((pre ++ seen) ++ chr "%" :: ds ++ k :: (post ++ t0 :: X)) by reassoc.
      replace (seen ++ (chr "%" :: ds ++ k :: post) ++ [0%Z])
        with (seen ++ chr "%" :: ds ++ k :: (post ++ [0%Z])) by reassoc.
      replace (length pre + length seen) with (length (pre ++ seen)) by lengths.
      rewrite (scan_at_specifier (pre ++ seen) ds k (post ++ t0 :: X)) by done.
      rewrite (scan_at_specifier seen ds k (post ++ [0%Z])) by done.
      cbn [fmap list_fmap]. f_equal.
      * unfold shift_entry. cbn [specifier width position size].
        rewrite length_app. reflexivity.
      * replace ((pre ++ seen) ++ chr "%" :: ds ++ k :: (post ++ t0 :: X))
          with (pre ++ (seen ++ chr "%" :: ds ++ [k]) ++ post ++ t0 :: X) by reassoc.
        replace (seen ++ chr "%" :: ds ++ k :: (post ++ [0%Z]))
          with ((seen ++ chr "%" :: ds ++ [k]) ++ post ++ [0%Z]) by reassoc.
        replace (length (pre ++ seen) + 2 + length ds)
          with (length pre + length (seen ++ chr "%" :: ds ++ [k])) by lengths.
        replace (length seen + 2 + length ds)
          with (length (seen ++ chr "%" :: ds ++ [k])) by lengths.
        apply IH. revert Hn. lengths.
  - rewrite (scan_entries_skip tg (pre ++ seen ++ (c :: todo) ++ t0 :: X));
      [|lengths|].
    2:{ rewrite app_assoc.
        replace (length pre + length seen) with (length (pre ++ seen)) by lengths.
        cbn [app]. by rewrite char_at_middle. }
    rewrite (scan_entries_skip tg (seen ++ (c :: todo) ++ [0%Z]));
      [|lengths|cbn [app]; by rewrite char_at_middle].
    replace (pre ++ seen ++ (c :: todo) ++ t0 :: X)
      with (pre ++ (seen ++ [c]) ++ todo ++ t0 :: X) by reassoc.
    replace (seen ++ (c :: todo) ++ [0%Z])
      with ((seen ++ [c]) ++ todo ++ [0%Z]) by reassoc.
    replace (S (length pre + length seen))
      with (length pre + length (seen ++ [c])) by lengths.
    replace (S (length seen)) with (length (seen ++ [c])) by lengths.
    apply IH. lia.
Qed.

(** The whole scan, from the start of the body. *)
Lemma scan_entries_inside body :
  scan_entries tg (length (pre ++ body ++ t0 :: X) - length pre)
               (pre ++ body ++ t0 :: X) (length pre)
  = shift_entry (length pre) <$> scan_entries tg (length (c_str body)) (c_str body) 0.
Proof.
  pose proof (scan_entries_body (length body) [] body ltac:(lia)) as H.
  cbn [app length] in H. rewrite Nat.add_0_r, Nat.sub_0_r in H. exact H.
Qed.
End EmbeddingFacts.

(** ** The output of a literal inside a longer one *)

Lemma literal_span_app_l body X from upto :
  upto ≤ length body → literal_span (body ++ X) from upto = literal_span body from upto.
Proof.
  intros Hupto. unfold literal_span.
  destruct (decide (from ≤ length body)) as [Hle|Hgt].
  - rewrite drop_app_le by done. apply take_app_le. rewrite length_drop. lia.
  - replace (upto - from) with 0 by lia. by rewrite !take_0.
Qed.

Lemma literal_span_shift pre r from upto :
  literal_span (pre ++ r) (length pre + from) (length pre + upto) = literal_span r from upto.
Proof.
  unfold literal_span. rewrite drop_app_add. f_equal. lia.
Qed.

(** Entries of known kinds lie before the terminator, so the output of the
    body does not depend on what follows it. *)
Lemma rendered_tail tg body X table args cursor :
  well_placed (c_str body) cursor table →
  Forall (fun d => specifier d ≠ Unknown) table →
  cursor ≤ length body →
  rendered tg (body ++ X) table args cursor = rendered tg body table args cursor ++ X.
Proof.
  intros Hplaced. revert args.
  induction Hplaced as [cursor _|cursor entry entries Hc _ Hend _ IH];
    intros args Hknown Hcursor.
  - cbn [rendered]. by rewrite drop_app_le.
  - apply Forall_cons in Hknown as [Hk Hknown]. specialize (Hend Hk).
    rewrite length_c_str in Hend.
    destruct args as [|a args]; cbn [rendered]; [by rewrite drop_app_le|].
    rewrite literal_span_app_l, IH by (done || lia). by rewrite <- !app_assoc.
Qed.

Lemma rendered_shift tg pre r table args cursor :
  rendered tg (pre ++ r) (shift_entry (length pre) <$> table) args (length pre + cursor)
  = rendered tg r table args cursor.
Proof.
  revert args cursor. induction table as [|entry table IH]; intros args cursor.
  - cbn [fmap list_fmap rendered]. apply drop_app_add.
  - destruct args as [|a args]; cbn [fmap list_fmap rendered]; [apply drop_app_add|].
    cbn [shift_entry position size]. rewrite literal_span_shift.
    rewrite <- Nat.add_assoc, IH. reflexivity.
Qed.

(** A literal with the same table and [d] more bytes builds with [d] more
    bytes of buffer. *)
Lemma printf_build_longer tg str str' d First Rest table capacity :
  SpecifierQuantity str' = SpecifierQuantity str →
  SpecifierTable tg (SpecifierQuantity str) str'
  = SpecifierTable tg (SpecifierQuantity str) str →
  length str' = length str + d →
  printf_build tg str (First :: Rest) = Built (table, capacity) →
  printf_build tg str' (First :: Rest) = Built (table, capacity + d).
Proof.
  intros Hq Ht Hl. unfold printf_build, printf_static. rewrite Hq, Ht, Hl.
  destruct (_ =? _); [|done].
  destruct (checkWidth _); [|done].
  destruct (CheckSpecsTypes _ _ _ _) as [sum|]; [|done].
  destruct (forallb _ _); [|done].
  intros [= <- <-]. do 2 f_equal. lia.
Qed.

(** The table of a literal does not change when ["\r\n"] is put before its
    terminator. *)
Lemma println_table tg body N :
  SpecifierQuantity (c_str (body ++ [13; 10]%Z)) = SpecifierQuantity (c_str body)
  ∧ SpecifierTable tg N (c_str (body ++ [13; 10]%Z)) = SpecifierTable tg N (c_str body).
Proof.
  split.
  - unfold c_str. by rewrite !SpecifierQuantity_app.
  - rewrite !SpecifierTable_inserts. f_equal.
    pose proof (scan_entries_inside tg [] 13%Z [10; 0]%Z eq_refl eq_refl
                  ltac:(repeat constructor; by vm_compute) body) as H.
    cbn [app length] in H. rewrite Nat.sub_0_r in H.
    replace (c_str (body ++ [13; 10]%Z)) with (body ++ [13; 10; 0]%Z)
      by (unfold c_str; reassoc).
    rewrite H. apply fmap_shift_entry_0.
Qed.

(** X14. [println] is [printf] with ["\r\n"] put before the terminator of
    the literal at compile time. Without arguments, for every literal, it
    hands the sink the extended literal and returns its size. With
    arguments, for a call for which [printf] on the same literal builds, on
    argument values the render routines are defined on and with every width
    within the digits planned for its argument, it builds with two more
    bytes of buffer, emits the same characters followed by ["\r\n"] and the
    terminator, and returns two more. *)
Theorem X14_println_appends_the_line_end (tg : Target) (body : list Z)
    (stack : nat → Z) (sink : list (list Z)) :
  println tg (c_str body) [] stack sink =
    Built (Value (length body + 3, sink ++ [body ++ [13; 10; 0]%Z]))
  ∧ ∀ first rest table capacity,
      printf_build tg (c_str body) (arg_type <$> first :: rest) = Built (table, capacity) →
      Forall (fun a => arg_defined tg a ∧ 0 < sizeof tg (arg_type a)) (first :: rest) →
      Forall2 (fun entry a =>
                 (width entry <= Z.of_nat (digits_bound (sizeof tg (arg_type a))))%Z)
              table (first :: rest) →
      ∃ msg buffer buffer',
        printf tg (c_str body) (first :: rest) stack sink =
          Built (Value (length msg + 1, sink ++ [buffer]))
        ∧ take (length msg + 1) buffer = msg ++ [0%Z]
        ∧ println tg (c_str body) (first :: rest) stack sink =
            Built (Value (length msg + 3, sink ++ [buffer']))
        ∧ take (length msg + 3) buffer' = msg ++ [13; 10; 0]%Z
        ∧ length buffer' = length buffer + 2.
Proof.
  assert (Wrap_plus (c_str body) (literal CRLF) = c_str (body ++ [13; 10]%Z)) as Hstr
    by apply (Wrap_plus_c_str body [13; 10]%Z).
  assert (c_str (body ++ [13; 10]%Z) = body ++ [13; 10; 0]%Z) as Hstr'
    by (unfold c_str; reassoc).
  split.
  { unfold println, printf. rewrite Hstr. cbn [fmap list_fmap printf_build Build_map printf_run].
    rewrite Hstr' at 2. do 3 f_equal. rewrite length_c_str, length_app. cbn [length]. lia. }
  intros first rest table capacity Hbuild Hargs Hwidths.
  assert (Forall (arg_defined tg) (first :: rest)) as Hdef
    by (eapply Forall_impl; [exact Hargs|by intros a [? ?]]).
  pose proof (printf_fits tg body first rest table capacity Hbuild) as Hfit.
  specialize (Hfit ltac:(eapply Forall_impl; [exact Hargs|]; by intros a [[? ?] ?]) Hwidths).
  pose proof Hbuild as Hplaced. cbn [fmap list_fmap] in Hplaced.
  apply printf_build_well_placed in Hplaced.
  pose proof Hbuild as Hknown. cbn [fmap list_fmap] in Hknown.
  apply printf_build_inv in Hknown as (Htable & _ & _ & _ & Hknown).
  apply defined_known in Hknown.
  set (msg := rendered tg body table (first :: rest) 0).
  assert (rendered tg (c_str body) table (first :: rest) 0 = msg ++ [0%Z]) as Hout
    by (apply rendered_tail; done || lia).
  assert (rendered tg (c_str (body ++ [13; 10]%Z)) table (first :: rest) 0
          = msg ++ [13; 10; 0]%Z) as Hout'
    by (rewrite Hstr'; apply rendered_tail; done || lia).
  assert (printf_build tg (c_str (body ++ [13; 10]%Z)) (arg_type <$> first :: rest)
          = Built (table, capacity + 2)) as Hbuild'.
  { destruct (println_table tg body (SpecifierQuantity (c_str body))) as [Hq Ht].
    cbn [fmap list_fmap] in *.
    apply (printf_build_longer tg (c_str body)); try done.
    rewrite !length_c_str, length_app. cbn [length]. lia. }
  rewrite Hout in Hfit.
  destruct (printf_rendered tg body first rest stack sink table capacity Hbuild Hdef)
    as [_ Hrun]; [by rewrite Hout|].
  destruct (printf_rendered tg (body ++ [13; 10]%Z) first rest stack sink table
              (capacity + 2) Hbuild' Hdef) as [_ Hrun'].
  { rewrite Hout'. rewrite !length_app in *. cbn [length] in *. lia. }
  rewrite Hout in Hrun. rewrite Hout' in Hrun'.
  eexists msg, _, _. split; [|split; [|split; [|split]]].
  - rewrite Hrun. do 3 f_equal. rewrite length_app. cbn [length]. lia.
  - replace (length msg + 1) with (length (msg ++ [0%Z])) by lengths.
    apply take_inserts_0. by rewrite length_uninitialised.
  - unfold println. rewrite Hstr, Hrun'. do 3 f_equal. rewrite length_app. cbn [length]. lia.
  - replace (length msg + 3) with (length (msg ++ [13; 10; 0]%Z)) by lengths.
    apply take_inserts_0. rewrite length_uninitialised.
    rewrite !length_app in *. cbn [length] in *. lia.
  - by rewrite !length_inserts, !length_uninitialised.
Qed.

(** ["Hello"] without arguments goes out as ["Hello\r\n"]; ["%d"] with -555
    goes out as ["-555\r\n"]. *)
Lemma X14_println_example :
  println cortex_m (literal "Hello") [] (stack_of 0) [] =
    Built (Value (5 + 3, [] ++ [[chr "H"; chr "e"; chr "l"; chr "l"; chr "o"; 13; 10; 0]%Z]))
  ∧ ∃ msg buffer buffer',
      printf cortex_m (c_str [chr "%"; chr "d"]) [int_arg (-555)] (stack_of 0) [] =
        Built (Value (length msg + 1, [] ++ [buffer]))
      ∧ take (length msg + 1) buffer = msg ++ [0%Z]
      ∧ println cortex_m (c_str [chr "%"; chr "d"]) [int_arg (-555)] (stack_of 0) [] =
          Built (Value (length msg + 3, [] ++ [buffer']))
      ∧ take (length msg + 3) buffer' = msg ++ [13; 10; 0]%Z
      ∧ length buffer' = length buffer + 2.
Proof.
  split.
  - exact (proj1 (X14_println_appends_the_line_end
                    cortex_m (chr <$> list_ascii_of_string "Hello") (stack_of 0) [])).
  - refine (proj2 (X14_println_appends_the_line_end cortex_m [chr "%"; chr "d"]
                     (stack_of 0) [])
                  (int_arg (-555)) []
                  [{| specifier := SignedDecimalInteger; width := 0;
                      position := 0; size := 2 |}] 14 _ _ _).
    + vm_compute. reflexivity.
    + repeat constructor; vm_compute; congruence || lia.
    + repeat constructor. vm_compute. congruence.
Defined.

(** ** [Log]: the literals its functions format *)

Lemma printf_grows tg str args stack sink s :
  void (printf tg str args stack sink) = Built (Value s) → ∃ buffer, s = sink ++ [buffer].
Proof.
  unfold printf, void.
  destruct (printf_build tg str (arg_type <$> args)) as [| |[table capacity]];
    cbn [Build_map]; try done.
  destruct args as [|first rest]; cbn [printf_run].
  - intros [= <-]. by eexists.
  - destruct (parse _ _ _ _ _ _ _ _) as [[[? ?] ?]| |]; try done.
    intros [= <-]. by eexists.
Qed.

Lemma printf_not_silent tg str args stack sink :
  void (printf tg str args stack sink) ≠ Built (Value sink).
Proof.
  intros H. apply printf_grows in H as [buffer H].
  apply (f_equal length) in H. rewrite length_app in H. cbn [length] in H. lia.
Qed.

Lemma highlight_strings col :
  cyan (TraceHighlight_of col) = c_str (opening col f_fatal)
  ∧ red (TraceHighlight_of col) = c_str (opening col f_error)
  ∧ yellow (TraceHighlight_of col) = c_str (opening col f_warning)
  ∧ ∀ f, coloured f = true → def (TraceHighlight_of col) = c_str (closing col f).
Proof.
  destruct col; (split; [done|split; [done|split; [done|]]]); by intros [].
Qed.

(** Every function of [Log] is, when enabled, [println] on its literal and
    the time stamp; the literal is terminated when the component name and
    the literal of the caller are. *)
Lemma Log_call_unfold tg lg f comp body args tick stack sink :
  Log_component lg = c_str comp →
  Log_call tg lg f (c_str body) args tick stack sink =
    if enabled lg f
    then void (printf tg (c_str (Log_format (Log_colour lg) f comp body
                                 ++ closing (Log_colour lg) f ++ chars CRLF))
                      (tick :: args) stack sink)
    else Built (Value sink).
Proof.
  intros Hcomp.
  destruct (highlight_strings (Log_colour lg)) as (Hcyan & Hred & Hyellow & Hdef).
  destruct f; unfold Log_call, Log_message, Log_fatal, Log_error, Log_warning, Log_info,
    Log_debug, Log_trace, enabled, severity, Trace_ge, println, String_plus;
    rewrite Hcomp, ?Hcyan, ?Hred, ?Hyellow;
    try rewrite (Hdef f_fatal eq_refl);
    unfold literal; rewrite !Wrap_plus_c_str;
    unfold Log_format, label, chars;
    try (destruct (_ <=? _); [|done]);
    destruct (Log_colour lg);
    cbn [opening closing chars list_ascii_of_string fmap list_fmap app];
    reassoc.
Qed.

(** The [DataBuffer] overloads format the same literal without the closing
    colour code, which the three coloured ones print in a call of its own. *)
Lemma Log_call_DataBuffer_unfold tg lg f comp body dataBuffer args tick stack sink :
  Log_component lg = c_str comp →
  Log_call_DataBuffer tg lg f (c_str body) dataBuffer args tick stack sink =
    if enabled lg f then
      if coloured f
      then then_printf tg
             (printf_DataBuffer tg (c_str (Log_format (Log_colour lg) f comp body))
                                dataBuffer (tick :: args) stack sink)
             (c_str (closing (Log_colour lg) f)) stack
      else void (printf_DataBuffer tg (c_str (Log_format (Log_colour lg) f comp body))
                                   dataBuffer (tick :: args) stack sink)
    else Built (Value sink).
Proof.
  intros Hcomp.
  destruct (highlight_strings (Log_colour lg)) as (Hcyan & Hred & Hyellow & Hdef).
  destruct f; unfold Log_call_DataBuffer, Log_message_DataBuffer, Log_fatal_DataBuffer,
    Log_error_DataBuffer, Log_warning_DataBuffer, Log_info_DataBuffer,
    Log_debug_DataBuffer, Log_trace_DataBuffer, enabled, severity, Trace_ge, String_plus,
    coloured;
    rewrite Hcomp, ?Hcyan, ?Hred, ?Hyellow;
    try rewrite (Hdef f_fatal eq_refl);
    unfold literal; rewrite !Wrap_plus_c_str;
    unfold Log_format, label, chars;
    try (destruct (_ <=? _); [|done]);
    destruct (Log_colour lg);
    cbn [opening closing chars list_ascii_of_string fmap list_fmap app];
    reassoc.
Qed.

(** ** [Log]: levels *)

(** X15. A function of [Log] whose severity is below the level of the
    logger does nothing: the call is discarded at compile time with its
    literal and arguments unchecked, and the sink is left as it was. For the
    [println] based functions the converse holds as well: an enabled call
    that builds and returns has handed the sink a buffer. [message] has no
    severity and is never discarded. *)
Theorem X15_levels_below_are_silent (tg : Target) (lg : Log) (f : LogFunction)
    (S : list Z) (dataBuffer : DataBuffer) (args : list Arg) (tick : Arg)
    (stack : nat → Z) (sink : list (list Z)) :
  (Log_call tg lg f S args tick stack sink = Built (Value sink) ↔ enabled lg f = false)
  ∧ (enabled lg f = false →
     Log_call_DataBuffer tg lg f S dataBuffer args tick stack sink = Built (Value sink))
  ∧ (enabled lg f = false ↔
     ∃ sev, severity f = Some sev ∧ Trace_value sev < Trace_value (Log_level lg)).
Proof.
  split; [|split].
  - destruct f; unfold Log_call, Log_message, Log_fatal, Log_error, Log_warning,
      Log_info, Log_debug, Log_trace, enabled, severity, Trace_ge, println;
      try destruct (_ <=? _); split; intros H; try done;
      by apply printf_not_silent in H.
  - destruct f; unfold Log_call_DataBuffer, Log_message_DataBuffer, Log_fatal_DataBuffer,
      Log_error_DataBuffer, Log_warning_DataBuffer, Log_info_DataBuffer,
      Log_debug_DataBuffer, Log_trace_DataBuffer, enabled, severity, Trace_ge;
      try destruct (_ <=? _); done.
  - unfold enabled. destruct (severity f) as [sev|]; split.
    + intros H%Nat.leb_gt. exists sev. split; [done|lia].
    + intros (sev' & [= <-] & Hlt). by apply Nat.leb_gt.
    + done.
    + by intros (sev & [=] & _).
Qed.

Lemma X15_levels_example :
  Log_call cortex_m
    {| Log_level := Trace_Warn; Log_colour := Enabled; Log_component := literal "UART" |}
    f_info (literal "%d %z") [] (unsigned_arg 1500) (stack_of 0) [] = Built (Value [])
  ∧ Log_call cortex_m
      {| Log_level := Trace_Info; Log_colour := Enabled; Log_component := literal "UART" |}
      f_info (literal "%d %z") [] (unsigned_arg 1500) (stack_of 0) [] = CompileError.
Proof.
  split; [|vm_compute; reflexivity].
  apply (X15_levels_below_are_silent cortex_m
           {| Log_level := Trace_Warn; Log_colour := Enabled;
              Log_component := literal "UART" |}
           f_info (literal "%d %z") {| data := None; data_length := 0 |} []
           (unsigned_arg 1500) (stack_of 0) []).
  reflexivity.
Defined.

(** X16. With a null data pointer, a [DataBuffer] overload of [Log] that
    builds emits no line. The overloads of [fatal], [error] and [warning],
    when enabled, still make their second call, which hands the sink the
    colour reset string (the empty string when the highlight is disabled);
    the others leave the sink as it was. No such call runs into undefined
    behaviour. *)
Theorem X16_null_data_in_a_log_call (tg : Target) (lg : Log) (f : LogFunction)
    (S : list Z) (len : nat) (args : list Arg) (tick : Arg)
    (stack : nat → Z) (sink : list (list Z)) :
  Log_call_DataBuffer tg lg f S {| data := None; data_length := len |} args tick stack sink
  ∈ [CompileError; LinkError;
     Built (Value (sink ++ (if enabled lg f && coloured f
                            then [def (TraceHighlight_of (Log_colour lg))]
                            else [])))].
Proof.
  destruct f; unfold Log_call_DataBuffer, Log_message_DataBuffer, Log_fatal_DataBuffer,
    Log_error_DataBuffer, Log_warning_DataBuffer, Log_info_DataBuffer,
    Log_debug_DataBuffer, Log_trace_DataBuffer, enabled, severity, Trace_ge, coloured;
    try destruct (_ <=? _); cbn [andb]; rewrite ?app_nil_r;
    try (repeat constructor; fail);
    unfold then_printf, void, printf_DataBuffer;
    destruct (printf_build _ _ _) as [| |built]; cbn [Build_map];
    repeat constructor.
Qed.

Lemma X16_null_data_example :
  Log_call_DataBuffer cortex_m
    {| Log_level := Trace_All; Log_colour := Disabled; Log_component := literal "" |}
    f_error (literal "rx") {| data := None; data_length := 4 |} [] (unsigned_arg 7)
    (stack_of 0) []
  ∈ [CompileError; LinkError; Built (Value ([] ++ [[0%Z]]))].
Proof.
  apply (X16_null_data_in_a_log_call cortex_m
           {| Log_level := Trace_All; Log_colour := Disabled;
              Log_component := literal "" |}
           f_error (literal "rx") 4 [] (unsigned_arg 7) (stack_of 0) []).
Defined.

(** ** [Log]: the time stamp *)

Lemma char_at_prefix_quiet pre X j :
  Forall (fun c => c ≠ chr "%") pre → j < length pre → char_at (pre ++ X) j ≠ chr "%".
Proof.
  intros Hpre Hj. unfold char_at. rewrite lookup_app_l by done.
  destruct (lookup_lt_is_Some_2 pre j Hj) as [c Hc]. rewrite Hc. cbn [default].
  by apply (Forall_lookup_1 _ _ _ _ Hpre Hc).
Qed.

Lemma opening_quiet col f : Forall (fun c => c ≠ chr "%") (opening col f ++ chars "[").
Proof. destruct col, f; repeat constructor; vm_compute; congruence. Qed.

(** The first specifier of every literal of [Log] is the [%t] of the time
    stamp. *)
Lemma Log_format_occurrence tg col f comp body rest :
  specifier_occurrence tg (c_str (Log_format col f comp body ++ rest)) 0
    (opening col f ++ chars "[") [] (chr "t")
    (chars "] " ++ chars (label f) ++ chars " " ++ comp ++ chars ": " ++ body ++ rest
     ++ [0%Z]).
Proof.
  assert (c_str (Log_format col f comp body ++ rest)
          = (opening col f ++ chars "[") ++ chr "%" :: [] ++ chr "t"
            :: (chars "] " ++ chars (label f) ++ chars " " ++ comp ++ chars ": " ++ body
                ++ rest ++ [0%Z])) as Hstr.
  { unfold c_str, Log_format. unfold chars at 1 6.
    cbn [list_ascii_of_string fmap list_fmap]. reassoc. }
  split; [exact Hstr|]. split; [constructor|]. split; [reflexivity|].
  apply reaches_first.
  - rewrite Hstr. lengths.
  - intros j Hj. rewrite Hstr. apply char_at_prefix_quiet; [apply opening_quiet|done].
Qed.

Lemma Log_format_tick_rejected tg col f comp body rest ty Rest :
  SpecCheck_valid tg Time ty = false →
  printf_build tg (c_str (Log_format col f comp body ++ rest)) (ty :: Rest) = CompileError.
Proof.
  intros Hty. unfold printf_build.
  rewrite (printf_static_type_mismatch tg _ 0 _ _ _ _ ty Rest ty
             (Log_format_occurrence tg col f comp body rest)); try done.
Qed.

(** X17. The first specifier of the literal every function of [Log] formats
    is the [%t] of the time stamp, and the value of [out.tick()] is its
    argument: an enabled call on a logger whose tick type [%t] does not
    accept (a signed type, or an unsigned one narrower than [size_t]) does
    not compile, whatever the literal and the arguments of the caller. *)
Theorem X17_tick_type_is_checked (tg : Target) (lg : Log) (f : LogFunction)
    (comp body : list Z) (dataBuffer : DataBuffer) (args : list Arg) (tick : Arg)
    (stack : nat → Z) (sink : list (list Z)) :
  Log_component lg = c_str comp →
  enabled lg f = true →
  SpecCheck_valid tg Time (arg_type tick) = false →
  Log_call tg lg f (c_str body) args tick stack sink = CompileError
  ∧ Log_call_DataBuffer tg lg f (c_str body) dataBuffer args tick stack sink = CompileError.
Proof.
  intros Hcomp Hon Htick.
  rewrite (Log_call_unfold tg lg f comp), (Log_call_DataBuffer_unfold tg lg f comp), Hon
    by done.
  unfold printf, printf_DataBuffer. cbn [fmap list_fmap].
  rewrite Log_format_tick_rejected by done.
  rewrite <- (app_nil_r (Log_format _ _ _ _)), Log_format_tick_rejected by done.
  cbn [Build_map void then_printf]. by destruct (coloured f).
Qed.

Lemma X17_tick_type_example :
  Log_call cortex_m
    {| Log_level := Trace_All; Log_colour := Disabled; Log_component := c_str (chars "UART") |}
    f_info (c_str (chars "up")) [] {| arg_type := Integral false 2; arg_value := 15 |}
    (stack_of 0) [] = CompileError
  ∧ Log_call_DataBuffer cortex_m
      {| Log_level := Trace_All; Log_colour := Disabled;
         Log_component := c_str (chars "UART") |}
      f_info (c_str (chars "up")) {| data := None; data_length := 0 |} []
      {| arg_type := Integral false 2; arg_value := 15 |} (stack_of 0) [] = CompileError.
Proof.
  refine (X17_tick_type_is_checked cortex_m
            {| Log_level := Trace_All; Log_colour := Disabled;
               Log_component := c_str (chars "UART") |}
            f_info (chars "UART") (chars "up") {| data := None; data_length := 0 |} []
            {| arg_type := Integral false 2; arg_value := 15 |} (stack_of 0) [] _ _ _);
    reflexivity.
Defined.

(** ** [Log]: the line a call emits *)

Section LogLineFacts.
Context (tg : Target).

Lemma CheckSpecsTypes_passes seen todo First Rest :
  Forall2 (fun entry ty => SpecCheck_static_assert tg (specifier entry) ty = true)
          todo (First :: Rest) →
  ∃ sum, CheckSpecsTypes tg (seen ++ todo) First Rest = Some sum.
Proof.
  revert seen todo First.
  induction Rest as [|Second Rest IH]; intros seen todo First Hall;
    apply Forall2_cons_inv_r in Hall as (entry & todo' & Hassert & Hall & ->);
    pose proof (Forall2_length _ _ _ Hall) as Hlen;
    cbn [CheckSpecsTypes]; rewrite length_app; cbn [length] in *;
    match goal with
    | |- context [(seen ++ entry :: todo') !! ?n] => replace n with (length seen) by lia
    end;
    rewrite list_lookup_middle by done; rewrite Hassert.
  - by eexists.
  - destruct (IH (seen ++ [entry]) todo' Second Hall) as [sum Hsum].
    rewrite <- app_assoc in Hsum. cbn [app] in Hsum. rewrite Hsum. by eexists.
Qed.

Lemma quiet_tail T :
  Forall (fun c => c ≠ chr "%") T →
  IsDigit (hd 0%Z T) = false → match_specifier (hd 0%Z T) = Unknown →
  ∃ t0 X, T ++ [0%Z] = t0 :: X ∧ IsDigit t0 = false ∧ match_specifier t0 = Unknown
          ∧ Forall (fun c => c ≠ chr "%") (t0 :: X).
Proof.
  intros HT Hd Hk. destruct T as [|c T]; cbn [hd] in *.
  - exists 0%Z, []. repeat split; try done. by repeat constructor.
  - exists c, (T ++ [0%Z]). repeat split; try done.
    apply Forall_cons in HT as [Hc HT]. constructor; [done|].
    apply Forall_app. split; [done|]. by repeat constructor.
Qed.

(** A literal made of a prefix [P] without [%], the time specifier, a
    middle part [Q] without [%], the literal [body] of the caller and a tail
    [T] as above. *)
Context (P Q body T : list Z).
Hypothesis (HP : Forall (fun c => c ≠ chr "%") P).
Hypothesis (HQ : Forall (fun c => c ≠ chr "%") Q).
Hypothesis (HT : Forall (fun c => c ≠ chr "%") T).
Hypothesis (HTd : IsDigit (hd 0%Z T) = false).
Hypothesis (HTk : match_specifier (hd 0%Z T) = Unknown).

Lemma Log_scan :
  scan_entries tg (length (c_str (P ++ chr "%" :: chr "t" :: Q ++ body ++ T)))
               (c_str (P ++ chr "%" :: chr "t" :: Q ++ body ++ T)) 0
  = {| specifier := Time; width := 0; position := length P; size := 2 |}
    :: (shift_entry (length P + 2 + length Q)
        <$> scan_entries tg (length (c_str body)) (c_str body) 0).
Proof.
  destruct (quiet_tail T HT HTd HTk) as (t0 & X & HTX & Hd & Hk & Hquiet).
  set (str := c_str (P ++ chr "%" :: chr "t" :: Q ++ body ++ T)).
  assert (str = P ++ chr "%" :: [] ++ chr "t" :: (Q ++ body ++ t0 :: X)) as Hstr1.
  { unfold str, c_str. rewrite <- HTX. reassoc. }
  assert (str = (P ++ chr "%" :: chr "t" :: Q) ++ body ++ t0 :: X) as Hstr2.
  { rewrite Hstr1. reassoc. }
  assert (length str = length P + 2 + length Q + length body + S (length X)) as Hlen.
  { rewrite Hstr2. lengths. }
  rewrite <- (Nat.sub_0_r (length str)) at 1.
  rewrite (scan_entries_skip_to tg str 0 (length P)); [|lia|lia|].
  2:{ intros j _ Hj. rewrite Hstr1. by apply char_at_prefix_quiet. }
  rewrite Hstr1 at 1 2. rewrite scan_at_specifier by done. rewrite <- Hstr1.
  assert ((decimal_value [] mod 2 ^ unsigned_bits tg)%Z = 0%Z) as -> by apply Zmod_0_l.
  change (match_specifier (chr "t")) with Time.
  cbn [length]. rewrite Nat.add_0_r. f_equal.
  rewrite (scan_entries_skip_to tg str (length P + 2) (length P + 2 + length Q));
    [|lia|lia|].
  2:{ intros j Hj1 Hj2. rewrite Hstr1.
      replace (P ++ chr "%" :: [] ++ chr "t" :: Q ++ body ++ t0 :: X)
        with ((P ++ [chr "%"; chr "t"]) ++ Q ++ body ++ t0 :: X) by reassoc.
      rewrite char_at_app_r by lengths.
      apply char_at_prefix_quiet; [done|]. revert Hj1 Hj2. lengths. }
  replace (length P + 2 + length Q) with (length (P ++ chr "%" :: chr "t" :: Q))
    by lengths.
  rewrite Hstr2. by apply scan_entries_inside.
Qed.

Lemma Log_quantity :
  SpecifierQuantity (c_str (P ++ chr "%" :: chr "t" :: Q ++ body ++ T))
  = S (SpecifierQuantity (c_str body)).
Proof.
  unfold c_str.
  rewrite !SpecifierQuantity_app, !SpecifierQuantity_cons, !SpecifierQuantity_app.
  rewrite (SpecifierQuantity_none P), (SpecifierQuantity_none Q), (SpecifierQuantity_none T)
    by done.
  change (chr "%" =? chr "%")%Z with true. change (chr "%" =? chr "t")%Z with false.
  change (chr "%" =? 0)%Z with false. change (SpecifierQuantity []) with 0.
  cbv iota. lia.
Qed.

Lemma Log_rendered args tick :
  Forall (fun d => specifier d ≠ Unknown)
         (scan_entries tg (length (c_str body)) (c_str body) 0) →
  rendered tg (c_str (P ++ chr "%" :: chr "t" :: Q ++ body ++ T))
           ({| specifier := Time; width := 0; position := length P; size := 2 |}
            :: (shift_entry (length P + 2 + length Q)
                <$> scan_entries tg (length (c_str body)) (c_str body) 0))
           (tick :: args) 0
  = P ++ time_rendering (arg_value tick) ++ Q
    ++ rendered tg body (scan_entries tg (length (c_str body)) (c_str body) 0) args 0
    ++ T ++ [0%Z].
Proof.
  intros Hknown.
  set (tb := scan_entries tg (length (c_str body)) (c_str body) 0) in *.
  assert (well_placed (c_str body) 0 tb) as Hplaced
    by (apply scan_entries_well_placed; lia).
  cbn [rendered position size rendering specifier].
  assert (c_str (P ++ chr "%" :: chr "t" :: Q ++ body ++ T)
          = (P ++ chr "%" :: chr "t" :: Q) ++ body ++ T ++ [0%Z]) as Hstr
    by (unfold c_str; reassoc).
  assert (literal_span (c_str (P ++ chr "%" :: chr "t" :: Q ++ body ++ T)) 0 (length P) = P)
    as ->.
  { unfold literal_span, c_str. rewrite Nat.sub_0_r, drop_0, <- app_assoc.
    apply take_app_length. }
  f_equal. f_equal. rewrite Hstr.
  set (pre := P ++ chr "%" :: chr "t" :: Q).
  assert (length pre = length P + 2 + length Q) as Hpre by (unfold pre; lengths).
  rewrite <- Hpre.
  assert (drop (length P + 2) pre = Q) as HdropQ.
  { unfold pre. replace (P ++ chr "%" :: chr "t" :: Q) with ((P ++ [chr "%"; chr "t"]) ++ Q)
      by reassoc.
    apply drop_app_length'. lengths. }
  assert (rendered tg (body ++ T ++ [0%Z]) tb args 0
          = rendered tg body tb args 0 ++ T ++ [0%Z]) as Htail
    by (apply rendered_tail; done || lia).
  destruct tb as [|entry tb].
  - cbn [fmap list_fmap rendered]. rewrite drop_app_le by lia.
    by rewrite HdropQ, !drop_0.
  - destruct args as [|a args].
    + cbn [fmap list_fmap rendered]. rewrite drop_app_le by lia.
      by rewrite HdropQ, !drop_0.
    + rewrite <- Htail. cbn [fmap list_fmap rendered shift_entry position size].
      rewrite <- Nat.add_assoc, rendered_shift.
      rewrite (app_assoc Q). f_equal.
      unfold literal_span. rewrite drop_app_le by lia. rewrite HdropQ.
      rewrite drop_0, Nat.sub_0_r.
      replace (length pre + position entry - (length P + 2))
        with (length Q + position entry) by lia.
      rewrite take_app_add. reflexivity.
Qed.
End LogLineFacts.

Lemma checkWidth_shift d table : checkWidth (shift_entry d <$> table) = checkWidth table.
Proof.
  unfold checkWidth. induction table as [|entry table IH]; [done|].
  cbn [fmap list_fmap forallb shift_entry specifier width]. by rewrite IH.
Qed.

Section LogLineBuild.
Context (tg : Target).
Context (P Q body T : list Z).
Hypothesis (HP : Forall (fun c => c ≠ chr "%") P).
Hypothesis (HQ : Forall (fun c => c ≠ chr "%") Q).
Hypothesis (HT : Forall (fun c => c ≠ chr "%") T).
Hypothesis (HTd : IsDigit (hd 0%Z T) = false).
Hypothesis (HTk : match_specifier (hd 0%Z T) = Unknown).

(** The call on the longer literal builds when the call on [body] passes
    its checks and the time stamp has a type [%t] accepts. *)
Lemma Log_build args tick :
  length args = SpecifierQuantity (c_str body) →
  checkWidth (scan_entries tg (length (c_str body)) (c_str body) 0) = true →
  Forall2 (fun entry a => SpecCheck_valid tg (specifier entry) (arg_type a) = true)
          (scan_entries tg (length (c_str body)) (c_str body) 0) args →
  SpecCheck_valid tg Time (arg_type tick) = true →
  ∃ capacity,
    printf_build tg (c_str (P ++ chr "%" :: chr "t" :: Q ++ body ++ T))
                 (arg_type <$> tick :: args)
    = Built ({| specifier := Time; width := 0; position := length P; size := 2 |}
             :: (shift_entry (length P + 2 + length Q)
                 <$> scan_entries tg (length (c_str body)) (c_str body) 0),
             capacity).
Proof.
  intros Hq Hw Hvalid Htick.
  set (tb := scan_entries tg (length (c_str body)) (c_str body) 0) in *.
  set (str := c_str (P ++ chr "%" :: chr "t" :: Q ++ body ++ T)).
  set (table := {| specifier := Time; width := 0; position := length P; size := 2 |}
                :: (shift_entry (length P + 2 + length Q) <$> tb)).
  pose proof (Forall2_length _ _ _ Hvalid) as Hlen.
  assert (SpecifierTable tg (S (SpecifierQuantity (c_str body))) str = table) as Htable.
  { rewrite SpecifierTable_inserts. unfold str. rewrite Log_scan by done. fold tb table.
    replace (S (SpecifierQuantity (c_str body))) with (length table)
      by (unfold table; cbn [length]; rewrite length_fmap; lia).
    apply inserts_over. }
  assert (checkWidth table = true) as Hw'.
  { unfold table. change (checkWidth (?e :: ?l)) with (checkWidth [e] && checkWidth l).
    by rewrite checkWidth_shift, Hw. }
  assert (Forall2 (fun entry ty => SpecCheck_static_assert tg (specifier entry) ty = true)
                  table (arg_type tick :: (arg_type <$> args))) as Hasserts.
  { unfold table. constructor; [exact Htick|].
    apply Forall2_fmap. eapply Forall2_impl; [exact Hvalid|].
    intros entry a. cbn [shift_entry specifier].
    by destruct (specifier entry). }
  assert (forallb (fun d => formatArg_defined (specifier d)) table = true) as Hdef.
  { unfold table. cbn [forallb specifier formatArg_defined andb].
    rewrite forallb_forall. intros x Hx. apply in_map_iff in Hx as (entry & <- & Hin).
    cbn [shift_entry specifier].
    apply list_elem_of_In in Hin.
    destruct (list_elem_of_lookup_1 _ _ Hin) as [i Hi].
    destruct (Forall2_lookup_l _ _ _ _ _ Hvalid Hi) as (a & _ & Ha).
    revert Ha. by destruct (specifier entry). }
  destruct (CheckSpecsTypes_passes tg [] table _ _ Hasserts) as [sum Hsum].
  cbn [app] in Hsum.
  exists (sum + length str).
  unfold printf_build, printf_static. cbn [fmap list_fmap length].
  rewrite length_fmap. fold str.
  assert (SpecifierQuantity str = S (SpecifierQuantity (c_str body))) as ->
    by (by apply Log_quantity).
  rewrite Hq, Nat.eqb_refl, Htable, Hw', Hsum, Hdef. reflexivity.
Qed.

(** What the built call does: the buffer it hands to the sink starts with
    the line, and the count is the length of the line. *)
Lemma Log_line_run args tick stack sink :
  length args = SpecifierQuantity (c_str body) →
  checkWidth (scan_entries tg (length (c_str body)) (c_str body) 0) = true →
  Forall2 (fun entry a =>
             SpecCheck_valid tg (specifier entry) (arg_type a) = true
             ∧ (width entry <= Z.of_nat (digits_bound (sizeof tg (arg_type a))))%Z)
          (scan_entries tg (length (c_str body)) (c_str body) 0) args →
  SpecCheck_valid tg Time (arg_type tick) = true →
  Forall (fun a => arg_defined tg a ∧ 0 < sizeof tg (arg_type a)) (tick :: args) →
  ∃ built buffer,
    printf_build tg (c_str (P ++ chr "%" :: chr "t" :: Q ++ body ++ T))
                 (arg_type <$> tick :: args) = Built built
    ∧ printf_run tg (c_str (P ++ chr "%" :: chr "t" :: Q ++ body ++ T)) built
                 (tick :: args) stack sink
      = Value (length (P ++ time_rendering (arg_value tick) ++ Q
                       ++ rendered tg body
                            (scan_entries tg (length (c_str body)) (c_str body) 0) args 0
                       ++ T ++ [0%Z]),
               sink ++ [buffer])
    ∧ take (length (P ++ time_rendering (arg_value tick) ++ Q
                    ++ rendered tg body
                         (scan_entries tg (length (c_str body)) (c_str body) 0) args 0
                    ++ T ++ [0%Z])) buffer
      = P ++ time_rendering (arg_value tick) ++ Q
        ++ rendered tg body (scan_entries tg (length (c_str body)) (c_str body) 0) args 0
        ++ T ++ [0%Z].
Proof.
  intros Hq Hw Hboth Htick Hargs.
  set (tb := scan_entries tg (length (c_str body)) (c_str body) 0) in *.
  assert (Forall2 (fun entry a => SpecCheck_valid tg (specifier entry) (arg_type a) = true)
                  tb args) as Hvalid
    by (eapply Forall2_impl; [exact Hboth|]; by intros ? ? [? ?]).
  assert (Forall (fun d => specifier d ≠ Unknown) tb) as Hknown.
  { apply (Forall2_Forall_l _ _ _ _ Hvalid). apply Forall_forall. intros a _ entry Ha Hu.
    by rewrite Hu in Ha. }
  destruct (Log_build args tick Hq Hw Hvalid Htick) as [capacity Hbuild]. fold tb in Hbuild.
  assert (Forall (arg_defined tg) (tick :: args)) as Hdef
    by (eapply Forall_impl; [exact Hargs|by intros a [? ?]]).
  pose proof (printf_fits tg _ tick args _ capacity Hbuild) as Hfit.
  specialize (Hfit ltac:(eapply Forall_impl; [exact Hargs|]; by intros a [[? ?] ?])).
  assert (Forall2 (fun entry a =>
                     (width entry <= Z.of_nat (digits_bound (sizeof tg (arg_type a))))%Z)
                  ({| specifier := Time; width := 0; position := length P; size := 2 |}
                   :: (shift_entry (length P + 2 + length Q) <$> tb)) (tick :: args))
    as Hwidths.
  { constructor; [cbn [width]; lia|]. apply Forall2_fmap_l.
    eapply Forall2_impl; [exact Hboth|]. by intros ? ? [? ?]. }
  specialize (Hfit Hwidths).
  pose proof (proj2 (printf_rendered tg _ tick args stack sink _ capacity Hbuild Hdef Hfit))
    as Hrun.
  pose proof (Log_rendered tg P Q body T args tick Hknown) as Hline. fold tb in Hline.
  rewrite Hline in Hrun, Hfit.
  unfold printf in Hrun. rewrite Hbuild in Hrun. cbn [Build_map] in Hrun.
  injection Hrun as Hrun.
  eexists _, _. split; [exact Hbuild|]. split; [exact Hrun|].
  apply take_inserts_0. by rewrite length_uninitialised.
Qed.
End LogLineBuild.

(** The parts of the literals of [Log]. *)
Lemma Log_format_parts col f comp body T :
  Log_format col f comp body ++ T
  = (opening col f ++ chars "[") ++ chr "%" :: chr "t"
    :: (chars "] " ++ chars (label f) ++ chars " " ++ comp ++ chars ": ") ++ body ++ T.
Proof.
  unfold Log_format. unfold chars at 1 5 6.
  cbn [list_ascii_of_string fmap list_fmap]. reassoc.
Qed.

Lemma Log_middle_quiet f comp :
  Forall (fun c => c ≠ chr "%") comp →
  Forall (fun c => c ≠ chr "%")
         (chars "] " ++ chars (label f) ++ chars " " ++ comp ++ chars ": ").
Proof.
  intros Hcomp. rewrite !Forall_app. repeat split; try done;
    try (destruct f); repeat constructor; vm_compute; congruence.
Qed.

Lemma Log_tail_quiet col f :
  Forall (fun c => c ≠ chr "%") (closing col f ++ chars CRLF)
  ∧ IsDigit (hd 0%Z (closing col f ++ chars CRLF)) = false
  ∧ match_specifier (hd 0%Z (closing col f ++ chars CRLF)) = Unknown.
Proof.
  destruct col, f; (split; [repeat constructor; vm_compute; congruence|]);
    split; reflexivity.
Qed.

Lemma Log_head_parts col f comp tick :
  Log_head col f comp tick
  = (opening col f ++ chars "[") ++ time_rendering tick
    ++ (chars "] " ++ chars (label f) ++ chars " " ++ comp ++ chars ": ").
Proof. unfold Log_head. reassoc. Qed.

(** The table of the caller's literal, when every entry has an argument of
    an accepted type, is the list of the scanned entries. *)
Lemma valid_table_entries tg body args :
  Forall2 (fun entry a =>
             SpecCheck_valid tg (specifier entry) (arg_type a) = true
             ∧ (width entry <= Z.of_nat (digits_bound (sizeof tg (arg_type a))))%Z)
          (SpecifierTable tg (SpecifierQuantity (c_str body)) (c_str body)) args →
  SpecifierTable tg (SpecifierQuantity (c_str body)) (c_str body)
  = scan_entries tg (length (c_str body)) (c_str body) 0.
Proof.
  intros Hboth. apply SpecifierTable_entries. rewrite forallb_forall. intros entry Hin.
  apply list_elem_of_In in Hin. destruct (list_elem_of_lookup_1 _ _ Hin) as [i Hi].
  destruct (Forall2_lookup_l _ _ _ _ _ Hboth Hi) as (a & _ & Ha & _).
  revert Ha. by destruct (specifier entry).
Qed.

(** X18. An enabled call of a function of [Log] whose literal and arguments
    would pass the checks of [printf], on a logger whose component name has
    no [%] and whose tick type [%t] accepts, builds and hands the sink one
    buffer. The buffer starts with the line: the colour code of the function
    (when the highlight is enabled), the time stamp in brackets as seconds,
    a point and three digits of milliseconds, the label of the function, the
    component name, a colon, the formatted message, the colour reset code,
    ["\r\n"] and the terminator. The formatted message is what [printf]
    emits for the caller's literal and arguments, less its terminator. *)
Theorem X18_log_line (tg : Target) (lg : Log) (f : LogFunction) (comp body : list Z)
    (args : list Arg) (tick : Arg) (stack : nat → Z) (sink : list (list Z)) :
  Log_component lg = c_str comp →
  Forall (fun c => c ≠ chr "%") comp →
  enabled lg f = true →
  length args = SpecifierQuantity (c_str body) →
  checkWidth (SpecifierTable tg (SpecifierQuantity (c_str body)) (c_str body)) = true →
  Forall2 (fun entry a =>
             SpecCheck_valid tg (specifier entry) (arg_type a) = true
             ∧ (width entry <= Z.of_nat (digits_bound (sizeof tg (arg_type a))))%Z)
          (SpecifierTable tg (SpecifierQuantity (c_str body)) (c_str body)) args →
  SpecCheck_valid tg Time (arg_type tick) = true →
  Forall (fun a => arg_defined tg a ∧ 0 < sizeof tg (arg_type a)) (tick :: args) →
  ∃ msg buffer,
    rendered tg (c_str body)
             (SpecifierTable tg (SpecifierQuantity (c_str body)) (c_str body)) args 0
    = msg ++ [0%Z]
    ∧ Log_call tg lg f (c_str body) args tick stack sink = Built (Value (sink ++ [buffer]))
    ∧ take (length (Log_head (Log_colour lg) f comp (arg_value tick) ++ msg
                    ++ closing (Log_colour lg) f ++ [13; 10; 0]%Z)) buffer
      = Log_head (Log_colour lg) f comp (arg_value tick) ++ msg
        ++ closing (Log_colour lg) f ++ [13; 10; 0]%Z.
Proof.
  intros Hcomp Hquiet Hon Hlen Hw Hboth Htick Hargs.
  pose proof (valid_table_entries tg body args Hboth) as Htb.
  rewrite Htb in Hw, Hboth |- *. clear Htb.
  set (tb := scan_entries tg (length (c_str body)) (c_str body) 0) in *.
  destruct (Log_tail_quiet (Log_colour lg) f) as (HT & HTd & HTk).
  destruct (Log_line_run tg (opening (Log_colour lg) f ++ chars "[")
              (chars "] " ++ chars (label f) ++ chars " " ++ comp ++ chars ": ")
              body (closing (Log_colour lg) f ++ chars CRLF)
              (opening_quiet _ _) (Log_middle_quiet f comp Hquiet) HT HTd HTk
              args tick stack sink Hlen Hw Hboth Htick Hargs)
    as (built & buffer & Hbuild & Hrun & Htake).
  fold tb in Hrun, Htake.
  assert (Forall (fun d => specifier d ≠ Unknown) tb) as Hknown.
  { apply (Forall2_Forall_l _ _ _ _ Hboth). apply Forall_forall. intros a _ entry [Ha _] Hu.
    by rewrite Hu in Ha. }
  exists (rendered tg body tb args 0), buffer. split; [|split].
  - apply rendered_tail; [apply scan_entries_well_placed; lia|done|lia].
  - rewrite (Log_call_unfold tg lg f comp) by done. rewrite Hon.
    unfold printf. rewrite Log_format_parts, Hbuild. cbn [Build_map void].
    by rewrite Hrun.
  - rewrite Log_head_parts.
    replace (((opening (Log_colour lg) f ++ chars "[") ++ time_rendering (arg_value tick)
              ++ chars "] " ++ chars (label f) ++ chars " " ++ comp ++ chars ": ")
             ++ rendered tg body tb args 0 ++ closing (Log_colour lg) f ++ [13; 10; 0]%Z)
      with ((opening (Log_colour lg) f ++ chars "[") ++ time_rendering (arg_value tick)
            ++ (chars "] " ++ chars (label f) ++ chars " " ++ comp ++ chars ": ")
            ++ rendered tg body tb args 0 ++ (closing (Log_colour lg) f ++ chars CRLF)
            ++ [0%Z])
      by (unfold chars at 9; cbn [list_ascii_of_string CRLF fmap list_fmap]; reassoc).
    exact Htake.
Qed.

Lemma X18_log_line_example :
  ∃ msg buffer,
    rendered cortex_m (c_str (chars "t=%d"))
             (SpecifierTable cortex_m (SpecifierQuantity (c_str (chars "t=%d")))
                             (c_str (chars "t=%d")))
             [int_arg (-5)] 0
    = msg ++ [0%Z]
    ∧ Log_call cortex_m
        {| Log_level := Trace_All; Log_colour := Enabled;
           Log_component := c_str (chars "UART") |}
        f_warning (c_str (chars "t=%d")) [int_arg (-5)] (unsigned_arg 1500) (stack_of 0) []
      = Built (Value ([] ++ [buffer]))
    ∧ take (length (Log_head Enabled f_warning (chars "UART") 1500 ++ msg
                    ++ closing Enabled f_warning ++ [13; 10; 0]%Z)) buffer
      = Log_head Enabled f_warning (chars "UART") 1500 ++ msg
        ++ closing Enabled f_warning ++ [13; 10; 0]%Z.
Proof.
  refine (X18_log_line cortex_m
            {| Log_level := Trace_All; Log_colour := Enabled;
               Log_component := c_str (chars "UART") |}
            f_warning (chars "UART") (chars "t=%d") [int_arg (-5)] (unsigned_arg 1500)
            (stack_of 0) [] _ _ _ _ _ _ _ _).
  - reflexivity.
  - repeat constructor; vm_compute; congruence.
  - reflexivity.
  - vm_compute. reflexivity.
  - vm_compute. reflexivity.
  - match goal with
    | |- Forall2 _ ?t _ => let t' := eval vm_compute in t in change t with t'
    end.
    repeat constructor. vm_compute. congruence.
  - reflexivity.
  - repeat constructor; vm_compute; congruence || lia.
Defined.

(** X19. The [DataBuffer] overload of a function of [Log], enabled and with
    a data pointer that is not null, under the same conditions: the sink
    receives first the buffer with the line (colour code, time stamp, label,
    component name, message, terminator; neither the colour reset code nor
    ["\r\n"] are in it), then one group per byte of the data, then
    ["\r\n"], and, from [fatal], [error] and [warning], the colour reset
    string in a call of its own (the empty string when the highlight is
    disabled). *)
Theorem X19_log_dump (tg : Target) (lg : Log) (f : LogFunction) (comp body : list Z)
    (mem : list Z) (len : nat) (args : list Arg) (tick : Arg) (stack : nat → Z)
    (sink : list (list Z)) :
  Log_component lg = c_str comp →
  Forall (fun c => c ≠ chr "%") comp →
  enabled lg f = true →
  length args = SpecifierQuantity (c_str body) →
  checkWidth (SpecifierTable tg (SpecifierQuantity (c_str body)) (c_str body)) = true →
  Forall2 (fun entry a =>
             SpecCheck_valid tg (specifier entry) (arg_type a) = true
             ∧ (width entry <= Z.of_nat (digits_bound (sizeof tg (arg_type a))))%Z)
          (SpecifierTable tg (SpecifierQuantity (c_str body)) (c_str body)) args →
  SpecCheck_valid tg Time (arg_type tick) = true →
  Forall (fun a => arg_defined tg a ∧ 0 < sizeof tg (arg_type a)) (tick :: args) →
  len ≤ length mem →
  Forall (fun d => (0 <= d < (if char_is_signed tg then 128 else 256))%Z) (take len mem) →
  ∃ msg buffer,
    rendered tg (c_str body)
             (SpecifierTable tg (SpecifierQuantity (c_str body)) (c_str body)) args 0
    = msg ++ [0%Z]
    ∧ Log_call_DataBuffer tg lg f (c_str body) {| data := Some mem; data_length := len |}
                          args tick stack sink
      = Built (Value (sink ++ [buffer] ++ (dump_group <$> take len mem) ++ [literal CRLF]
                      ++ (if coloured f then [c_str (closing (Log_colour lg) f)] else [])))
    ∧ take (length (Log_head (Log_colour lg) f comp (arg_value tick) ++ msg ++ [0%Z]))
           buffer
      = Log_head (Log_colour lg) f comp (arg_value tick) ++ msg ++ [0%Z].
Proof.
  intros Hcomp Hquiet Hon Hlen Hw Hboth Htick Hargs Hmem Hbytes.
  pose proof (valid_table_entries tg body args Hboth) as Htb.
  rewrite Htb in Hw, Hboth |- *. clear Htb.
  set (tb := scan_entries tg (length (c_str body)) (c_str body) 0) in *.
  destruct (Log_line_run tg (opening (Log_colour lg) f ++ chars "[")
              (chars "] " ++ chars (label f) ++ chars " " ++ comp ++ chars ": ")
              body [] (opening_quiet _ _) (Log_middle_quiet f comp Hquiet)
              ltac:(constructor) eq_refl eq_refl
              args tick stack sink Hlen Hw Hboth Htick Hargs)
    as (built & buffer & Hbuild & Hrun & Htake).
  fold tb in Hrun, Htake.
  assert (Forall (fun d => specifier d ≠ Unknown) tb) as Hknown.
  { apply (Forall2_Forall_l _ _ _ _ Hboth). apply Forall_forall. intros a _ entry [Ha _] Hu.
    by rewrite Hu in Ha. }
  exists (rendered tg body tb args 0), buffer. split; [|split].
  - apply rendered_tail; [apply scan_entries_well_placed; lia|done|lia].
  - rewrite (Log_call_DataBuffer_unfold tg lg f comp) by done. rewrite Hon.
    unfold printf_DataBuffer.
    rewrite <- (app_nil_r (Log_format _ _ _ _)), Log_format_parts, Hbuild.
    cbn [Build_map].
    rewrite (printf_DataBuffer_run_groups tg dump_group _ _ mem len _ _ _ _ _ Hmem
               ltac:(eapply Forall_impl; [exact Hbytes|]; intros d Hd; by apply dump_byte)
               Hrun).
    destruct (coloured f); cbn [then_printf void Build_map printf printf_build printf_run
                                fmap list_fmap];
      do 2 f_equal; reassoc.
  - rewrite Log_head_parts.
    replace (((opening (Log_colour lg) f ++ chars "[") ++ time_rendering (arg_value tick)
              ++ chars "] " ++ chars (label f) ++ chars " " ++ comp ++ chars ": ")
             ++ rendered tg body tb args 0 ++ [0%Z])
      with ((opening (Log_colour lg) f ++ chars "[") ++ time_rendering (arg_value tick)
            ++ (chars "] " ++ chars (label f) ++ chars " " ++ comp ++ chars ": ")
            ++ rendered tg body tb args 0 ++ [] ++ [0%Z])
      by reassoc.
    exact Htake.
Qed.

Lemma X19_log_dump_example :
  ∃ msg buffer,
    rendered cortex_m (c_str (chars "rx %u:"))
             (SpecifierTable cortex_m (SpecifierQuantity (c_str (chars "rx %u:")))
                             (c_str (chars "rx %u:")))
             [unsigned_arg 2] 0
    = msg ++ [0%Z]
    ∧ Log_call_DataBuffer cortex_m
        {| Log_level := Trace_Debug; Log_colour := Disabled;
           Log_component := c_str (chars "SPI") |}
        f_error (c_str (chars "rx %u:")) {| data := Some [1; 171; 7]%Z; data_length := 2 |}
        [unsigned_arg 2] (unsigned_arg 59) (stack_of 0) []
      = Built (Value ([] ++ [buffer] ++ (dump_group <$> take 2 [1; 171; 7]%Z)
                      ++ [literal CRLF]
                      ++ (if coloured f_error then [c_str (closing Disabled f_error)]
                          else [])))
    ∧ take (length (Log_head Disabled f_error (chars "SPI") 59 ++ msg ++ [0%Z])) buffer
      = Log_head Disabled f_error (chars "SPI") 59 ++ msg ++ [0%Z].
Proof.
  refine (X19_log_dump cortex_m
            {| Log_level := Trace_Debug; Log_colour := Disabled;
               Log_component := c_str (chars "SPI") |}
            f_error (chars "SPI") (chars "rx %u:") [1; 171; 7]%Z 2 [unsigned_arg 2]
            (unsigned_arg 59) (stack_of 0) [] _ _ _ _ _ _ _ _ _ _).
  - reflexivity.
  - repeat constructor; vm_compute; congruence.
  - reflexivity.
  - vm_compute. reflexivity.
  - vm_compute. reflexivity.
  - match goal with
    | |- Forall2 _ ?t _ => let t' := eval vm_compute in t in change t with t'
    end.
    repeat constructor. vm_compute. congruence.
  - reflexivity.
  - repeat constructor; vm_compute; congruence || lia.
  - vm_compute. lia.
  - repeat constructor; vm_compute; congruence.
Defined.

(** ** [Log]: a component name with a [%] *)

Lemma printf_build_arity tg str First Rest :
  S (length Rest) ≠ SpecifierQuantity str →
  printf_build tg str (First :: Rest) = CompileError.
Proof.
  intros Hq. unfold printf_build, printf_static. cbn [length].
  by destruct (Nat.eqb_spec (S (length Rest)) (SpecifierQuantity str)).
Qed.

Lemma Log_format_quantity col f comp body T :
  Forall (fun c => c ≠ chr "%") T →
  SpecifierQuantity (c_str (Log_format col f comp body ++ T))
  = S (SpecifierQuantity comp + SpecifierQuantity (c_str body)).
Proof.
  intros HT. unfold c_str, Log_format.
  rewrite !SpecifierQuantity_app, (SpecifierQuantity_none T) by done.
  assert (SpecifierQuantity (opening col f) = 0) as -> by (by destruct col, f).
  assert (SpecifierQuantity (chars (label f)) = 0) as -> by (by destruct f).
  change (SpecifierQuantity (chars "[%t] ")) with 1.
  change (SpecifierQuantity (chars " ")) with 0.
  change (SpecifierQuantity (chars ": ")) with 0.
  lia.
Qed.

(** X20. The component name is part of the literal every function of [Log]
    formats, so a [%] in it counts as a specifier: an enabled call that
    passes as many arguments as its own literal has [%] bytes does not
    compile on a logger whose component name contains a [%]. *)
Theorem X20_component_with_a_specifier (tg : Target) (lg : Log) (f : LogFunction)
    (comp body : list Z) (dataBuffer : DataBuffer) (args : list Arg) (tick : Arg)
    (stack : nat → Z) (sink : list (list Z)) :
  Log_component lg = c_str comp →
  enabled lg f = true →
  length args = SpecifierQuantity (c_str body) →
  chr "%" ∈ comp →
  Log_call tg lg f (c_str body) args tick stack sink = CompileError
  ∧ Log_call_DataBuffer tg lg f (c_str body) dataBuffer args tick stack sink = CompileError.
Proof.
  intros Hcomp Hon Hlen Hin.
  assert (0 < SpecifierQuantity comp) as Hpos.
  { apply list_elem_of_split in Hin as (l1 & l2 & ->).
    rewrite SpecifierQuantity_app, SpecifierQuantity_cons.
    change (chr "%" =? chr "%")%Z with true. cbv iota. lia. }
  destruct (Log_tail_quiet (Log_colour lg) f) as (HT & _ & _).
  rewrite (Log_call_unfold tg lg f comp), (Log_call_DataBuffer_unfold tg lg f comp), Hon
    by done.
  unfold printf, printf_DataBuffer. cbn [fmap list_fmap].
  rewrite printf_build_arity
    by (rewrite length_fmap, Log_format_quantity by done; lia).
  rewrite <- (app_nil_r (Log_format _ _ _ _)).
  rewrite printf_build_arity
    by (rewrite length_fmap, Log_format_quantity by constructor; lia).
  cbn [Build_map void then_printf]. by destruct (coloured f).
Qed.

Lemma X20_component_example :
  Log_call cortex_m
    {| Log_level := Trace_All; Log_colour := Disabled;
       Log_component := c_str (chars "50%") |}
    f_info (c_str (chars "up")) [] (unsigned_arg 7) (stack_of 0) [] = CompileError
  ∧ Log_call_DataBuffer cortex_m
      {| Log_level := Trace_All; Log_colour := Disabled;
         Log_component := c_str (chars "50%") |}
      f_info (c_str (chars "up")) {| data := None; data_length := 0 |} []
      (unsigned_arg 7) (stack_of 0) [] = CompileError.
Proof.
  refine (X20_component_with_a_specifier cortex_m
            {| Log_level := Trace_All; Log_colour := Disabled;
               Log_component := c_str (chars "50%") |}
            f_info (chars "50%") (chars "up") {| data := None; data_length := 0 |} []
            (unsigned_arg 7) (stack_of 0) [] _ _ _ _).
  - reflexivity.
  - reflexivity.
  - vm_compute. reflexivity.
  - vm_compute. repeat constructor.
Defined.

(** ** The decimal routines on a buffer that is too short *)

Section OverflowFacts.
Context (tg : Target).

Lemma bind_fault {A B} (m : M A) (k : A → M B) buf :
  m buf = Fault → bind m k buf = Fault.
Proof. intros H. unfold bind. by rewrite H. Qed.

Lemma digits_loop_fault fuel buffer v num buf :
  (0 <= v < 10 ^ Z.of_nat (S fuel))%Z →
  length buf < buffer + num + length (decimal_lsb (S fuel) v) →
  digits_loop tg (S fuel) buffer v num buf = Fault.
Proof.
  revert v num buf. induction fuel as [|fuel IH]; intros v num buf Hv Hshort;
    rewrite decimal_lsb_S in Hshort; cbn [length] in Hshort;
    (destruct (decide (buffer + num < length buf)) as [Hroom|Hfull];
     [|cbn [digits_loop]; apply bind_fault, store_fault; lia]);
    rewrite digits_loop_S by lia;
    destruct (Z.eqb_spec (v / 10) 0) as [Hq|Hq]; cbn [length] in Hshort; try lia.
  assert (0 <= v / 10 < 10 ^ Z.of_nat (S fuel))%Z as Hlo.
  { split; [lia|]. apply Z.div_lt_upper_bound; [lia|].
    rewrite <- Z.pow_succ_r by lia. rewrite <- Nat2Z.inj_succ. lia. }
  apply IH; [done|]. rewrite length_insert. lia.
Qed.

Lemma digits_loop_decimal_fault buffer v buf :
  (0 <= v)%Z → length buf < buffer + length (decimal v) →
  digits_loop tg (digits_fuel v) buffer v 0 buf = Fault.
Proof.
  intros Hv Hshort. unfold decimal in *. rewrite length_reverse in Hshort.
  pose proof (digits_fuel_enough v Hv) as Hfuel. unfold digits_fuel in *.
  apply digits_loop_fault; [lia|]. lia.
Qed.

Lemma pad_loop_fault fuel buffer W num buf :
  Z.to_nat W - num < fuel →
  buffer + num ≤ length buf →
  length buf < buffer + num + (Z.to_nat W - num) →
  pad_loop fuel buffer W num buf = Fault.
Proof.
  revert num buf. induction fuel as [|fuel IH]; intros num buf Hfuel Hroom Hshort; [lia|].
  cbn [pad_loop]. destruct (Z.ltb_spec (Z.of_nat num) W) as [Hlt|Hge]; [|lia].
  destruct (decide (buffer + num < length buf)) as [Hfit|Hfull].
  - erewrite bind_value by (apply store_value; lia).
    apply IH; rewrite ?length_insert; lia.
  - apply bind_fault, store_fault. lia.
Qed.

Lemma pad_if_width_fault buffer W num buf :
  buffer + num ≤ length buf →
  length buf < buffer + num + (Z.to_nat W - num) →
  pad_if_width buffer W num buf = Fault.
Proof.
  intros Hroom Hshort. unfold pad_if_width. destruct (Z.eqb_spec W 0) as [->|HW]; [lia|].
  apply pad_loop_fault; lia.
Qed.

(** What follows the digits: padding, sign and reversal. *)
Lemma decimal_finish_fault buffer W (negative : bool) digits buf :
  buffer + length digits ≤ length buf →
  length buf < buffer + length ((if negative then [chr "-"] else []) ++ zero_pad W digits) →
  (let* num := pad_if_width buffer W (length digits) in
   let* num := (if negative
                then let* _ := store (buffer + num) (chr "-") in ret (S num)
                else ret num) in
   let* _ := swap_loop (S num) buffer num 0 in
   ret num) (list_inserts buffer (reverse digits) buf) = Fault.
Proof.
  intros Hroom Hshort. rewrite length_app, length_zero_pad in Hshort.
  destruct (decide (buffer + length digits + (Z.to_nat W - length digits) ≤ length buf))
    as [Hpad|Hpad].
  - erewrite bind_value
      by (apply pad_if_width_spec; rewrite length_inserts; lia).
    destruct negative; [|cbn [length] in Hshort; lia].
    cbn [length] in Hshort.
    apply bind_fault, bind_fault, store_fault. rewrite !length_inserts. lia.
  - apply bind_fault, pad_if_width_fault; rewrite length_inserts; lia.
Qed.

Lemma formatArg_UnsignedDecimalInteger_fault buffer v W buf :
  (0 <= v)%Z →
  length buf < buffer + length (zero_pad W (decimal v)) →
  formatArg_UnsignedDecimalInteger tg buffer v W buf = Fault.
Proof.
  intros Hv Hshort. unfold formatArg_UnsignedDecimalInteger.
  destruct (decide (buffer + length (decimal v) ≤ length buf)) as [Hdigits|Hdigits].
  - erewrite bind_value by (by apply digits_loop_decimal).
    by apply (decimal_finish_fault buffer W false (decimal v) buf).
  - apply bind_fault, digits_loop_decimal_fault; [done|lia].
Qed.

Lemma formatArg_SignedDecimalInteger_fault buffer ty v W buf :
  (- v < 2 ^ (8 * Z.of_nat (Nat.max (sizeof tg ty) (sizeof_int tg)) - 1))%Z →
  length buf < buffer + length (signed_decimal W v) →
  formatArg_SignedDecimalInteger tg buffer ty v W buf = Fault.
Proof.
  intros Hneg Hshort. unfold formatArg_SignedDecimalInteger, signed_decimal in *.
  erewrite (bind_value _ _ buf (Z.abs v) buf); cycle 1.
  { destruct (Z.ltb_spec v 0).
    - unfold negate. destruct (Z.ltb_spec (- v)
        (2 ^ (8 * Z.of_nat (Nat.max (sizeof tg ty) (sizeof_int tg)) - 1))); [|lia].
      unfold ret. do 2 f_equal. lia.
    - unfold ret. do 2 f_equal. lia. }
  destruct (decide (buffer + length (decimal (Z.abs v)) ≤ length buf)) as [Hdigits|Hdigits].
  - erewrite bind_value by (apply digits_loop_decimal; lia).
    by apply (decimal_finish_fault buffer W (v <? 0)%Z (decimal (Z.abs v)) buf).
  - apply bind_fault, digits_loop_decimal_fault; lia.
Qed.
End OverflowFacts.

(** X21. The decimal routines do not look at the size of the buffer they
    write to: when the sign, the padding and the digits of the argument are
    more than the room from the buffer pointer to the end of the array, [%d]
    and [%u] store outside the array, which is undefined. With the rendering
    that fits they store it; there is no third outcome. *)
Theorem X21_decimal_routines_trust_the_plan (tg : Target) (sp : Specifier) (ty : Ty)
    (v W : Z) (buffer : nat) (buf : list Z) :
  sp = SignedDecimalInteger ∨ sp = UnsignedDecimalInteger →
  SpecCheck_valid tg sp ty = true →
  arg_defined tg {| arg_type := ty; arg_value := v |} →
  let out := (if (v <? 0)%Z then [chr "-"] else [])
             ++ replicate (Z.to_nat W - length (decimal (Z.abs v))) (chr "0")
             ++ decimal (Z.abs v) in
  length buf < buffer + length out →
  formatArg tg sp buffer {| arg_type := ty; arg_value := v |} W buf = Fault.
Proof.
  intros Hsp Hvalid [Hrange Hneg] out Hshort.
  destruct Hsp as [-> | ->]; cbn [formatArg arg_type arg_value] in *.
  - by apply formatArg_SignedDecimalInteger_fault.
  - apply andb_true_iff in Hvalid as [Hu _].
    pose proof (unsigned_nonneg tg ty v Hu Hrange) as Hv.
    subst out. revert Hshort.
    destruct (Z.ltb_spec v 0) as [|_]; [lia|].
    rewrite Z.abs_eq by done. cbn [app]. intros Hshort.
    by apply formatArg_UnsignedDecimalInteger_fault.
Qed.

Lemma X21_decimal_overflow_example :
  formatArg cortex_m UnsignedDecimalInteger 0 (uint8_arg 7) 9 (replicate 5 0%Z) = Fault.
Proof.
  refine (X21_decimal_routines_trust_the_plan cortex_m UnsignedDecimalInteger
            (Integral false 1) 7 9 0 (replicate 5 0%Z) _ _ _ _).
  - by right.
  - reflexivity.
  - vm_compute. split; [split|]; congruence.
  - vm_compute. lia.
Defined.

(** ** The hexadecimal digits read back *)

Lemma hex_digit_value_digit m : (0 <= m < 16)%Z → hex_digit_value (hex_digit m) = Some m.
Proof.
  intros Hm.
  assert (m = 0 ∨ m = 1 ∨ m = 2 ∨ m = 3 ∨ m = 4 ∨ m = 5 ∨ m = 6 ∨ m = 7 ∨ m = 8
          ∨ m = 9 ∨ m = 10 ∨ m = 11 ∨ m = 12 ∨ m = 13 ∨ m = 14 ∨ m = 15)%Z as Hcases by lia.
  repeat (destruct Hcases as [-> | Hcases]); [..|subst m]; reflexivity.
Qed.

Lemma hex_nibbles_S n v :
  hex_nibbles (S n) v = hex_nibbles n (v / 16)%Z ++ [hex_digit (v mod 16)%Z].
Proof.
  unfold hex_nibbles. rewrite seq_S, fmap_app. cbn [fmap list_fmap]. f_equal.
  - apply list_fmap_ext. intros i k Hk. apply lookup_seq in Hk as [-> Hlt].
    cbn [Nat.add]. do 2 f_equal.
    replace (Z.of_nat (S n - 1 - i)) with (1 + Z.of_nat (n - 1 - i))%Z by lia.
    rewrite Z.pow_add_r, Z.div_div by lia. reflexivity.
  - replace (S n - 1 - (0 + n)) with 0 by lia. cbn [Z.of_nat].
    by rewrite Z.pow_0_r, Z.div_1_r.
Qed.

Lemma hex_value_nibbles n v :
  (0 <= v)%Z → hex_value (hex_nibbles n v) = Some (v mod 16 ^ Z.of_nat n)%Z.
Proof.
  revert v. induction n as [|n IH]; intros v Hv.
  - cbn. by rewrite Z.mod_1_r.
  - rewrite hex_nibbles_S. unfold hex_value. rewrite fold_left_app. cbn [fold_left].
    fold (hex_value (hex_nibbles n (v / 16))).
    rewrite IH by lia. rewrite hex_digit_value_digit by lia. f_equal.
    rewrite Nat2Z.inj_succ, Z.pow_succ_r, Z.rem_mul_r by lia. lia.
Qed.

(** X22. The digits [%X] and [%p] store after ["0x"] read back as the
    argument: two digits per byte of the type, each one of [0] to [9] and
    [A] to [F], and the number they denote in base 16 is the value, for
    every value of an unsigned integral type and every address that fits
    [size_t]. *)
Theorem X22_hexadecimal_reads_back (tg : Target) (sp : Specifier) (ty : Ty) (bytes : nat)
    (v W : Z) (buffer : nat) (buf : list Z) :
  (sp = UnsignedHexadecimalInteger ∧ bytes = sizeof tg ty
   ∧ SpecCheck_valid tg UnsignedHexadecimalInteger ty = true ∧ in_range tg ty v)
  ∨ (sp = PointerAddress ∧ bytes = sizeof_size_t tg
     ∧ (0 <= v < 2 ^ (8 * Z.of_nat (sizeof_size_t tg)))%Z) →
  buffer + (2 * bytes + 2) ≤ length buf →
  ∃ digits,
    formatArg tg sp buffer {| arg_type := ty; arg_value := v |} W buf =
      Value (2 + length digits, list_inserts buffer ([chr "0"; chr "x"] ++ digits) buf)
    ∧ length digits = 2 * bytes
    ∧ Forall (fun c => c ∈ hex_digits) digits
    ∧ hex_value digits = Some v.
Proof.
  intros Hcase Hfit. exists (hex_nibbles (2 * bytes) v).
  pose proof (length_hex_nibbles (2 * bytes) v) as Hlen.
  assert (0 <= v < 2 ^ (8 * Z.of_nat bytes))%Z as Hrange.
  { destruct Hcase as [(_ & -> & Hvalid & Hr) | (_ & -> & Hr)]; [|done].
    cbn [SpecCheck_valid] in Hvalid. apply andb_true_iff in Hvalid as [Hu _].
    destruct ty as [[|] b| | |]; cbn in Hu, Hr |- *; try done.
    destruct (char_is_signed tg); [done|]. exact Hr. }
  split; [|split; [done|split; [apply hex_nibbles_digits|]]].
  - rewrite Hlen. replace (2 + 2 * bytes) with (2 * bytes + 2) by lia.
    destruct Hcase as [(-> & -> & _) | (-> & -> & _)]; cbn [formatArg arg_type arg_value];
      by apply formatArg_hex_spec.
  - rewrite hex_value_nibbles by lia. f_equal. apply Z.mod_small.
    replace (16 ^ Z.of_nat (2 * bytes))%Z with (2 ^ (8 * Z.of_nat bytes))%Z; [done|].
    change 16%Z with (2 ^ 4)%Z. rewrite <- Z.pow_mul_r by lia. f_equal. lia.
Qed.

(** The byte [0xAB] is stored as ["0xAB"], which reads back as 171. *)
Lemma X22_hexadecimal_example :
  ∃ digits,
    formatArg cortex_m UnsignedHexadecimalInteger 0 (uint8_arg 171) 0 (replicate 4 0%Z) =
      Value (2 + length digits,
             list_inserts 0 ([chr "0"; chr "x"] ++ digits) (replicate 4 0%Z))
    ∧ length digits = 2 * 1
    ∧ Forall (fun c => c ∈ hex_digits) digits
    ∧ hex_value digits = Some 171%Z.
Proof.
  refine (X22_hexadecimal_reads_back cortex_m UnsignedHexadecimalInteger (Integral false 1)
            1 171 0 0 (replicate 4 0%Z) _ _).
  - left. repeat split; vm_compute; congruence.
  - vm_compute. lia.
Defined.
